(** * Calling-convention lowering of the CIR code generator (CIRGenCall.cpp)

    A shallow embedding of clang/lib/CIR/CodeGen/CIRGenCall.cpp:
    the function-signature descriptor and its factory, the signature
    arrangers, machine function-type construction with its re-entrancy
    guard, the attribute synthesizer and the argument / return-value parts
    of the call emitter.

    Conventions of the embedding.
    - [assert(c && msg)] and [llvm_unreachable(msg)] are faults: a
      computation is an [Outcome], either [Done] or [Faulted].  This is the
      assertion-enabled build.
    - Code that mutates the MLIR builder or the type lowering context is a
      state transformer [Emit S A := S -> Outcome (A * S)].
    - Collaborators defined outside this translation unit (the type
      converter, the C++ ABI object, the AST context) are parameters; where
      a definition stands for code of a header that this unit includes, its
      comment starts with [Modelled from the spec:]. *)

From stdpp Require Import base option list gmap strings.
From Stdlib Require Import ZArith Lia DecimalString.

(* ================================================================== *)
(** ** Faults and the two monads                                       *)
(* ================================================================== *)

Inductive Fault :=
| AssertionFailure (msg : string)     (* assert(cond && msg) fired *)
| LlvmUnreachable (msg : string)      (* llvm_unreachable(msg) was reached *)
| FuelExhausted.                      (* the fuel of a recursive model ran out *)

Inductive Outcome (A : Type) : Type :=
| Done (a : A)
| Faulted (f : Fault).
Arguments Done {A} a.
Arguments Faulted {A} f.

#[global] Instance Outcome_ret : MRet Outcome := λ A a, Done a.
#[global] Instance Outcome_bind : MBind Outcome :=
  λ A B f m, match m with Done a => f a | Faulted e => Faulted e end.
#[global] Instance Outcome_fmap : FMap Outcome :=
  λ A B f m, match m with Done a => Done (f a) | Faulted e => Faulted e end.

Definition Emit (S A : Type) : Type := S → Outcome (A * S).

#[global] Instance Emit_ret {S} : MRet (Emit S) := λ A a s, Done (a, s).
#[global] Instance Emit_bind {S} : MBind (Emit S) :=
  λ A B f m s, match m s with Done (a, s') => f a s' | Faulted e => Faulted e end.

Definition assert_ (c : bool) (msg : string) : Outcome unit :=
  if c then Done tt else Faulted (AssertionFailure msg).

Definition llvm_unreachable {A} (msg : string) : Outcome A :=
  Faulted (LlvmUnreachable msg).

Definition lift {S A} (m : Outcome A) : Emit S A :=
  λ s, match m with Done a => Done (a, s) | Faulted e => Faulted e end.

Definition get_state {S} : Emit S S := λ s, Done (s, s).
Definition put_state {S} (s' : S) : Emit S unit := λ _, Done (tt, s').

(** [mapE f l]: run [f] on the elements of [l] from left to right. *)
Fixpoint mapE {S A B} (f : A → Emit S B) (l : list A) : Emit S (list B) :=
  match l with
  | [] => mret []
  | x :: xs => y ← f x; ys ← mapE f xs; mret (y :: ys)
  end.

(* ================================================================== *)
(** ** Source-level (AST) types                                        *)
(* ================================================================== *)

(** clang::CallingConv; the constants this unit names. *)
Inductive CallingConv := CC_C | CC_Swift | CC_SwiftAsync | CC_OpenCLKernel.
#[global] Instance CallingConv_eq_dec : EqDecision CallingConv.
Proof. solve_decision. Defined.

(** cir::CallingConv. *)
Inductive cir_CallingConv := cir_C | cir_SpirKernel | cir_SpirFunction.
#[global] Instance cir_CallingConv_eq_dec : EqDecision cir_CallingConv.
Proof. solve_decision. Defined.

(** FunctionType::ExtInfo, the fields [CIRGenFunctionInfo::create] reads. *)
Record ExtInfo := {
  getCC : CallingConv;
  getNoReturn : bool;
  getProducesResult : bool;
  getNoCallerSavedRegs : bool;
  getNoCfCheck : bool;
  getCmseNSCall : bool;
  getHasRegParm : bool;
  getRegParm : N
}.
#[global] Instance ExtInfo_eq_dec : EqDecision ExtInfo.
Proof. solve_decision. Defined.

(** FunctionProtoType::ExtParameterInfo.  A default-constructed info
    (what [emplace_back()] and [resize] add) has every bit clear. *)
Record ExtParameterInfo := {
  hasPassObjectSize : bool;
  isNoEscape : bool;
  isConsumed : bool
}.
#[global] Instance ExtParameterInfo_eq_dec : EqDecision ExtParameterInfo.
Proof. solve_decision. Defined.

Definition ExtParameterInfo_default : ExtParameterInfo :=
  {| hasPassObjectSize := false; isNoEscape := false; isConsumed := false |}.

(** clang::ExceptionSpecificationType. *)
Inductive ExceptionSpecificationType :=
| EST_None | EST_DynamicNone | EST_Dynamic | EST_MSAny | EST_NoThrow
| EST_BasicNoexcept | EST_DependentNoexcept | EST_NoexceptFalse
| EST_NoexceptTrue | EST_Unevaluated | EST_Uninstantiated | EST_Unparsed.
#[global] Instance ExceptionSpecificationType_eq_dec :
  EqDecision ExceptionSpecificationType.
Proof. solve_decision. Defined.

(** The part of a FunctionProtoType that holds no type: variadic flag,
    ExtInfo, the optional parallel ExtParameterInfo array, the kind of
    exception specification and the answer of [isNothrow()]. *)
Record ProtoInfo := {
  pi_isVariadic : bool;
  pi_ExtInfo : ExtInfo;
  pi_ExtParameterInfos : option (list ExtParameterInfo);
  pi_ExceptionSpecType : ExceptionSpecificationType;
  pi_isNothrow : bool
}.
#[global] Instance ProtoInfo_eq_dec : EqDecision ProtoInfo.
Proof. solve_decision. Defined.

(** Canonical, unqualified source types (CanQualType). *)
#[warnings="-register-all"]
Inductive QualType :=
| VoidTy
| BoolTy
| IntTy (bits : N) (isSigned : bool)
| FloatTy
| DoubleTy
| PointerTy (pointee : QualType) (addressSpace : N)
| RecordTy (name : string)
| FunctionNoProtoTy (ret : QualType) (ext : ExtInfo)
| FunctionProtoTy (ret : QualType) (params : list QualType) (info : ProtoInfo).

#[global] Instance QualType_eq_dec : EqDecision QualType.
Proof.
  unfold EqDecision, Decision. fix IH 1.
  intros a b. decide equality; solve_decision.
Defined.

(** CanQual<FunctionProtoType> and CanQual<FunctionNoProtoType>. *)
Record FunctionProtoType := {
  fpt_ReturnType : QualType;
  fpt_ParamTypes : list QualType;
  fpt_info : ProtoInfo
}.

Record FunctionNoProtoType := {
  fnpt_ReturnType : QualType;
  fnpt_ExtInfo : ExtInfo
}.

Definition FunctionProtoType_type (FPT : FunctionProtoType) : QualType :=
  FunctionProtoTy (fpt_ReturnType FPT) (fpt_ParamTypes FPT) (fpt_info FPT).

Definition FunctionNoProtoType_type (FTNP : FunctionNoProtoType) : QualType :=
  FunctionNoProtoTy (fnpt_ReturnType FTNP) (fnpt_ExtInfo FTNP).

(** [T->getAs<FunctionProtoType>()] / [dyn_cast<FunctionProtoType>]. *)
Definition getAs_FunctionProtoType (T : QualType) : option FunctionProtoType :=
  match T with
  | FunctionProtoTy r ps i =>
      Some {| fpt_ReturnType := r; fpt_ParamTypes := ps; fpt_info := i |}
  | _ => None
  end.

Definition getAs_FunctionNoProtoType (T : QualType) : option FunctionNoProtoType :=
  match T with
  | FunctionNoProtoTy r e => Some {| fnpt_ReturnType := r; fnpt_ExtInfo := e |}
  | _ => None
  end.

Definition isa_FunctionType (T : QualType) : bool :=
  match T with
  | FunctionNoProtoTy _ _ | FunctionProtoTy _ _ _ => true
  | _ => false
  end.

Definition FunctionType_getReturnType (T : QualType) : QualType :=
  match T with
  | FunctionNoProtoTy r _ | FunctionProtoTy r _ _ => r
  | _ => VoidTy
  end.

Definition FunctionType_getExtInfo (T : QualType) : option ExtInfo :=
  match T with
  | FunctionNoProtoTy _ e => Some e
  | FunctionProtoTy _ _ i => Some (pi_ExtInfo i)
  | _ => None
  end.

Definition isVariadic_proto (FPT : FunctionProtoType) : bool :=
  pi_isVariadic (fpt_info FPT).
Definition hasExtParameterInfos (FPT : FunctionProtoType) : bool :=
  bool_decide (is_Some (pi_ExtParameterInfos (fpt_info FPT))).
Definition getExtParameterInfos (FPT : FunctionProtoType) : list ExtParameterInfo :=
  default [] (pi_ExtParameterInfos (fpt_info FPT)).
Definition getNumParams (FPT : FunctionProtoType) : nat :=
  length (fpt_ParamTypes FPT).
Definition getExtInfo (FPT : FunctionProtoType) : ExtInfo :=
  pi_ExtInfo (fpt_info FPT).
Definition getExceptionSpecType (FPT : FunctionProtoType) : ExceptionSpecificationType :=
  pi_ExceptionSpecType (fpt_info FPT).
Definition isNothrow (FPT : FunctionProtoType) : bool :=
  pi_isNothrow (fpt_info FPT).

(** Modelled from the spec: [isUnresolvedExceptionSpec] of
    clang/Basic/ExceptionSpecificationType.h, which is not part of this
    unit: the specification is "unresolved" while it is still being
    computed, that is unevaluated or uninstantiated. *)
Definition isUnresolvedExceptionSpec (ESpecType : ExceptionSpecificationType) : bool :=
  match ESpecType with
  | EST_Unevaluated | EST_Uninstantiated => true
  | _ => false
  end.

(* ================================================================== *)
(** ** The function-signature descriptor                               *)
(* ================================================================== *)

(** Modelled from the spec: [RequiredArgs] of CIRGenFunctionInfo.h, which
    is not part of this unit.  "All arguments required" (non-variadic), or
    "the first K are required, the rest optional"; K = 0 is the
    unrestricted variadic form.  The arrangers build it with
    [RequiredArgs::All], [RequiredArgs(n)] and [forPrototypePlus]. *)
Inductive RequiredArgs :=
| RequiredArgs_All
| RequiredArgs_N (n : nat).
#[global] Instance RequiredArgs_eq_dec : EqDecision RequiredArgs.
Proof. solve_decision. Defined.

Definition allowsOptionalArgs (R : RequiredArgs) : bool :=
  match R with RequiredArgs_All => false | RequiredArgs_N _ => true end.

(** [getNumRequiredArgs()] asserts [allowsOptionalArgs()]; callers guard it. *)
Definition RequiredArgs_getNumRequiredArgs (R : RequiredArgs) : nat :=
  match R with RequiredArgs_All => 0 | RequiredArgs_N n => n end.

(** Modelled from the spec: [RequiredArgs::forPrototypePlus]: "required
    argument count = number of formal parameters, including any
    already-inserted implicit/prefix arguments", a pass-object-size
    parameter counting twice. *)
Definition forPrototypePlus (prototype : FunctionProtoType) (additional : nat)
  : RequiredArgs :=
  if negb (isVariadic_proto prototype) then RequiredArgs_All
  else
    let additional :=
      if hasExtParameterInfos prototype
      then additional +
           length (filter (λ e, hasPassObjectSize e = true)
                          (getExtParameterInfos prototype))
      else additional in
    RequiredArgs_N (getNumParams prototype + additional).

(** cir::FnInfoOpts. *)
Inductive FnInfoOpts := FnInfoOpts_None | IsInstanceMethod | IsChainCall | IsDelegateCall.
#[global] Instance FnInfoOpts_eq_dec : EqDecision FnInfoOpts.
Proof. solve_decision. Defined.

(** CIRGenFunctionInfo.  The two trailing arrays of the single allocation
    are the two buffers: [ArgTypesBuffer] holds the return type in slot 0
    followed by the argument types. *)
Record CIRGenFunctionInfo := {
  CallingConvention : cir_CallingConv;
  EffectiveCallingConvention : cir_CallingConv;
  ASTCallingConvention : CallingConv;
  InstanceMethod : bool;
  ChainCall : bool;
  CmseNSCall : bool;
  NoReturn : bool;
  ReturnsRetained : bool;
  NoCallerSavedRegs : bool;
  NoCfCheck : bool;
  Required : RequiredArgs;
  HasRegParm : bool;
  RegParm : N;
  ArgRecord : option string;
  ArgRecordAlign : N;
  NumArgs : nat;
  HasExtParameterInfos : bool;
  ArgTypesBuffer : list QualType;
  ExtParameterInfosBuffer : list ExtParameterInfo
}.
#[global] Instance CIRGenFunctionInfo_eq_dec : EqDecision CIRGenFunctionInfo.
Proof. solve_decision. Defined.

(** CIRGenFunctionInfo::create. *)
Definition create (cirCC : cir_CallingConv) (instanceMethod chainCall : bool)
    (info : ExtInfo) (paramInfos : list ExtParameterInfo)
    (resultType : QualType) (argTypes : list QualType)
    (required : RequiredArgs) : Outcome CIRGenFunctionInfo :=
  _ ← assert_ (bool_decide (paramInfos = []) ||
               bool_decide (length paramInfos = length argTypes))
              "paramInfos.empty() || paramInfos.size() == argTypes.size()";
  _ ← assert_ (negb (allowsOptionalArgs required) ||
               bool_decide (RequiredArgs_getNumRequiredArgs required ≤ length argTypes))
              "!required.allowsOptionalArgs() || required.getNumRequiredArgs() <= argTypes.size()";
  mret {|
    CallingConvention := cirCC;
    EffectiveCallingConvention := cirCC;
    ASTCallingConvention := getCC info;
    InstanceMethod := instanceMethod;
    ChainCall := chainCall;
    CmseNSCall := getCmseNSCall info;
    NoReturn := getNoReturn info;
    ReturnsRetained := getProducesResult info;
    NoCallerSavedRegs := getNoCallerSavedRegs info;
    NoCfCheck := getNoCfCheck info;
    Required := required;
    HasRegParm := getHasRegParm info;
    RegParm := getRegParm info;
    ArgRecord := None;
    ArgRecordAlign := 0%N;
    NumArgs := length argTypes;
    HasExtParameterInfos := negb (bool_decide (paramInfos = []));
    ArgTypesBuffer := resultType :: argTypes;
    ExtParameterInfosBuffer := paramInfos
  |}.

(** Accessors of CIRGenFunctionInfo.h. *)
Definition getReturnType (FI : CIRGenFunctionInfo) : QualType :=
  default VoidTy (ArgTypesBuffer FI !! 0).
Definition arguments (FI : CIRGenFunctionInfo) : list QualType :=
  take (NumArgs FI) (drop 1 (ArgTypesBuffer FI)).
(* [arg_begin()]: the iterator into the buffer, behind the return type;
   [arg_end()] is [NumArgs] further. *)
Definition arg_begin (FI : CIRGenFunctionInfo) : list QualType :=
  drop 1 (ArgTypesBuffer FI).
Definition arg_size (FI : CIRGenFunctionInfo) : nat := NumArgs FI.
Definition isVariadic (FI : CIRGenFunctionInfo) : bool :=
  allowsOptionalArgs (Required FI).
Definition getNumRequiredArgs (FI : CIRGenFunctionInfo) : nat :=
  if isVariadic FI then RequiredArgs_getNumRequiredArgs (Required FI)
  else arg_size FI.
Definition requiredArguments (FI : CIRGenFunctionInfo) : list QualType :=
  take (getNumRequiredArgs FI) (drop 1 (ArgTypesBuffer FI)).
Definition FI_getExtParameterInfos (FI : CIRGenFunctionInfo) : list ExtParameterInfo :=
  if HasExtParameterInfos FI then take (NumArgs FI) (ExtParameterInfosBuffer FI)
  else [].

(* ================================================================== *)
(** ** Machine (CIR) types and values                                  *)
(* ================================================================== *)

(** mlir::Type as the dialect uses it.  [NullType] is the null handle
    [mlir::Type()], which the type converter may return. *)
#[warnings="-register-all"]
Inductive mlirType :=
| NullType
| VoidType
| BoolType
| IntType (width : N) (isSigned : bool)
| SingleType
| DoubleType
| PointerType (pointee : mlirType)
| RecordType (name : string) (members : list mlirType)
| FuncType (inputs : list mlirType) (returnType : mlirType) (varArg : bool).

#[global] Instance mlirType_eq_dec : EqDecision mlirType.
Proof.
  unfold EqDecision, Decision. fix IH 1.
  intros a b. decide equality; solve_decision.
Defined.

Definition isa_RecordType (T : mlirType) : bool :=
  match T with RecordType _ _ => true | _ => false end.
Definition isa_IntType (T : mlirType) : bool :=
  match T with IntType _ _ => true | _ => false end.
Definition isa_VoidType (T : mlirType) : bool :=
  match T with VoidType => true | _ => false end.
Definition isNull (T : mlirType) : bool :=
  match T with NullType => true | _ => false end.

(** cir::FuncType accessors. *)
Definition getInputs (T : mlirType) : list mlirType :=
  match T with FuncType ins _ _ => ins | _ => [] end.
Definition getNumInputs (T : mlirType) : nat := length (getInputs T).
Definition getInput (T : mlirType) (i : nat) : option mlirType := getInputs T !! i.
Definition isVarArg (T : mlirType) : bool :=
  match T with FuncType _ _ v => v | _ => false end.
Definition FuncType_getReturnType (T : mlirType) : mlirType :=
  match T with FuncType _ r _ => r | _ => NullType end.

(** Bit width of the scalar types ([cir::IntType::getWidth] and the
    floating-point formats); [None] for everything that has no fixed
    scalar width here. *)
Definition scalarWidth (T : mlirType) : option N :=
  match T with
  | IntType w _ => Some w
  | BoolType => Some 8%N
  | SingleType => Some 32%N
  | DoubleType => Some 64%N
  | _ => None
  end.

(** Two scalar machine types of the same width: two pointers, or two
    types of equal scalar width. *)
Definition sameWidth (T U : mlirType) : bool :=
  match T, U with
  | PointerType _, PointerType _ => true
  | _, _ =>
      match scalarWidth T, scalarWidth U with
      | Some w, Some w' => bool_decide (w = w')
      | _, _ => false
      end
  end.

Abbreviation OpId := nat.
Abbreviation BlockId := nat.
Abbreviation RegionId := nat.

(** Where an SSA value comes from: the result of an operation or a block
    argument. *)
Inductive ValueDef :=
| DefinedBy (op : OpId)
| BlockArgument (block : BlockId).
#[global] Instance ValueDef_eq_dec : EqDecision ValueDef.
Proof. solve_decision. Defined.

(** mlir::Value. *)
Record Value := {
  val_id : nat;
  val_type : mlirType;
  val_def : ValueDef
}.
#[global] Instance Value_eq_dec : EqDecision Value.
Proof. solve_decision. Defined.

(** Address: a pointer value with the type of what it points to.
    [Address::invalid()] is [None : option Address]. *)
Record Address := {
  getPointer : Value;
  getElementType : mlirType;
  getAlignment : N
}.
#[global] Instance Address_eq_dec : EqDecision Address.
Proof. solve_decision. Defined.

Record LValue := {
  lv_Address : Address;
  lv_isVolatile : bool
}.
#[global] Instance LValue_eq_dec : EqDecision LValue.
Proof. solve_decision. Defined.

(** RValue: a scalar, the address of an aggregate, or the null scalar that
    [GetUndefRValue] hands back for a call without result. *)
Inductive RValue :=
| RValue_get (V : Value)
| RValue_getAggregate (addr : Address)
| RValue_undef.
#[global] Instance RValue_eq_dec : EqDecision RValue.
Proof. solve_decision. Defined.

Definition RValue_isAggregate (rv : RValue) : bool :=
  match rv with RValue_getAggregate _ => true | _ => false end.

(** Modelled from the spec: [CallArg] of CIRGenCall.h, which is not part
    of this unit: "each slot is either a simple value, or a value bound to
    an addressable memory location". *)
Inductive CallArgValue :=
| HasRV (RV : RValue)
| HasLV (LV : LValue).

Record CallArg := {
  ca_value : CallArgValue;
  Ty : QualType
}.

Definition hasLValue (arg : CallArg) : bool :=
  match ca_value arg with HasLV _ => true | HasRV _ => false end.
Definition isAggregate (arg : CallArg) : bool :=
  match ca_value arg with HasLV _ => true | HasRV rv => RValue_isAggregate rv end.
Definition getKnownRValue (arg : CallArg) : Outcome RValue :=
  match ca_value arg with
  | HasRV rv => Done rv
  | HasLV _ => Faulted (AssertionFailure "!HasLV")
  end.
Definition getKnownLValue (arg : CallArg) : Outcome LValue :=
  match ca_value arg with
  | HasLV lv => Done lv
  | HasRV _ => Faulted (AssertionFailure "HasLV && !IsUsed")
  end.
Definition getScalarVal (rv : RValue) : Outcome Value :=
  match rv with
  | RValue_get V => Done V
  | _ => Faulted (AssertionFailure "isScalar() && Not a scalar!")
  end.
Definition getAggregateAddress (rv : RValue) : Outcome Address :=
  match rv with
  | RValue_getAggregate a => Done a
  | _ => Faulted (AssertionFailure "isAggregate() && Not an aggregate!")
  end.

Definition CallArgList := list CallArg.

(* ================================================================== *)
(** ** Declarations                                                    *)
(* ================================================================== *)

(** The declaration attributes this unit queries with [hasAttr<>]. *)
Inductive AttrKind :=
| NoThrowAttr | NoMergeAttr | ConstAttr | PureAttr | NoAliasAttr
| OptimizeNoneAttr | AllocSizeAttr | OpenCLKernelAttr | CUDAGlobalAttr
| ArmLocallyStreamingAttr | AlwaysInlineAttr | TargetAttr
| NotTailCalledAttr | ErrorAttr | StrictFPAttr | CFGuardAttr
| NoBuiltinAttr.
#[global] Instance AttrKind_eq_dec : EqDecision AttrKind.
Proof. solve_decision. Defined.

Inductive OverloadedOperatorKind := OO_None | OO_New | OO_Array_New | OO_Other.
#[global] Instance OverloadedOperatorKind_eq_dec : EqDecision OverloadedOperatorKind.
Proof. solve_decision. Defined.

Inductive CXXCtorType :=
| Ctor_Complete | Ctor_Base | Ctor_Comdat | Ctor_CopyingClosure | Ctor_DefaultClosure.
#[global] Instance CXXCtorType_eq_dec : EqDecision CXXCtorType.
Proof. solve_decision. Defined.

(** What every FunctionDecl carries. *)
Record FunctionDeclData := {
  fd_type : QualType;
  fd_isNoReturn : bool;
  fd_isReplaceableGlobalAllocationFunction : bool;
  fd_OverloadedOperator : OverloadedOperatorKind
}.

(** What a CXXMethodDecl adds: the parent record ([None] is a null
    CXXRecordDecl), virtual, instance, and the address space of the method
    qualifiers. *)
Record CXXMethodData := {
  md_Parent : option string;
  md_isVirtual : bool;
  md_isInstance : bool;
  md_AddressSpace : N
}.

(** InheritedConstructor: [getShadowDecl()->constructsVirtualBase()]. *)
Record InheritedConstructor := {
  constructsVirtualBase : bool
}.

(** The closed hierarchy of declarations that [dyn_cast] distinguishes. *)
Inductive DeclKind :=
| VarDecl
| FunctionDecl (fd : FunctionDeclData)
| CXXMethodDecl (fd : FunctionDeclData) (md : CXXMethodData)
| CXXConstructorDecl (fd : FunctionDeclData) (md : CXXMethodData)
                     (inherited : option InheritedConstructor)
| CXXDestructorDecl (fd : FunctionDeclData) (md : CXXMethodData)
| OtherDecl.

Record Decl := {
  decl_attrs : list AttrKind;
  decl_kind : DeclKind
}.

Definition hasAttr (D : Decl) (a : AttrKind) : bool := bool_decide (a ∈ decl_attrs D).

Definition dyn_cast_FunctionDecl (D : Decl) : option FunctionDeclData :=
  match decl_kind D with
  | FunctionDecl fd | CXXMethodDecl fd _ | CXXConstructorDecl fd _ _
  | CXXDestructorDecl fd _ => Some fd
  | _ => None
  end.

Definition dyn_cast_CXXMethodDecl (D : Decl) : option CXXMethodData :=
  match decl_kind D with
  | CXXMethodDecl _ md | CXXConstructorDecl _ md _ | CXXDestructorDecl _ md => Some md
  | _ => None
  end.

Definition isa_VarDecl (D : Decl) : bool :=
  match decl_kind D with VarDecl => true | _ => false end.
Definition isa_CXXConstructorDecl (D : Decl) : bool :=
  match decl_kind D with CXXConstructorDecl _ _ _ => true | _ => false end.
Definition isa_CXXDestructorDecl (D : Decl) : bool :=
  match decl_kind D with CXXDestructorDecl _ _ => true | _ => false end.

(** [CD->getInheritedConstructor()], null for everything else. *)
Definition getInheritedConstructor (D : Decl) : option InheritedConstructor :=
  match decl_kind D with
  | CXXConstructorDecl _ _ inh => inh
  | _ => None
  end.

(** GlobalDecl: a declaration together with the structor variant. *)
Record GlobalDecl := {
  getDecl : option Decl;
  getCtorType : CXXCtorType
}.

(* ================================================================== *)
(** ** Collaborators of the signature arranger                         *)
(* ================================================================== *)

Record ASTContext := {
  getCanonicalParamType : QualType → QualType;
  getSizeType : QualType
}.

Definition VoidPtrTy : QualType := PointerTy VoidTy 0.

Record AddedStructorArgCounts := {
  Prefix : nat;
  Suffix : nat
}.

(** The ABI policy object (CIRGenCXXABI) and the target's C++ ABI kind. *)
Record CIRGenCXXABI := {
  buildStructorSignature :
    GlobalDecl → list QualType → AddedStructorArgCounts * list QualType;
  HasThisReturn : GlobalDecl → bool;
  hasMostDerivedReturn : GlobalDecl → bool;
  getThisArgumentTypeForMethod : CXXMethodData → option string
}.

Record TargetCXXABI := {
  hasConstructorVariants : bool;
  isMicrosoft : bool;
  areArgsDestroyedLeftToRightInCallee : bool
}.

(** The immutable members of class CIRGenTypes. *)
Record CIRGenTypes := {
  astContext : ASTContext;
  Target : TargetCXXABI;
  TheCXXABI : CIRGenCXXABI;
  ClangCallConvToCIRCallConv : CallingConv → cir_CallingConv;
  setCUDAKernelCallingConvention_target : QualType → QualType
}.

(* ================================================================== *)
(** ** Signature arranger                                              *)
(* ================================================================== *)

(** Modelled from the spec: [CIRGenTypes::arrangeCIRFunctionInfo] of
    CIRGenTypes.cpp, which is not part of this unit: the descriptor is
    "constructed once via a single factory" from the calling convention,
    the instance-method and chain-call flags, the return type, the argument
    types, the extended infos and the required-argument marker.  Structural
    deduplication is left out: equal inputs give equal descriptors. *)
Definition CIRGenTypes_arrangeCIRFunctionInfo (CGT : CIRGenTypes)
    (resultType : QualType) (opts : FnInfoOpts) (argTypes : list QualType)
    (info : ExtInfo) (paramInfos : list ExtParameterInfo)
    (required : RequiredArgs) : Outcome CIRGenFunctionInfo :=
  let instanceMethod := bool_decide (opts = IsInstanceMethod) in
  let chainCall := bool_decide (opts = IsChainCall) in
  create (ClangCallConvToCIRCallConv CGT (getCC info)) instanceMethod chainCall
         info paramInfos resultType argTypes required.

(** [SmallVector::resize(n)] with default-constructed new elements. *)
Definition resize {A} (n : nat) (d : A) (l : list A) : list A :=
  take n l ++ replicate (n - length l) d.

(** GetFormalType: the canonical formal type of a C++ method. *)
Definition GetFormalType (fd : FunctionDeclData) : Outcome FunctionProtoType :=
  match getAs_FunctionProtoType (fd_type fd) with
  | Some FPT => Done FPT
  | None => Faulted (AssertionFailure "getAs<FunctionProtoType>() is null")
  end.

(** addExtParameterInfosForCall. *)
Definition addExtParameterInfosForCall (paramInfos : list ExtParameterInfo)
    (proto : FunctionProtoType) (prefixArgs totalArgs : nat)
  : Outcome (list ExtParameterInfo) :=
  _ ← assert_ (hasExtParameterInfos proto) "proto->hasExtParameterInfos()";
  _ ← assert_ (bool_decide (length paramInfos ≤ prefixArgs))
              "paramInfos.size() <= prefixArgs";
  _ ← assert_ (bool_decide (getNumParams proto + prefixArgs ≤ totalArgs))
              "proto->getNumParams() + prefixArgs <= totalArgs";
  (* Add default infos for any prefix args that don't already have infos. *)
  let paramInfos := resize prefixArgs ExtParameterInfo_default paramInfos in
  (* Add infos for the prototype. *)
  let paramInfos :=
    foldl (λ acc ParamInfo,
             if hasPassObjectSize ParamInfo
             then acc ++ [ParamInfo; ExtParameterInfo_default]
             else acc ++ [ParamInfo])
          paramInfos (getExtParameterInfos proto) in
  _ ← assert_ (bool_decide (length paramInfos ≤ totalArgs))
              "Did we forget to insert pass_object_size args?";
  (* Add default infos for the variadic and/or suffix arguments. *)
  mret (resize totalArgs ExtParameterInfo_default paramInfos).

(** appendParameterTypes: adds the formal parameters of [FPT] to the
    prefix, with a size-typed parameter after each pass_object_size one. *)
Definition appendParameterTypes (CGT : CIRGenTypes) (prefix : list QualType)
    (paramInfos : list ExtParameterInfo) (FPT : FunctionProtoType)
  : Outcome (list QualType * list ExtParameterInfo) :=
  if negb (hasExtParameterInfos FPT) then
    _ ← assert_ (bool_decide (paramInfos = []))
                "We have paramInfos, but the prototype doesn't?";
    mret (prefix ++ fpt_ParamTypes FPT, paramInfos)
  else
    let PrefixSize := length prefix in
    let ExtInfos := getExtParameterInfos FPT in
    _ ← assert_ (bool_decide (length ExtInfos = getNumParams FPT))
                "ExtInfos.size() == FPT->getNumParams()";
    let prefix :=
      foldl (λ acc TE,
               if hasPassObjectSize TE.2
               then acc ++ [TE.1; getSizeType (astContext CGT)]
               else acc ++ [TE.1])
            prefix (zip (fpt_ParamTypes FPT) ExtInfos) in
    paramInfos ← addExtParameterInfosForCall paramInfos FPT PrefixSize (length prefix);
    mret (prefix, paramInfos).

(** DeriveThisType: the type of `this`, ignoring the method's CVR
    qualification but keeping its address space. *)
Definition DeriveThisType (RD : option string) (MD : option CXXMethodData)
  : Outcome QualType :=
  match RD with
  | None => Faulted (AssertionFailure "CXXMethodDecl NYI")
  | Some name =>
      let AS := match MD with Some md => md_AddressSpace md | None => 0%N end in
      Done (PointerTy (RecordTy name) AS)
  end.

(** The file-static arrangeCIRFunctionInfo: the layout for a value of the
    given function type, on top of the implicit parameters in [prefix]. *)
Definition arrangeCIRFunctionInfo (CGT : CIRGenTypes) (instanceMethod : FnInfoOpts)
    (prefix : list QualType) (FTP : FunctionProtoType)
  : Outcome CIRGenFunctionInfo :=
  let paramInfos := [] in
  let Required := forPrototypePlus FTP (length prefix) in
  '(prefix, paramInfos) ← appendParameterTypes CGT prefix paramInfos FTP;
  let resultType := fpt_ReturnType FTP in
  CIRGenTypes_arrangeCIRFunctionInfo CGT resultType instanceMethod prefix
    (getExtInfo FTP) paramInfos Required.

(** arrangeFreeFunctionType(CanQual<FunctionProtoType>). *)
Definition arrangeFreeFunctionType (CGT : CIRGenTypes) (FTP : FunctionProtoType)
  : Outcome CIRGenFunctionInfo :=
  let argTypes := [] in
  arrangeCIRFunctionInfo CGT FnInfoOpts_None argTypes FTP.

(** arrangeFreeFunctionType(CanQual<FunctionNoProtoType>): "When
    translating an unprototyped function type, always use a variadic
    type." *)
Definition arrangeFreeFunctionType_NoProto (CGT : CIRGenTypes)
    (FTNP : FunctionNoProtoType) : Outcome CIRGenFunctionInfo :=
  CIRGenTypes_arrangeCIRFunctionInfo CGT (fnpt_ReturnType FTNP) FnInfoOpts_None
    [] (fnpt_ExtInfo FTNP) [] (RequiredArgs_N 0).

(** arrangeBuiltinFunctionCall. *)
Definition arrangeBuiltinFunctionCall (CGT : CIRGenTypes) (resultType : QualType)
    (args : CallArgList) : Outcome CIRGenFunctionInfo :=
  let argTypes := map (λ Arg, getCanonicalParamType (astContext CGT) (Ty Arg)) args in
  llvm_unreachable "NYI".


(** inheritingCtorHasParams: "Parameters are unnecessary if we're
    constructing a base class subobject and the inherited constructor lives
    in a virtual base." *)
Definition inheritingCtorHasParams (CGT : CIRGenTypes)
    (Inherited : InheritedConstructor) (Type_ : CXXCtorType) : bool :=
  bool_decide (Type_ = Ctor_Complete) ||
  negb (constructsVirtualBase Inherited) ||
  negb (hasConstructorVariants (Target CGT)).

(** arrangeCXXStructorDeclaration. *)
Definition arrangeCXXStructorDeclaration (CGT : CIRGenTypes) (GD : GlobalDecl)
  : Outcome CIRGenFunctionInfo :=
  match getDecl GD with
  | None => Faulted (AssertionFailure "cast<CXXMethodDecl>() on a null declaration")
  | Some D =>
    match dyn_cast_FunctionDecl D, dyn_cast_CXXMethodDecl D with
    | Some fd, Some MD =>
      this ← DeriveThisType (md_Parent MD) (Some MD);
      let argTypes := [this] in
      let paramInfos := [] in
      let PassParams :=
        match getInheritedConstructor D with
        | Some Inherited => inheritingCtorHasParams CGT Inherited (getCtorType GD)
        | None => true
        end in
      FTP ← GetFormalType fd;
      '(argTypes, paramInfos) ←
        (if PassParams then appendParameterTypes CGT argTypes paramInfos FTP
         else mret (argTypes, paramInfos));
      let '(AddedArgs, argTypes) :=
        buildStructorSignature (TheCXXABI CGT) GD argTypes in
      (* With extended infos the source adds default infos for the
         arguments of the ABI and then stops at assert(false). *)
      paramInfos ←
        (if bool_decide (paramInfos = []) then mret paramInfos
         else Faulted (AssertionFailure "Please sent PR with a test and remove this"));
      let required :=
        if PassParams && isVariadic_proto FTP
        then RequiredArgs_N (length argTypes) else RequiredArgs_All in
      let extInfo := getExtInfo FTP in
      let resultType :=
        if HasThisReturn (TheCXXABI CGT) GD then default VoidTy (head argTypes)
        else if hasMostDerivedReturn (TheCXXABI CGT) GD then VoidPtrTy
        else VoidTy in
      _ ← assert_ (negb (HasThisReturn (TheCXXABI CGT) GD))
                  "Please sent PR with a test and remove this";
      CIRGenTypes_arrangeCIRFunctionInfo CGT resultType IsInstanceMethod argTypes
        extInfo paramInfos required
    | _, _ => Faulted (AssertionFailure "cast<CXXMethodDecl>() argument of incompatible type")
    end
  end.

(** GetReturnType: the return type without qualifiers (types are canonical
    and unqualified here). *)
Definition GetReturnType (RetTy : QualType) : QualType := RetTy.

(** arrangeFreeFunctionLikeCall. *)
Definition arrangeFreeFunctionLikeCall (CGT : CIRGenTypes) (args : CallArgList)
    (fnType : QualType) (numExtraRequiredArgs : nat) (chainCall : FnInfoOpts)
  : Outcome CIRGenFunctionInfo :=
  _ ← assert_ (bool_decide (numExtraRequiredArgs ≤ length args))
              "args.size() >= numExtraRequiredArgs";
  _ ← assert_ (negb (bool_decide (chainCall = IsChainCall))) "Chain call NYI";
  let paramInfos := [] in
  (* In most cases, there are no optional arguments. *)
  let required := RequiredArgs_All in
  '(required, paramInfos) ←
    match getAs_FunctionProtoType fnType with
    | Some proto =>
        let required :=
          if isVariadic_proto proto
          then forPrototypePlus proto numExtraRequiredArgs else required in
        if hasExtParameterInfos proto then
          paramInfos ← addExtParameterInfosForCall paramInfos proto
                         numExtraRequiredArgs (length args);
          mret (required, paramInfos)
        else mret (required, paramInfos)
    | None =>
        match getAs_FunctionNoProtoType fnType with
        | Some _ => mret (RequiredArgs_N (length args), paramInfos)
        | None => mret (required, paramInfos)
        end
    end;
  let argTypes := map (λ arg, getCanonicalParamType (astContext CGT) (Ty arg)) args in
  match FunctionType_getExtInfo fnType with
  | Some extInfo =>
      CIRGenTypes_arrangeCIRFunctionInfo CGT
        (GetReturnType (FunctionType_getReturnType fnType)) chainCall argTypes
        extInfo paramInfos required
  | None => Faulted (AssertionFailure "fnType is not a function type")
  end.

Definition getArgTypesForCall (astContext : ASTContext) (args : CallArgList)
  : list QualType :=
  map (λ arg, getCanonicalParamType astContext (Ty arg)) args.



(** arrangeFreeFunctionCall. *)
Definition arrangeFreeFunctionCall (CGT : CIRGenTypes) (args : CallArgList)
    (fnType : QualType) (ChainCall : bool) : Outcome CIRGenFunctionInfo :=
  _ ← assert_ (negb ChainCall) "ChainCall NYI";
  arrangeFreeFunctionLikeCall CGT args fnType (if ChainCall then 1 else 0)
    (if ChainCall then IsChainCall else FnInfoOpts_None).

(** setCUDAKernelCallingConvention: rewrite the convention on the type of a
    device-offload global function. *)
Definition setCUDAKernelCallingConvention (CGT : CIRGenTypes) (FTy : QualType)
    (FD : Decl) : QualType :=
  if hasAttr FD CUDAGlobalAttr then setCUDAKernelCallingConvention_target CGT FTy
  else FTy.

(** arrangeCXXMethodType. *)
Definition arrangeCXXMethodType (CGT : CIRGenTypes) (RD : option string)
    (FTP : FunctionProtoType) (MD : option CXXMethodData)
  : Outcome CIRGenFunctionInfo :=
  (* Add the 'this' pointer. *)
  this ← DeriveThisType RD MD;
  let argTypes := [this] in
  arrangeCIRFunctionInfo CGT IsChainCall argTypes FTP.

(** arrangeCXXMethodDeclaration. *)
Definition arrangeCXXMethodDeclaration (CGT : CIRGenTypes) (D : Decl)
  : Outcome CIRGenFunctionInfo :=
  match dyn_cast_FunctionDecl D, dyn_cast_CXXMethodDecl D with
  | Some fd, Some MD =>
    _ ← assert_ (negb (isa_CXXConstructorDecl D)) "wrong method for constructors!";
    _ ← assert_ (negb (isa_CXXDestructorDecl D)) "wrong method for destructors!";
    let FT := setCUDAKernelCallingConvention CGT (fd_type fd) D in
    match getAs_FunctionProtoType FT with
    | None => Faulted (AssertionFailure "getAs<FunctionProtoType>() is null")
    | Some prototype =>
      if md_isInstance MD then
        (* The abstract case is perfectly fine. *)
        let ThisType := getThisArgumentTypeForMethod (TheCXXABI CGT) MD in
        arrangeCXXMethodType CGT ThisType prototype (Some MD)
      else arrangeFreeFunctionType CGT prototype
    end
  | _, _ => Faulted (AssertionFailure "not a CXXMethodDecl")
  end.

(** arrangeFunctionDeclaration: "When declaring a function without a
    prototype, always use a non-variadic type." *)
Definition arrangeFunctionDeclaration (CGT : CIRGenTypes) (FD : Decl)
  : Outcome CIRGenFunctionInfo :=
  match dyn_cast_FunctionDecl FD with
  | None => Faulted (AssertionFailure "not a FunctionDecl")
  | Some fd =>
    if match dyn_cast_CXXMethodDecl FD with
       | Some MD => md_isInstance MD
       | None => false
       end
    then arrangeCXXMethodDeclaration CGT FD
    else
      let FTy := fd_type fd in
      _ ← assert_ (isa_FunctionType FTy) "isa<FunctionType>(FTy)";
      match getAs_FunctionNoProtoType FTy with
      | Some noProto =>
          CIRGenTypes_arrangeCIRFunctionInfo CGT (fnpt_ReturnType noProto)
            FnInfoOpts_None [] (fnpt_ExtInfo noProto) [] RequiredArgs_All
      | None =>
          match getAs_FunctionProtoType FTy with
          | Some FPT => arrangeFreeFunctionType CGT FPT
          | None => Faulted (AssertionFailure "castAs<FunctionProtoType>()")
          end
      end
  end.

(** arrangeGlobalDeclaration is defined in CIRGenTypes.cpp.
    Modelled from the spec: constructors and destructors go to the structor
    arranger, every other function to the declaration arranger. *)
Definition arrangeGlobalDeclaration (CGT : CIRGenTypes) (GD : GlobalDecl)
  : Outcome CIRGenFunctionInfo :=
  match getDecl GD with
  | None => Faulted (AssertionFailure "null declaration")
  | Some D =>
      if isa_CXXConstructorDecl D || isa_CXXDestructorDecl D
      then arrangeCXXStructorDeclaration CGT GD
      else arrangeFunctionDeclaration CGT D
  end.

(* ================================================================== *)
(** ** Machine function types and the re-entrancy guard                *)
(* ================================================================== *)

(** The mutable members of class CIRGenTypes that this unit touches:
    [FunctionsBeingProcessed], the set of descriptors whose machine type is
    under construction.  Descriptors are uniqued by the signature cache,
    so the pointer set is a set of descriptors. *)
Record CIRGenTypesState := {
  FunctionsBeingProcessed : list CIRGenFunctionInfo
}.

(** [FunctionsBeingProcessed.insert(&FI).second]. *)
Definition FunctionsBeingProcessed_insert (FI : CIRGenFunctionInfo)
  : Emit CIRGenTypesState bool :=
  λ st, if decide (FI ∈ FunctionsBeingProcessed st) then Done (false, st)
        else Done (true, {| FunctionsBeingProcessed := FI :: FunctionsBeingProcessed st |}).

(** [FunctionsBeingProcessed.erase(&FI)]. *)
Definition FunctionsBeingProcessed_erase (FI : CIRGenFunctionInfo)
  : Emit CIRGenTypesState bool :=
  λ st, Done (bool_decide (FI ∈ FunctionsBeingProcessed st),
              {| FunctionsBeingProcessed :=
                   filter (λ x, x ≠ FI) (FunctionsBeingProcessed st) |}).

(** CIRGenTypes::GetFunctionType(const CIRGenFunctionInfo &).  The type
    converter is a parameter; it runs in the same lowering context and may
    come back to [GetFunctionType]. *)
Definition GetFunctionType
    (convertType : QualType → Emit CIRGenTypesState mlirType)
    (FI : CIRGenFunctionInfo) : Emit CIRGenTypesState mlirType :=
  Inserted ← FunctionsBeingProcessed_insert FI;
  _ ← lift (assert_ Inserted "Recursively being processed?");
  resultType ← convertType (getReturnType FI);
  (* Add in all of the required arguments. *)
  ArgTypes ← mapE convertType (requiredArguments FI);
  Erased ← FunctionsBeingProcessed_erase FI;
  _ ← lift (assert_ Erased "Not in set?");
  mret (FuncType ArgTypes
                 (if isNull resultType then VoidType else resultType)
                 (isVariadic FI)).

(** CIRGenTypes::GetFunctionType(GlobalDecl). *)
Definition GetFunctionType_GlobalDecl (CGT : CIRGenTypes)
    (convertType : QualType → Emit CIRGenTypesState mlirType)
    (GD : GlobalDecl) : Emit CIRGenTypesState mlirType :=
  FI ← lift (arrangeGlobalDeclaration CGT GD);
  GetFunctionType convertType FI.

(** Modelled from the spec: the type-conversion oracle
    [convert(sourceType) -> machineType] of CIRGenTypes.cpp, which is not
    part of this unit, for the types of this model.  A function type is
    lowered through its arranged descriptor, so that "computing the machine
    representation of a function signature may recursively need the machine
    representation of another signature"; a record is lowered member by
    member ([recordFields] gives the member types of a record).  The
    recursion of the C++ code is bounded by [fuel]. *)
Fixpoint convertTypeModel (CGT : CIRGenTypes) (recordFields : string → list QualType)
    (fuel : nat) (T : QualType) : Emit CIRGenTypesState mlirType :=
  match fuel with
  | 0 => λ _, Faulted FuelExhausted
  | S fuel =>
    let conv := convertTypeModel CGT recordFields fuel in
    match T with
    | VoidTy => mret VoidType
    | BoolTy => mret BoolType
    | IntTy w s => mret (IntType w s)
    | FloatTy => mret SingleType
    | DoubleTy => mret DoubleType
    | PointerTy p _ => t ← conv p; mret (PointerType t)
    | RecordTy n => ms ← mapE conv (recordFields n); mret (RecordType n ms)
    | FunctionNoProtoTy r e =>
        FI ← lift (arrangeFreeFunctionType_NoProto CGT
                     {| fnpt_ReturnType := r; fnpt_ExtInfo := e |});
        GetFunctionType conv FI
    | FunctionProtoTy r ps i =>
        FI ← lift (arrangeFreeFunctionType CGT
                     {| fpt_ReturnType := r; fpt_ParamTypes := ps; fpt_info := i |});
        GetFunctionType conv FI
    end
  end.

(* ================================================================== *)
(** ** Attribute synthesizer                                           *)
(* ================================================================== *)

(** The dialect attributes this unit attaches. *)
Inductive Attribute :=
| cir_NoThrowAttr
| cir_ConvergentAttr
| cir_OpenCLKernelAttr
| cir_OpenCLKernelUniformWorkGroupSizeAttr
| cir_CUDAKernelNameAttr (kernelName : string).
#[global] Instance Attribute_eq_dec : EqDecision Attribute.
Proof. solve_decision. Defined.

(** [getMnemonic()]: the name under which an attribute is stored.  The
    mnemonics are declared with the dialect; [nothrow] is the one the
    optnone test prints ([nothrow = #cir.nothrow]). *)
Definition getMnemonic (a : Attribute) : string :=
  match a with
  | cir_NoThrowAttr => "nothrow"
  | cir_ConvergentAttr => "convergent"
  | cir_OpenCLKernelAttr => "cl.kernel"
  | cir_OpenCLKernelUniformWorkGroupSizeAttr => "cl.uniform_work_group_size"
  | cir_CUDAKernelNameAttr _ => "cu.kernel_name"
  end.

(** mlir::NamedAttrList, a dictionary from names to attributes. *)
Abbreviation NamedAttrList := (gmap string Attribute).

(** [funcAttrs.set(a.getMnemonic(), a)]. *)
Definition NamedAttrList_set (a : Attribute) (attrs : NamedAttrList) : NamedAttrList :=
  <[getMnemonic a := a]> attrs.

(** [attrs.getNamed(name).has_value()]. *)
Definition getNamed_has_value (attrs : NamedAttrList) (name : string) : bool :=
  bool_decide (is_Some (attrs !! name)).

(** cir::SideEffect. *)
Inductive SideEffect := SideEffect_All | SideEffect_Pure | SideEffect_Const.
#[global] Instance SideEffect_eq_dec : EqDecision SideEffect.
Proof. solve_decision. Defined.

Record LangOptions := {
  OpenCL : bool;
  OpenCLVersion : nat;
  OffloadUniformBlock : bool;
  CUDA : bool;
  CUDAIsDevice : bool;
  HIP : bool;
  SYCLIsDevice : bool;
  assumeFunctionsAreConvergent : bool;
  ObjCAutoRefCount : bool
}.

Record CodeGenOptions := {
  AssumeSaneOperatorNew : bool
}.

(** The members of CIRGenModule that attribute synthesis reads. *)
Record CIRGenModule := {
  getLangOpts : LangOptions;
  getCodeGenOpts : CodeGenOptions;
  getMangledName : GlobalDecl → string
}.

(** CIRGenCalleeInfo. *)
Record CIRGenCalleeInfo := {
  getCalleeFunctionProtoType : option FunctionProtoType;
  getCalleeDecl : GlobalDecl
}.

(** [cir::MissingFeatures::CUDA()]: the markers of missing features are
    constant false. *)
Definition MissingFeatures_CUDA : bool := false.

(** AddAttributesFromFunctionProtoType. *)
Definition AddAttributesFromFunctionProtoType (FuncAttrs : NamedAttrList)
    (FPT : option FunctionProtoType) : NamedAttrList :=
  match FPT with
  | None => FuncAttrs
  | Some FPT =>
      if negb (isUnresolvedExceptionSpec (getExceptionSpecType FPT)) && isNothrow FPT
      then NamedAttrList_set cir_NoThrowAttr FuncAttrs
      else FuncAttrs
  end.

(** The file-static getTrivialDefaultFunctionAttributes. *)
Definition getTrivialDefaultFunctionAttributes (name : string) (hasOptnone : bool)
    (codeGenOpts : CodeGenOptions) (langOpts : LangOptions) (attrOnCallSite : bool)
    (funcAttrs : NamedAttrList) : Outcome NamedAttrList :=
  let funcAttrs :=
    if assumeFunctionsAreConvergent langOpts
    then NamedAttrList_set cir_ConvergentAttr funcAttrs else funcAttrs in
  if SYCLIsDevice langOpts then llvm_unreachable "NYI"
  else if OpenCL langOpts ||
          ((CUDA langOpts || HIP langOpts) && CUDAIsDevice langOpts)
  then mret (NamedAttrList_set cir_NoThrowAttr funcAttrs)
  else mret funcAttrs.

(** CIRGenModule::getTrivialDefaultFunctionAttributes. *)
Definition CIRGenModule_getTrivialDefaultFunctionAttributes (CGM : CIRGenModule)
    (name : string) (hasOptnone attrOnCallSite : bool) (funcAttrs : NamedAttrList)
  : Outcome NamedAttrList :=
  getTrivialDefaultFunctionAttributes name hasOptnone (getCodeGenOpts CGM)
    (getLangOpts CGM) attrOnCallSite funcAttrs.

(** CIRGenModule::getDefaultFunctionAttributes. *)
Definition getDefaultFunctionAttributes (CGM : CIRGenModule) (name : string)
    (hasOptnone attrOnCallSite : bool) (funcAttrs : NamedAttrList)
  : Outcome NamedAttrList :=
  funcAttrs ← CIRGenModule_getTrivialDefaultFunctionAttributes CGM name hasOptnone
                attrOnCallSite funcAttrs;
  (* If we're just getting the default, get the default values for
     mergeable attributes: still a TODO in the source. *)
  if negb attrOnCallSite then mret funcAttrs else mret funcAttrs.

(** The declaration-specific part of constructAttributeList, the body of
    [if (TargetDecl) { ... }], block by block.  Statements of the source
    that are empty ([;]) stay as branches that change nothing. *)

(** [if (const FunctionDecl *Fn = dyn_cast<FunctionDecl>(TargetDecl))]. *)
Definition constructAttributeList_FunctionDecl (CGM : CIRGenModule) (TargetDecl : Decl)
    (funcAttrs : NamedAttrList) (AttrOnCallSite : bool) : NamedAttrList :=
  match dyn_cast_FunctionDecl TargetDecl with
  | Some Fn =>
      let funcAttrs :=
        AddAttributesFromFunctionProtoType funcAttrs
          (getAs_FunctionProtoType (fd_type Fn)) in
      let funcAttrs :=
        if AttrOnCallSite && fd_isReplaceableGlobalAllocationFunction Fn then
          (* A sane operator new returns a non-aliasing pointer. *)
          let Kind := fd_OverloadedOperator Fn in
          if AssumeSaneOperatorNew (getCodeGenOpts CGM) &&
             (bool_decide (Kind = OO_New) || bool_decide (Kind = OO_Array_New))
          then funcAttrs (* ; // llvm::Attribute::NoAlias *)
          else funcAttrs
        else funcAttrs in
      let IsVirtualCall :=
        match dyn_cast_CXXMethodDecl TargetDecl with
        | Some MD => md_isVirtual MD
        | None => false
        end in
      (* Don't use [[noreturn]], _Noreturn or [[no_builtin]] for a call to
         a virtual function. *)
      if negb (AttrOnCallSite && IsVirtualCall) then
        if fd_isNoReturn Fn
        then funcAttrs (* ; // NoReturn *)
        else funcAttrs
        (* NBA = Fn->getAttr<NoBuiltinAttr>() is commented out *)
      else funcAttrs
  | None => funcAttrs
  end.

(** [if (isa<FunctionDecl>(TargetDecl) || isa<VarDecl>(TargetDecl))]. *)
Definition constructAttributeList_NoMerge (TargetDecl : Decl)
    (funcAttrs : NamedAttrList) (AttrOnCallSite : bool) : NamedAttrList :=
  if bool_decide (is_Some (dyn_cast_FunctionDecl TargetDecl)) || isa_VarDecl TargetDecl
  then
    (* Only place nomerge attribute on call sites, never functions. *)
    if AttrOnCallSite && hasAttr TargetDecl NoMergeAttr
    then funcAttrs (* ; *)
    else funcAttrs
  else funcAttrs.

(** 'const', 'pure' and 'noalias' attributed functions. *)
Definition constructAttributeList_sideEffect (TargetDecl : Decl)
    (sideEffect : SideEffect) : SideEffect :=
  if hasAttr TargetDecl ConstAttr then SideEffect_Const
  else if hasAttr TargetDecl PureAttr then SideEffect_Pure
  else if hasAttr TargetDecl NoAliasAttr then sideEffect
  else sideEffect.

(** [if (TargetDecl->hasAttr<OpenCLKernelAttr>())]. *)
Definition constructAttributeList_OpenCLKernel (CGM : CIRGenModule) (TargetDecl : Decl)
    (funcAttrs : NamedAttrList) : NamedAttrList :=
  if hasAttr TargetDecl OpenCLKernelAttr then
    let funcAttrs := NamedAttrList_set cir_OpenCLKernelAttr funcAttrs in
    if bool_decide (OpenCLVersion (getLangOpts CGM) ≤ 120) then
      (* OpenCL v1.2 Work groups are always uniform *)
      NamedAttrList_set cir_OpenCLKernelUniformWorkGroupSizeAttr funcAttrs
    else if OffloadUniformBlock (getLangOpts CGM) then
      NamedAttrList_set cir_OpenCLKernelUniformWorkGroupSizeAttr funcAttrs
    else funcAttrs
  else funcAttrs.

(** [if (langOpts.CUDA && !langOpts.CUDAIsDevice &&
         TargetDecl->hasAttr<CUDAGlobalAttr>())]. *)
Definition constructAttributeList_CUDAKernelName (CGM : CIRGenModule)
    (CalleeInfo : CIRGenCalleeInfo) (TargetDecl : Decl) (funcAttrs : NamedAttrList)
  : NamedAttrList :=
  if CUDA (getLangOpts CGM) && negb (CUDAIsDevice (getLangOpts CGM)) &&
     hasAttr TargetDecl CUDAGlobalAttr
  then
    let kernelName := getMangledName CGM (getCalleeDecl CalleeInfo) in
    NamedAttrList_set (cir_CUDAKernelNameAttr kernelName) funcAttrs
  else funcAttrs.

(** The whole of [if (TargetDecl) { ... }]: returns the attribute list, the
    side-effect class and [HasOptnone]. *)
Definition constructAttributeList_TargetDecl (CGM : CIRGenModule)
    (CalleeInfo : CIRGenCalleeInfo) (TargetDecl : Decl)
    (funcAttrs : NamedAttrList) (sideEffect : SideEffect) (AttrOnCallSite : bool)
  : Outcome (NamedAttrList * SideEffect * bool) :=
  let funcAttrs :=
    if hasAttr TargetDecl NoThrowAttr
    then NamedAttrList_set cir_NoThrowAttr funcAttrs else funcAttrs in
  let funcAttrs :=
    constructAttributeList_FunctionDecl CGM TargetDecl funcAttrs AttrOnCallSite in
  let funcAttrs := constructAttributeList_NoMerge TargetDecl funcAttrs AttrOnCallSite in
  let sideEffect := constructAttributeList_sideEffect TargetDecl sideEffect in
  let HasOptnone := hasAttr TargetDecl OptimizeNoneAttr in
  (* AllocSizeAttr: the element-count parameter is read, nothing is added *)
  let funcAttrs := constructAttributeList_OpenCLKernel CGM TargetDecl funcAttrs in
  _ ← (if hasAttr TargetDecl CUDAGlobalAttr && OffloadUniformBlock (getLangOpts CGM)
       then assert_ (negb MissingFeatures_CUDA) "!cir::MissingFeatures::CUDA()"
       else mret tt);
  let funcAttrs :=
    constructAttributeList_CUDAKernelName CGM CalleeInfo TargetDecl funcAttrs in
  let funcAttrs :=
    if hasAttr TargetDecl ArmLocallyStreamingAttr then funcAttrs (* ; *)
    else funcAttrs in
  mret (funcAttrs, sideEffect, HasOptnone).

(** CIRGenModule::constructAttributeList.  The three reference parameters
    [funcAttrs], [callingConv] and [sideEffect] are the result. *)
Definition constructAttributeList (CGM : CIRGenModule) (Name : string)
    (FI : CIRGenFunctionInfo) (CalleeInfo : CIRGenCalleeInfo)
    (funcAttrs : NamedAttrList) (AttrOnCallSite IsThunk : bool)
  : Outcome (NamedAttrList * cir_CallingConv * SideEffect) :=
  (* Collect function CIR attributes from the CC lowering. *)
  let callingConv := EffectiveCallingConvention FI in
  let sideEffect := SideEffect_All in
  (* Collect function CIR attributes from the callee prototype if we have one. *)
  let funcAttrs :=
    AddAttributesFromFunctionProtoType funcAttrs
      (getCalleeFunctionProtoType CalleeInfo) in
  let TargetDecl := getDecl (getCalleeDecl CalleeInfo) in
  let HasOptnone := false in
  '(funcAttrs, sideEffect, HasOptnone) ←
    match TargetDecl with
    | Some TargetDecl =>
        constructAttributeList_TargetDecl CGM CalleeInfo TargetDecl funcAttrs
          sideEffect AttrOnCallSite
    | None => mret (funcAttrs, sideEffect, HasOptnone)
    end;
  funcAttrs ← getDefaultFunctionAttributes CGM Name HasOptnone AttrOnCallSite funcAttrs;
  mret (funcAttrs, callingConv, sideEffect).

(* ================================================================== *)
(** ** The MLIR under construction and its builders                    *)
(* ================================================================== *)

Inductive CastKind := CastKind_bitcast.
#[global] Instance CastKind_eq_dec : EqDecision CastKind.
Proof. solve_decision. Defined.

(** The callee operand of a call: a symbol, or a function-pointer value
    with its function type. *)
Inductive CalleeOperand :=
| DirectCallee (symbol : string)
| IndirectCallee (fnPtr : Value) (fnTy : mlirType).

(** The operations this unit creates. *)
Inductive OpKind :=
| CastOp (kind : CastKind) (src : Value)
| LoadOp (addr : Value)
| StoreOp (value : Value) (addr : Value)
| CallOp (callee : CalleeOperand) (args : list Value) (exception : bool)
         (callingConv : cir_CallingConv) (sideEffect : SideEffect)
| TryOp (tryRegion : RegionId) (handlerRegions : list RegionId)
| YieldOp
| ResumeOp.

(** An operation: its kind and operands, its results, the block that holds
    it ([Operation::getBlock()], null when detached) and the attributes set
    after creation. *)
Record OperationData := {
  op_kind : OpKind;
  op_results : list Value;
  op_block : option BlockId;
  op_extra_attrs : option NamedAttrList;
  op_ast : option nat;
  op_synthetic : bool
}.

Record BlockData := {
  blk_parent : option RegionId;
  blk_ops : list OpId
}.

Record RegionData := {
  reg_blocks : list BlockId
}.

(** A local variable slot created by [CreateMemTemp]. *)
Record AllocaData := {
  alloca_addr : Value;
  alloca_type : mlirType;
  alloca_name : string
}.

(** The IR being built.  Operations, blocks and regions are addressed by
    identifiers, the way the C++ code holds them by pointer.  With the
    allocas of the function goes the counter that numbers its aggregate
    temporaries ([CIRGenFunction::CounterAggTmp]). *)
Record MLIRState := {
  ops : gmap OpId OperationData;
  blocks : gmap BlockId BlockData;
  regions : gmap RegionId RegionData;
  allocas : list AllocaData;
  nextOp : OpId;
  nextValue : nat;
  nextBlock : BlockId;
  nextRegion : RegionId;
  CounterAggTmp : nat
}.

(** OpBuilder::InsertPoint: a block and the operation before which new
    operations go ([None]: the end of the block).  A builder object is the
    shared IR plus its own insertion point; [None : option InsertPoint] is
    a builder without insertion block. *)
Record InsertPoint := {
  ip_block : BlockId;
  ip_before : option OpId
}.
#[global] Instance InsertPoint_eq_dec : EqDecision InsertPoint.
Proof. solve_decision. Defined.

(** Insert [x] in front of the operation [anchor] of a block, or at the end
    of the block. *)
Fixpoint insertBeforeOp (anchor : OpId) (x : OpId) (l : list OpId) : list OpId :=
  match l with
  | [] => [x]
  | o :: os => if decide (o = anchor) then x :: o :: os
               else o :: insertBeforeOp anchor x os
  end.

Definition insertAt (before : option OpId) (x : OpId) (l : list OpId) : list OpId :=
  match before with
  | None => l ++ [x]
  | Some anchor => insertBeforeOp anchor x l
  end.

(** The iterator that follows operation [o] in a block: the identifier of
    the next operation, or [None] for the end of the block. *)
Fixpoint iteratorAfter (o : OpId) (l : list OpId) : option OpId :=
  match l with
  | [] => None
  | x :: xs => if decide (x = o) then head xs else iteratorAfter o xs
  end.

(** [builder.create<Op>(...)] at insertion point [ip]: a fresh operation
    with fresh results of the given types, linked into the block of [ip];
    a builder without insertion block leaves the operation detached. *)
Definition createOp (ip : option InsertPoint) (kind : OpKind)
    (resultTypes : list mlirType) : Emit MLIRState (OpId * list Value) :=
  λ st,
    let id := nextOp st in
    let results :=
      imap (λ i T, {| val_id := nextValue st + i; val_type := T;
                      val_def := DefinedBy id |}) resultTypes in
    let linked :=
      match ip with
      | Some p =>
          match blocks st !! ip_block p with
          | Some B =>
              Some (ip_block p,
                    {| blk_parent := blk_parent B;
                       blk_ops := insertAt (ip_before p) id (blk_ops B) |})
          | None => None
          end
      | None => None
      end in
    let data := {| op_kind := kind; op_results := results;
                   op_block := fst <$> linked;
                   op_extra_attrs := None; op_ast := None;
                   op_synthetic := false |} in
    Done ((id, results),
          {| ops := <[id := data]> (ops st);
             blocks := match linked with
                       | Some (b, B) => <[b := B]> (blocks st)
                       | None => blocks st
                       end;
             regions := regions st;
             allocas := allocas st;
             nextOp := S id;
             nextValue := nextValue st + length resultTypes;
             nextBlock := nextBlock st;
             nextRegion := nextRegion st;
             CounterAggTmp := CounterAggTmp st |}).

(** [op->setAttr(...)] and [op.setSynthetic(...)]: update an operation in
    place. *)
Definition updateOp (id : OpId) (f : OperationData → OperationData)
  : Emit MLIRState unit :=
  λ st, Done (tt,
    {| ops := alter f id (ops st); blocks := blocks st; regions := regions st;
       allocas := allocas st; nextOp := nextOp st; nextValue := nextValue st;
       nextBlock := nextBlock st; nextRegion := nextRegion st;
       CounterAggTmp := CounterAggTmp st |}).

(** [builder.createStore(loc, val, addr)]. *)
Definition createStore (ip : option InsertPoint) (val : Value) (dst : Address)
  : Emit MLIRState OpId :=
  r ← createOp ip (StoreOp val (getPointer dst)) [];
  mret r.1.

(** [builder.createLoad(loc, addr)]: loads a value of the element type. *)
Definition createLoad (ip : option InsertPoint) (addr : Address)
  : Emit MLIRState Value :=
  r ← createOp ip (LoadOp (getPointer addr)) [getElementType addr];
  match r.2 with
  | [v] => mret v
  | _ => lift (Faulted (AssertionFailure "load has one result"))
  end.

(** Modelled from the spec: [createBitcast] of the builder header, which
    is not part of this unit: "a same-width type reinterpretation
    (bit-cast)"; nothing is emitted when the value already has the type. *)
Definition createBitcast (ip : option InsertPoint) (src : Value) (newTy : mlirType)
  : Emit MLIRState Value :=
  if decide (newTy = val_type src) then mret src
  else
    r ← createOp ip (CastOp CastKind_bitcast src) [newTy];
    match r.2 with
    | [v] => mret v
    | _ => lift (Faulted (AssertionFailure "cast has one result"))
    end.

(** Modelled from the spec: [createElementBitCast] of the builder header,
    which is not part of this unit: "reinterpret the address as a pointer
    to the coerced shape"; an address that already has the element type is
    returned as it is ("a straight load with no bit-reinterpretation
    step"). *)
Definition createElementBitCast (ip : option InsertPoint) (addr : Address)
    (destType : mlirType) : Emit MLIRState Address :=
  if decide (destType = getElementType addr) then mret addr
  else
    p ← createBitcast ip (getPointer addr) (PointerType destType);
    mret {| getPointer := p; getElementType := destType;
            getAlignment := getAlignment addr |}.

(** [op->getBlock()] and [op->getParentRegion()]. *)
Definition getBlock (st : MLIRState) (o : OpId) : option BlockId :=
  ops st !! o ≫= op_block.
Definition Block_getParent (st : MLIRState) (b : BlockId) : option RegionId :=
  blocks st !! b ≫= blk_parent.
Definition getParentRegion (st : MLIRState) (o : OpId) : option RegionId :=
  getBlock st o ≫= Block_getParent st.

(** [builder.setInsertionPointAfter(op)]. *)
Definition setInsertionPointAfter (st : MLIRState) (o : OpId) : option InsertPoint :=
  b ← getBlock st o;
  B ← blocks st !! b;
  Some {| ip_block := b; ip_before := iteratorAfter o (blk_ops B) |}.

(** [builder.setInsertionPointToStart(block)]. *)
Definition setInsertionPointToStart (st : MLIRState) (b : BlockId) : option InsertPoint :=
  B ← blocks st !! b;
  Some {| ip_block := b; ip_before := head (blk_ops B) |}.

(** [builder.setInsertionPointAfterValue(val)]. *)
Definition setInsertionPointAfterValue (st : MLIRState) (val : Value)
  : option InsertPoint :=
  match val_def val with
  | DefinedBy o => setInsertionPointAfter st o
  | BlockArgument b => setInsertionPointToStart st b
  end.

(** getRValueThroughMemory.  [builder] is passed by reference: the
    function works on the insertion point [ip] of that builder and leaves
    it as it found it. *)
Definition getRValueThroughMemory (ip : option InsertPoint) (val : Value)
    (addr : Address) : Emit MLIRState RValue :=
  (* auto ip = builder.saveInsertionPoint(); *)
  let saved := ip in
  (* builder.setInsertionPointAfterValue(val); *)
  st ← get_state;
  let ip := setInsertionPointAfterValue st val in
  _ ← createStore ip val addr;
  (* builder.restoreInsertionPoint(ip); *)
  let ip := saved in
  load ← createLoad ip addr;
  mret (RValue_get load).

(* ================================================================== *)
(** ** The call emitter                                                *)
(* ================================================================== *)

(** cir::FuncOp, as far as a call site reads it. *)
Record FuncOp := {
  fn_name : string;
  fn_type : mlirType;
  fn_extraAttrs : NamedAttrList
}.

(** The operation a concrete callee points to: a function, a
    [cir.get_global] of a function symbol, or any other operation whose
    first result is a function pointer. *)
Inductive CalleeOperation :=
| Callee_FuncOp (fn : FuncOp)
| Callee_GetGlobalOp (name : string) (result : Value)
| Callee_Other (results : list Value).

Inductive CalleeKind :=
| Callee_Ordinary | Callee_Virtual | Callee_Builtin | Callee_PseudoDestructor.
#[global] Instance CalleeKind_eq_dec : EqDecision CalleeKind.
Proof. solve_decision. Defined.

(** CIRGenCallee. *)
Record CIRGenCallee := {
  callee_kind : CalleeKind;
  getAbstractInfo : CIRGenCalleeInfo;
  getFunctionPointer : CalleeOperation
}.

Definition isOrdinary (C : CIRGenCallee) : bool := bool_decide (callee_kind C = Callee_Ordinary).
Definition isVirtual (C : CIRGenCallee) : bool := bool_decide (callee_kind C = Callee_Virtual).

Inductive TypeEvaluationKind := TEK_Scalar | TEK_Complex | TEK_Aggregate.

(** ReturnValueSlot: [getValue()] is an address that may be invalid. *)
Record ReturnValueSlot := {
  getValue : option Address;
  rvs_isVolatile : bool
}.

(** LexicalScope, as far as call emission reads it. *)
Record LexicalScope := {
  getClosestTryParent : option OpId
}.

(** The state of a CIRGenFunction that call emission changes: the IR, the
    insertion point of the function's builder, the lowering context and
    the exception bookkeeping. *)
Record CGFState := {
  mlir : MLIRState;
  builder_ip : option InsertPoint;
  typesState : CIRGenTypesState;
  mayThrow : bool;
  callWithExceptionCtx : option OpId
}.

(** What call emission reads from its CIRGenFunction and from the
    collaborators behind it. *)
Record CIRGenFunction := {
  CGM : CIRGenModule;
  getTypes : CIRGenTypes;
  convertType : QualType → mlirType;
  getEvaluationKind : QualType → TypeEvaluationKind;
  isSEHTryScope : bool;
  currentFunctionUsesSEHTry : bool;
  isCleanupPadScope : bool;
  isMSVCXXPersonality : bool;
  isInvokeDest : bool;
  CurFuncDecl : option Decl;
  currLexScope : option LexicalScope;
  getDebugInfo : bool;
  lookupSymbolIn : string → option FuncOp;
  getVirtualFunctionPointer : CIRGenCallee → Emit CGFState CIRGenCallee;
  getInvokeDest : OpId → Emit CGFState unit;
  isDestructedType_nontrivial_c_struct : QualType → bool;
  (* what [*type_it] reads at a position behind the argument-type buffer
     of the descriptor: the argument loop of emitCall does not check its
     type iterator, and what lies behind the buffer is not determined by
     this unit *)
  pastArgEnd : nat → QualType
}.

Definition liftMLIR {A} (m : Emit MLIRState A) : Emit CGFState A :=
  λ s, match m (mlir s) with
       | Done (a, m') =>
           Done (a, {| mlir := m'; builder_ip := builder_ip s;
                       typesState := typesState s; mayThrow := mayThrow s;
                       callWithExceptionCtx := callWithExceptionCtx s |})
       | Faulted e => Faulted e
       end.

Definition liftTypes {A} (m : Emit CIRGenTypesState A) : Emit CGFState A :=
  λ s, match m (typesState s) with
       | Done (a, t') =>
           Done (a, {| mlir := mlir s; builder_ip := builder_ip s;
                       typesState := t'; mayThrow := mayThrow s;
                       callWithExceptionCtx := callWithExceptionCtx s |})
       | Faulted e => Faulted e
       end.

Definition set_builder_ip (ip : option InsertPoint) : Emit CGFState unit :=
  λ s, Done (tt, {| mlir := mlir s; builder_ip := ip; typesState := typesState s;
                    mayThrow := mayThrow s;
                    callWithExceptionCtx := callWithExceptionCtx s |}).

Definition set_mayThrow (b : bool) : Emit CGFState unit :=
  λ s, Done (tt, {| mlir := mlir s; builder_ip := builder_ip s;
                    typesState := typesState s; mayThrow := b;
                    callWithExceptionCtx := callWithExceptionCtx s |}).

Definition set_callWithExceptionCtx (c : option OpId) : Emit CGFState unit :=
  λ s, Done (tt, {| mlir := mlir s; builder_ip := builder_ip s;
                    typesState := typesState s; mayThrow := mayThrow s;
                    callWithExceptionCtx := c |}).

(** CIRGenCallee::prepareConcreteCallee. *)
Definition prepareConcreteCallee (CGF : CIRGenFunction) (C : CIRGenCallee)
  : Emit CGFState CIRGenCallee :=
  if isVirtual C then getVirtualFunctionPointer CGF C else mret C.

(** Modelled from the spec: [CreateMemTemp], which is defined outside this
    unit: a "freshly allocated" memory slot for a value of the given type.
    The slot is recorded with the allocas of the function. *)
Definition CreateMemTemp (CGF : CIRGenFunction) (T : QualType) (name : string)
  : Emit MLIRState Address :=
  λ st,
    let ty := convertType CGF T in
    let v := {| val_id := nextValue st; val_type := PointerType ty;
                val_def := DefinedBy (nextOp st) |} in
    Done ({| getPointer := v; getElementType := ty; getAlignment := 0%N |},
          {| ops := ops st; blocks := blocks st; regions := regions st;
             allocas := allocas st ++
                        [{| alloca_addr := v; alloca_type := ty; alloca_name := name |}];
             nextOp := S (nextOp st); nextValue := S (nextValue st);
             nextBlock := nextBlock st; nextRegion := nextRegion st;
             CounterAggTmp := CounterAggTmp st |}).

(** Modelled from the test CallConvLowering/x86_64/basic.cpp:
    [getCounterAggTmpAsString], which is defined outside this unit: the
    name of the next aggregate temporary, "agg.tmp" followed by the
    counter of the function ("agg.tmp0", "agg.tmp1"), which is advanced. *)
Definition aggTmpName (n : nat) : string :=
  "agg.tmp" +:+ NilEmpty.string_of_uint (Nat.to_uint n).

Definition getCounterAggTmpAsString : Emit MLIRState string :=
  λ st,
    Done (aggTmpName (CounterAggTmp st),
          {| ops := ops st; blocks := blocks st; regions := regions st;
             allocas := allocas st; nextOp := nextOp st; nextValue := nextValue st;
             nextBlock := nextBlock st; nextRegion := nextRegion st;
             CounterAggTmp := S (CounterAggTmp st) |}).

(** CIRGenFunction::emitAggregateStore: the store goes right after the
    operation that defines the value; the insertion guard leaves the
    function's builder where it was. *)
Definition emitAggregateStore (Val : Value) (Dest : Address) (DestIsVolatile : bool)
  : Emit MLIRState unit :=
  match val_def Val with
  | DefinedBy o =>
      st ← get_state;
      _ ← createStore (setInsertionPointAfter st o) Val Dest;
      mret tt
  | BlockArgument _ =>
      lift (Faulted (AssertionFailure "Val.getDefiningOp() is null"))
  end.

(** Modelled from the spec: the builder callbacks of [cir.try], defined
    with the dialect: a synthesized scope has an empty try region of one
    block and "exactly one handler region that immediately resumes". *)
Definition createTryOp (ip : option InsertPoint) : Emit MLIRState OpId :=
  λ st,
    let tryRegion := nextRegion st in
    let tryBlock := nextBlock st in
    let handlerRegion := S (nextRegion st) in
    let handlerBlock := S (nextBlock st) in
    let resume := nextOp st in
    let st1 :=
      {| ops := <[resume := {| op_kind := ResumeOp; op_results := [];
                               op_block := Some handlerBlock;
                               op_extra_attrs := None; op_ast := None;
                               op_synthetic := false |}]> (ops st);
         blocks := <[handlerBlock := {| blk_parent := Some handlerRegion;
                                        blk_ops := [resume] |}]>
                   (<[tryBlock := {| blk_parent := Some tryRegion;
                                     blk_ops := [] |}]> (blocks st));
         regions := <[handlerRegion := {| reg_blocks := [handlerBlock] |}]>
                    (<[tryRegion := {| reg_blocks := [tryBlock] |}]> (regions st));
         allocas := allocas st;
         nextOp := S (nextOp st);
         nextValue := nextValue st;
         nextBlock := S (S (nextBlock st));
         nextRegion := S (S (nextRegion st));
         CounterAggTmp := CounterAggTmp st |} in
    match createOp ip (TryOp tryRegion [handlerRegion]) [] st1 with
    | Done (r, st2) => Done (r.1, st2)
    | Faulted e => Faulted e
    end.

(** The lambda getOrCreateSurroundingTryOp of emitCallLikeOp. *)
Definition getOrCreateSurroundingTryOp (CGF : CIRGenFunction) : Emit CGFState OpId :=
  match currLexScope CGF with
  | None => lift (Faulted (AssertionFailure "expected scope"))
  | Some scope =>
      match getClosestTryParent scope with
      | Some op => mret op
      | None =>
          s ← get_state;
          op ← liftMLIR (createTryOp (builder_ip s));
          _ ← liftMLIR (updateOp op (λ d,
                 {| op_kind := op_kind d; op_results := op_results d;
                    op_block := op_block d; op_extra_attrs := op_extra_attrs d;
                    op_ast := op_ast d; op_synthetic := true |}));
          mret op
      end
  end.

(** The result types of a call to a function of type [fnTy]. *)
Definition callResultTypes (fnTy : mlirType) : list mlirType :=
  match FuncType_getReturnType fnTy with
  | VoidType | NullType => []
  | T => [T]
  end.

Definition setExtraAttrs (extraFnAttrs : NamedAttrList) (d : OperationData)
  : OperationData :=
  {| op_kind := op_kind d; op_results := op_results d; op_block := op_block d;
     op_extra_attrs := Some extraFnAttrs; op_ast := op_ast d;
     op_synthetic := op_synthetic d |}.

Definition setAstAttr (E : nat) (d : OperationData) : OperationData :=
  {| op_kind := op_kind d; op_results := op_results d; op_block := op_block d;
     op_extra_attrs := op_extra_attrs d; op_ast := Some E;
     op_synthetic := op_synthetic d |}.

(** [createCallOp], [createIndirectCallOp], [createTryCallOp] and
    [createIndirectTryCallOp] of the builder. *)
Definition createCallLike (ip : option InsertPoint) (callee : CalleeOperand)
    (fnTy : mlirType) (args : list Value) (exception : bool)
    (callingConv : cir_CallingConv) (sideEffect : SideEffect)
    (extraFnAttrs : NamedAttrList) : Emit MLIRState OpId :=
  r ← createOp ip (CallOp callee args exception callingConv sideEffect)
                  (callResultTypes fnTy);
  _ ← updateOp r.1 (setExtraAttrs extraFnAttrs);
  mret r.1.

Definition getTryRegion_back (st : MLIRState) (tryOp : OpId) : option BlockId :=
  d ← ops st !! tryOp;
  match op_kind d with
  | TryOp tryRegion _ => R ← regions st !! tryRegion; last (reg_blocks R)
  | _ => None
  end.

Definition getSynthetic (st : MLIRState) (tryOp : OpId) : bool :=
  match ops st !! tryOp with
  | Some d => op_synthetic d
  | None => false
  end.

(** emitCallLikeOp. *)
Definition emitCallLikeOp (CGF : CIRGenFunction)
    (indirectFuncTy : option mlirType) (indirectFuncVal : option Value)
    (directFuncOp : option FuncOp) (CIRCallArgs : list Value) (isInvoke : bool)
    (callingConv : cir_CallingConv) (sideEffect : SideEffect)
    (extraFnAttrs : NamedAttrList) : Emit CGFState OpId :=
  let callee : Outcome (CalleeOperand * mlirType) :=
    match indirectFuncTy, indirectFuncVal, directFuncOp with
    | Some ty, Some v, _ => Done (IndirectCallee v ty, ty)
    | Some _, None, _ => Faulted (AssertionFailure "null function pointer value")
    | None, _, Some fn => Done (DirectCallee (fn_name fn), fn_type fn)
    | None, _, None => Faulted (AssertionFailure "null callee")
    end in
  if isInvoke then
    (* This call can throw: it is emitted under a cir.try. *)
    tryOp ← getOrCreateSurroundingTryOp CGF;
    s ← get_state;
    let ip := builder_ip s in
    _ ← (if getSynthetic (mlir s) tryOp then
           match getTryRegion_back (mlir s) tryOp with
           | Some lastBlock =>
               set_builder_ip (setInsertionPointToStart (mlir s) lastBlock)
           | None => lift (Faulted (AssertionFailure "try region has no block"))
           end
         else
           lift (assert_ (bool_decide (is_Some (builder_ip s)))
                         "expected valid basic block"));
    _ ← lift (assert_ (bool_decide (callingConv = cir_C)) "NYI");
    c ← lift callee;
    s ← get_state;
    callOpWithExceptions ←
      liftMLIR (createCallLike (builder_ip s) c.1 c.2 CIRCallArgs true
                  callingConv sideEffect extraFnAttrs);
    _ ← set_mayThrow true;
    _ ← set_callWithExceptionCtx (Some callOpWithExceptions);
    _ ← getInvokeDest CGF tryOp;
    _ ← set_callWithExceptionCtx None;
    s ← get_state;
    _ ← (if getSynthetic (mlir s) tryOp then
           _ ← liftMLIR (createOp (builder_ip s) YieldOp []);
           set_builder_ip ip
         else mret tt);
    mret callOpWithExceptions
  else
    s ← get_state;
    _ ← lift (assert_ (bool_decide (is_Some (builder_ip s)))
                      "expected valid basic block");
    match indirectFuncTy with
    | Some _ =>
        _ ← lift (assert_ (bool_decide (callingConv = cir_C)) "NYI");
        c ← lift callee;
        liftMLIR (createCallLike (builder_ip s) c.1 c.2 CIRCallArgs false
                    cir_C sideEffect extraFnAttrs)
    | None =>
        c ← lift callee;
        liftMLIR (createCallLike (builder_ip s) c.1 c.2 CIRCallArgs false
                    callingConv sideEffect extraFnAttrs)
    end.

(** [CIRFuncTy.getInput(ArgNo)], read only under [ArgNo < getNumInputs()]. *)
Definition getInput_ (CIRFuncTy : mlirType) (ArgNo : nat) : mlirType :=
  default NullType (getInput CIRFuncTy ArgNo).

(** The argument loop of emitCall, scalar slot: the parameter's machine
    type [argType] is not a record.  [ip] is the insertion point of the
    local builder of emitCall. *)
Definition emitCall_scalarArg (ip : option InsertPoint) (CIRFuncTy : mlirType)
    (ArgNo : nat) (argType : mlirType) (I : CallArg) : Emit MLIRState Value :=
  _ ← lift (assert_ (negb (isAggregate I)) "Aggregate NYI");
  rv ← lift (getKnownRValue I);
  V ← lift (getScalarVal rv);
  (* We might have to widen integers, but we should never truncate. *)
  _ ← (if bool_decide (argType ≠ val_type V) && isa_IntType (val_type V)
       then lift (llvm_unreachable "NYI") else mret tt);
  (* If the argument doesn't match, perform a bitcast to coerce it. This
     can happen due to trivial type mismatches. *)
  if bool_decide (ArgNo < getNumInputs CIRFuncTy) &&
     bool_decide (val_type V ≠ getInput_ CIRFuncTy ArgNo)
  then createBitcast ip V (getInput_ CIRFuncTy ArgNo)
  else mret V.

(** The argument loop of emitCall, aggregate slot: the parameter's machine
    type [argType] is a record. *)
Definition emitCall_aggregateArg (ip : option InsertPoint) (argType : mlirType)
    (I : CallArg) : Emit MLIRState Value :=
  Src ← (if negb (isAggregate I) then lift (llvm_unreachable "NYI")
         else if hasLValue I
              then lv ← lift (getKnownLValue I); mret (lv_Address lv)
              else rv ← lift (getKnownRValue I); lift (getAggregateAddress rv));
  let STy := argType in
  let SrcTy := getElementType Src in
  Src ← (if bool_decide (SrcTy ≠ STy) then lift (llvm_unreachable "NYI")
         else createElementBitCast ip Src STy);
  (* Emit a load from the "whole" struct. *)
  createLoad ip Src.

Definition emitCall_arg (ip : option InsertPoint) (CIRFuncTy : mlirType)
    (ArgNo : nat) (argType : mlirType) (I : CallArg) : Emit MLIRState Value :=
  if negb (isa_RecordType argType)
  then emitCall_scalarArg ip CIRFuncTy ArgNo argType I
  else emitCall_aggregateArg ip argType I.

(** The loop itself: [type_it] walks the descriptor's argument-type
    buffer from [arg_begin()] while [I] walks the call arguments and
    [ArgNo] counts.  The loop is bounded by the call arguments alone:
    [type_it] is not compared with [arg_end()], and with more call
    arguments than the buffer has types [*type_it] is read behind it. *)
Fixpoint emitCall_args (CGF : CIRGenFunction) (ip : option InsertPoint)
    (CIRFuncTy : mlirType) (ArgNo : nat) (type_it : list QualType)
    (CallArgs : CallArgList) {struct CallArgs} : Emit MLIRState (list Value) :=
  match CallArgs with
  | [] => mret []
  | Arg :: rest =>
      let T := match type_it with
               | T :: _ => T
               | [] => pastArgEnd CGF ArgNo
               end in
      let argType := convertType CGF T in
      V ← emitCall_arg ip CIRFuncTy ArgNo argType Arg;
      Vs ← emitCall_args CGF ip CIRFuncTy (S ArgNo) (tail type_it) rest;
      mret (V :: Vs)
  end.

(** "Decide whether to use a call or an invoke." *)
Definition emitCall_CannotThrow (CGF : CIRGenFunction) (Attrs : NamedAttrList)
    (CalleePtr : CalleeOperation) : bool :=
  if currentFunctionUsesSEHTry CGF then
    (* SEH cares about asynchronous exceptions, so everything can "throw." *)
    false
  else if isCleanupPadScope CGF && isMSVCXXPersonality CGF then
    (* The MSVC++ personality will implicitly terminate the program if an
       exception is thrown during a cleanup outside of a try/catch. *)
    true
  else
    (* Otherwise, nounwind call sites will never throw. *)
    let CannotThrow := getNamed_has_value Attrs (getMnemonic cir_NoThrowAttr) in
    match CalleePtr with
    | Callee_FuncOp fptr =>
        if bool_decide (is_Some (fn_extraAttrs fptr !! getMnemonic cir_NoThrowAttr))
        then true else CannotThrow
    | _ => CannotThrow
    end.

Definition emitCall_isInvoke (CGF : CIRGenFunction) (Attrs : NamedAttrList)
    (CalleePtr : CalleeOperation) : bool :=
  if emitCall_CannotThrow CGF Attrs CalleePtr then false else isInvokeDest CGF.

(** Modelled from the spec: [GetUndefRValue], defined outside this unit:
    "zero results: an undefined/ignored return value token". *)
Definition GetUndefRValue (T : QualType) : Outcome RValue :=
  _ ← assert_ (bool_decide (T = VoidTy)) "Only VoidType supported so far.";
  mret RValue_undef.

(** [Results[0]] of [theCall->getOpResults()]. *)
Definition Results_0 (Results : list Value) : Outcome Value :=
  match Results with
  | V :: _ => Done V
  | [] => Faulted (AssertionFailure "Invalid index!")
  end.

(** The lambda of emitCall that extracts the return value.  [builder_local]
    is the insertion point of emitCall's local builder (the point of use),
    [theCall] the emitted call. *)
Definition emitCall_extractReturn (CGF : CIRGenFunction)
    (builder_local : option InsertPoint) (RetTy : QualType)
    (ReturnValue : ReturnValueSlot) (theCall : OpId) : Emit MLIRState RValue :=
  let RetCIRTy := convertType CGF RetTy in
  if isa_VoidType RetCIRTy then lift (GetUndefRValue RetTy)
  else
    match getEvaluationKind CGF RetTy with
    | TEK_Aggregate =>
        DestPtr ← match getValue ReturnValue with
                  | Some a => mret a
                  | None =>
                      name ← getCounterAggTmpAsString;
                      CreateMemTemp CGF RetTy name
                  end;
        let DestIsVolatile :=
          match getValue ReturnValue with
          | Some _ => rvs_isVolatile ReturnValue
          | None => false
          end in
        st ← get_state;
        let Results := default [] (op_results <$> ops st !! theCall) in
        _ ← lift (assert_ (bool_decide (length Results ≤ 1)) "multiple returns NYI");
        R0 ← lift (Results_0 Results);
        _ ← emitAggregateStore R0 DestPtr DestIsVolatile;
        mret (RValue_getAggregate DestPtr)
    | TEK_Scalar =>
        st ← get_state;
        let Results := default [] (op_results <$> ops st !! theCall) in
        _ ← lift (assert_ (bool_decide (length Results ≤ 1)) "multiple returns NYI");
        R0 ← lift (Results_0 Results);
        _ ← lift (assert_ (bool_decide (val_type R0 = RetCIRTy)) "Bitcast support NYI");
        match builder_local with
        | None => lift (Faulted (AssertionFailure "builder.getBlock() is null"))
        | Some p =>
            let region := Block_getParent st (ip_block p) in
            if bool_decide (region ≠ getParentRegion st theCall) then
              DestPtr ← match getValue ReturnValue with
                        | Some a => mret a
                        | None => CreateMemTemp CGF RetTy "tmp.try.call.res"
                        end;
              getRValueThroughMemory builder_local R0 DestPtr
            else mret (RValue_get R0)
        end
    | TEK_Complex => lift (llvm_unreachable "NYI")
    end.

Definition CurFuncDecl_hasAttr (CGF : CIRGenFunction) (a : AttrKind) : bool :=
  match CurFuncDecl CGF with
  | Some D => bool_decide (is_Some (dyn_cast_FunctionDecl D)) && hasAttr D a
  | None => false
  end.

Definition TargetDecl_hasAttr (TargetDecl : option Decl) (a : AttrKind) : bool :=
  match TargetDecl with
  | Some D => hasAttr D a
  | None => false
  end.

(** CIRGenFunction::emitCall.  Returns the value of the call and, for the
    out-parameter [callOrTryCall], the emitted call operation. *)
Definition emitCall (CGF : CIRGenFunction) (CallInfo : CIRGenFunctionInfo)
    (Callee : CIRGenCallee) (ReturnValue : ReturnValueSlot)
    (CallArgs : CallArgList) (IsMustTail : bool) (E : option nat)
  : Emit CGFState (RValue * OpId) :=
  (* auto builder = CGM.getBuilder(); -- a copy: same IR, own insertion point *)
  s ← get_state;
  let builder := builder_ip s in
  _ ← lift (assert_ (isOrdinary Callee || isVirtual Callee)
                    "Callee.isOrdinary() || Callee.isVirtual()");
  let RetTy := getReturnType CallInfo in
  CIRFuncTy ← liftTypes (GetFunctionType (λ T, mret (convertType CGF T)) CallInfo);
  let TargetDecl := getDecl (getCalleeDecl (getAbstractInfo Callee)) in
  (* checkTargetFeatures only reports diagnostics; the marker
     MissingFeatures::checkFunctionCallABI() is false. *)
  (* 1. Set up the arguments *)
  _ ← lift (assert_ (bool_decide (ArgRecord CallInfo = None)) "NYI");
  CIRCallArgs ← liftMLIR (emitCall_args CGF builder CIRFuncTy 0
                            (arg_begin CallInfo) CallArgs);
  ConcreteCallee ← prepareConcreteCallee CGF Callee;
  _ ← lift (assert_ (isOrdinary ConcreteCallee) "isOrdinary()");
  let CalleePtr := getFunctionPointer ConcreteCallee in
  (* 3. Perform the actual call: compute the calling convention and
     attributes. *)
  let Attrs : NamedAttrList := ∅ in
  let FnName := match CalleePtr with
                | Callee_FuncOp calleeFnOp => fn_name calleeFnOp
                | _ => String.EmptyString
                end in
  r ← lift (constructAttributeList (CGM CGF) FnName CallInfo
              (getAbstractInfo Callee) Attrs true false);
  let '(Attrs, callingConv, sideEffect) := r in
  (* Disable inlining inside SEH __try blocks. *)
  _ ← (if isSEHTryScope CGF then lift (llvm_unreachable "NYI") else mret tt);
  (* Decide whether to use a call or an invoke. *)
  let isInvoke := emitCall_isInvoke CGF Attrs CalleePtr in
  _ ← lift (assert_ (negb (CurFuncDecl_hasAttr CGF StrictFPAttr)) "NYI");
  theCall ←
    (target ← lift
       match CalleePtr with
       | Callee_FuncOp fnOp => Done (None, None, Some fnOp)
       | Callee_GetGlobalOp name _ =>
           match lookupSymbolIn CGF name with
           | Some fn => Done (None, None, Some fn)
           | None => Faulted (AssertionFailure "operation is not a function")
           end
       | Callee_Other results =>
           match results with
           | v :: _ =>
               match val_type v with
               | PointerType (FuncType _ _ _) => Done (Some CIRFuncTy, Some v, None)
               | _ => Faulted (AssertionFailure "expected pointer to function")
               end
           | [] => Faulted (AssertionFailure "expected pointer to function")
           end
       end;
     let '(indirectFuncTy, indirectFuncVal, directFuncOp) := target in
     let extraFnAttrs := Attrs in
     callLikeOp ← emitCallLikeOp CGF indirectFuncTy indirectFuncVal directFuncOp
                    CIRCallArgs isInvoke callingConv sideEffect extraFnAttrs;
     _ ← match E with
         | Some e => liftMLIR (updateOp callLikeOp (setAstAttr e))
         | None => mret tt
         end;
     mret callLikeOp);
  _ ← lift (assert_ (negb (CurFuncDecl_hasAttr CGF CFGuardAttr)) "NYI");
  _ ← lift (assert_ (negb (ObjCAutoRefCount (getLangOpts (CGM CGF)))) "Not supported");
  _ ← lift (assert_ (negb (TargetDecl_hasAttr TargetDecl NotTailCalledAttr)) "NYI");
  _ ← lift (assert_ (negb (getDebugInfo CGF)) "No debug info yet");
  _ ← lift (assert_ (negb (TargetDecl_hasAttr TargetDecl ErrorAttr)) "NYI");
  (* 4. Finish the call. *)
  _ ← lift (assert_ (negb IsMustTail) "NYI");
  (* Extract the return value. *)
  ret ← liftMLIR (emitCall_extractReturn CGF builder RetTy ReturnValue theCall);
  _ ← lift (assert_ (negb (isDestructedType_nontrivial_c_struct CGF RetTy)) "NYI");
  mret (ret, theCall).

(** The address an aggregate argument is read from: the address of its
    l-value, or the aggregate address of its r-value. *)
Definition sourceAddress (Arg : CallArg) : option Address :=
  match ca_value Arg with
  | HasLV lv => Some (lv_Address lv)
  | HasRV (RValue_getAggregate a) => Some a
  | HasRV _ => None
  end.

(* ================================================================== *)
(** ** Variations of a declaration                                     *)
(* ================================================================== *)

(** The same declaration with another answer to [isNoReturn()], another
    answer to [isVirtual()] and with or without a no_builtin attribute.
    Used to compare what is synthesized for declarations that differ in
    nothing else. *)
Definition setNoReturn (b : bool) (fd : FunctionDeclData) : FunctionDeclData :=
  {| fd_type := fd_type fd; fd_isNoReturn := b;
     fd_isReplaceableGlobalAllocationFunction :=
       fd_isReplaceableGlobalAllocationFunction fd;
     fd_OverloadedOperator := fd_OverloadedOperator fd |}.

Definition setVirtual (b : bool) (md : CXXMethodData) : CXXMethodData :=
  {| md_Parent := md_Parent md; md_isVirtual := b; md_isInstance := md_isInstance md;
     md_AddressSpace := md_AddressSpace md |}.

Definition varyDecl (noret virt nobuiltin : bool) (D : Decl) : Decl :=
  {| decl_attrs :=
       if nobuiltin then NoBuiltinAttr :: decl_attrs D
       else filter (λ a, a ≠ NoBuiltinAttr) (decl_attrs D);
     decl_kind :=
       match decl_kind D with
       | FunctionDecl fd => FunctionDecl (setNoReturn noret fd)
       | CXXMethodDecl fd md =>
           CXXMethodDecl (setNoReturn noret fd) (setVirtual virt md)
       | CXXConstructorDecl fd md inh =>
           CXXConstructorDecl (setNoReturn noret fd) md inh
       | CXXDestructorDecl fd md =>
           CXXDestructorDecl (setNoReturn noret fd) (setVirtual virt md)
       | k => k
       end |}.

(** A prototype whose exception specification is resolved and
    non-throwing. *)
Definition resolvedNothrow (FPT : FunctionProtoType) : bool :=
  negb (isUnresolvedExceptionSpec (getExceptionSpecType FPT)) && isNothrow FPT.

Definition protoOfDecl (TargetDecl : option Decl) : option FunctionProtoType :=
  D ← TargetDecl; Fn ← dyn_cast_FunctionDecl D; getAs_FunctionProtoType (fd_type Fn).

(** The language modes in which every function and call is no-throw. *)
Definition langImpliesNoThrow (langOpts : LangOptions) : bool :=
  OpenCL langOpts || ((CUDA langOpts || HIP langOpts) && CUDAIsDevice langOpts).

Definition optResolvedNothrow (FPT : option FunctionProtoType) : bool :=
  match FPT with
  | Some FPT => resolvedNothrow FPT
  | None => false
  end.

(** The four sources of the no-throw attribute of a call site or
    definition. *)
Definition synthesizesNoThrow (CGM : CIRGenModule) (CalleeInfo : CIRGenCalleeInfo)
  : bool :=
  let TargetDecl := getDecl (getCalleeDecl CalleeInfo) in
  optResolvedNothrow (getCalleeFunctionProtoType CalleeInfo) ||
  match TargetDecl with
  | Some D => hasAttr D NoThrowAttr
  | None => false
  end ||
  optResolvedNothrow (protoOfDecl TargetDecl) ||
  langImpliesNoThrow (getLangOpts CGM).

(* ================================================================== *)
(** ** Concrete inputs                                                 *)
(* ================================================================== *)

Module Examples.

Definition ExtInfo_C : ExtInfo :=
  {| getCC := CC_C; getNoReturn := false; getProducesResult := false;
     getNoCallerSavedRegs := false; getNoCfCheck := false;
     getCmseNSCall := false; getHasRegParm := false; getRegParm := 0%N |}.

(** A prototype without extended parameter infos and without exception
    specification. *)
Definition plainProto (variadic : bool) : ProtoInfo :=
  {| pi_isVariadic := variadic; pi_ExtInfo := ExtInfo_C;
     pi_ExtParameterInfos := None; pi_ExceptionSpecType := EST_None;
     pi_isNothrow := false |}.

Definition s32 : QualType := IntTy 32 true.
Definition s32i : mlirType := IntType 32 true.
Definition u32i : mlirType := IntType 32 false.
Definition s8i : mlirType := IntType 8 true.
Definition s64i : mlirType := IntType 64 true.

(** An ABI object that adds no structor arguments, and one that passes a
    VTT pointer after [this] to base-object constructors. *)
Definition plainABI : CIRGenCXXABI :=
  {| buildStructorSignature :=
       λ _ argTypes, ({| Prefix := 0; Suffix := 0 |}, argTypes);
     HasThisReturn := λ _, false;
     hasMostDerivedReturn := λ _, false;
     getThisArgumentTypeForMethod := md_Parent |}.

Definition vttABI : CIRGenCXXABI :=
  {| buildStructorSignature :=
       λ GD argTypes,
         if bool_decide (getCtorType GD = Ctor_Base)
         then ({| Prefix := 1; Suffix := 0 |},
               take 1 argTypes ++ [PointerTy VoidPtrTy 0] ++ drop 1 argTypes)
         else ({| Prefix := 0; Suffix := 0 |}, argTypes);
     HasThisReturn := λ _, false;
     hasMostDerivedReturn := λ _, false;
     getThisArgumentTypeForMethod := md_Parent |}.

Definition x86_64 (abi : CIRGenCXXABI) (ctorVariants : bool) : CIRGenTypes :=
  {| astContext := {| getCanonicalParamType := λ T, T;
                      getSizeType := IntTy 64 false |};
     Target := {| hasConstructorVariants := ctorVariants; isMicrosoft := false;
                  areArgsDestroyedLeftToRightInCallee := false |};
     TheCXXABI := abi;
     ClangCallConvToCIRCallConv :=
       λ cc, match cc with CC_OpenCLKernel => cir_SpirKernel | _ => cir_C end;
     setCUDAKernelCallingConvention_target := λ T, T |}.

Definition CGT0 : CIRGenTypes := x86_64 plainABI true.

(** [int f();] in C: a declaration without prototype. *)
Definition kr_type : QualType := FunctionNoProtoTy s32 ExtInfo_C.
Definition kr_noproto : FunctionNoProtoType :=
  {| fnpt_ReturnType := s32; fnpt_ExtInfo := ExtInfo_C |}.
Definition plainFunction (T : QualType) : FunctionDeclData :=
  {| fd_type := T; fd_isNoReturn := false;
     fd_isReplaceableGlobalAllocationFunction := false;
     fd_OverloadedOperator := OO_None |}.
Definition kr_decl : Decl :=
  {| decl_attrs := []; decl_kind := FunctionDecl (plainFunction kr_type) |}.

Definition scalarArg (id : nat) (T : mlirType) (QT : QualType) : CallArg :=
  {| ca_value := HasRV (RValue_get {| val_id := id; val_type := T;
                                      val_def := BlockArgument 0 |});
     Ty := QT |}.

(** The two arguments of the call [f(1, 2)]. *)
Definition two_args : CallArgList := [scalarArg 0 s32i s32; scalarArg 1 s32i s32].

(** [int Int(int i)] of the call-conv test. *)
Definition Int_proto : FunctionProtoType :=
  {| fpt_ReturnType := s32; fpt_ParamTypes := [s32]; fpt_info := plainProto false |}.

(** [int printf_like(int, ...)]. *)
Definition variadic_proto : FunctionProtoType :=
  {| fpt_ReturnType := s32; fpt_ParamTypes := [s32]; fpt_info := plainProto true |}.

(** A prototype [void g(void *p __attribute__((pass_object_size(0))), int)]. *)
Definition pos_info : ExtParameterInfo :=
  {| hasPassObjectSize := true; isNoEscape := false; isConsumed := false |}.
Definition pos_proto : FunctionProtoType :=
  {| fpt_ReturnType := VoidTy; fpt_ParamTypes := [VoidPtrTy; s32];
     fpt_info := {| pi_isVariadic := false; pi_ExtInfo := ExtInfo_C;
                    pi_ExtParameterInfos := Some [pos_info; ExtParameterInfo_default];
                    pi_ExceptionSpecType := EST_None; pi_isNothrow := false |} |}.

(** A constructor [D::D(int)] inherited from a base [B]
    ([struct D : B { using B::B; }]); [virt] tells whether the shadow
    declaration constructs a virtual base. *)
Definition inheritedCtor (virt : bool) : Decl :=
  {| decl_attrs := [];
     decl_kind :=
       CXXConstructorDecl
         (plainFunction (FunctionProtoTy VoidTy [s32] (plainProto false)))
         {| md_Parent := Some "D"; md_isVirtual := false; md_isInstance := true;
            md_AddressSpace := 0%N |}
         (Some {| constructsVirtualBase := virt |}) |}.

Definition inheritedCtorGD (virt : bool) (T : CXXCtorType) : GlobalDecl :=
  {| getDecl := Some (inheritedCtor virt); getCtorType := T |}.

(** [struct S { void ( *fp )(struct S); };] and the function type
    [void (struct S)] that refers to itself through [S]. *)
Definition selfRefFn : QualType := FunctionProtoTy VoidTy [RecordTy "S"] (plainProto false).
Definition selfRefFields (name : string) : list QualType :=
  if decide (name = "S") then [PointerTy selfRefFn 0] else [].
Definition selfRefProto : FunctionProtoType :=
  {| fpt_ReturnType := VoidTy; fpt_ParamTypes := [RecordTy "S"];
     fpt_info := plainProto false |}.

(** The descriptor with the C convention, no flags and no extended infos. *)
Definition mkFI (instanceMethod : bool) (required : RequiredArgs)
    (resultType : QualType) (argTypes : list QualType) : CIRGenFunctionInfo :=
  {| CallingConvention := cir_C; EffectiveCallingConvention := cir_C;
     ASTCallingConvention := CC_C; InstanceMethod := instanceMethod;
     ChainCall := false; CmseNSCall := false; NoReturn := false;
     ReturnsRetained := false; NoCallerSavedRegs := false; NoCfCheck := false;
     Required := required; HasRegParm := false; RegParm := 0%N;
     ArgRecord := None; ArgRecordAlign := 0%N; NumArgs := length argTypes;
     HasExtParameterInfos := false; ArgTypesBuffer := resultType :: argTypes;
     ExtParameterInfosBuffer := [] |}.

(** The descriptor of [int printf_like(int, ...)]. *)
Definition variadic_FI : CIRGenFunctionInfo := mkFI false (RequiredArgs_N 1) s32 [s32].


Definition noneInProgress : CIRGenTypesState := {| FunctionsBeingProcessed := [] |}.

(** A converter for the scalar types; everything else is a null type. *)
Definition scalarConvert (T : QualType) : mlirType :=
  match T with
  | VoidTy => VoidType
  | BoolTy => BoolType
  | IntTy w s => IntType w s
  | FloatTy => SingleType
  | DoubleTy => DoubleType
  | PointerTy VoidTy _ => PointerType VoidType
  | RecordTy n => RecordType n []
  | _ => NullType
  end.

(** C++ host compilation without offloading. *)
Definition cxxLangOpts : LangOptions :=
  {| OpenCL := false; OpenCLVersion := 0; OffloadUniformBlock := false;
     CUDA := false; CUDAIsDevice := false; HIP := false; SYCLIsDevice := false;
     assumeFunctionsAreConvergent := false; ObjCAutoRefCount := false |}.

Definition CGM0 : CIRGenModule :=
  {| getLangOpts := cxxLangOpts;
     getCodeGenOpts := {| AssumeSaneOperatorNew := true |};
     getMangledName := λ _, "_Z6kernelv" |}.

(** [[noreturn]] void fatal(int); an ordinary function. *)
Definition fatal_proto (est : ExceptionSpecificationType) (nothrow : bool)
  : FunctionProtoType :=
  {| fpt_ReturnType := VoidTy; fpt_ParamTypes := [s32];
     fpt_info := {| pi_isVariadic := false; pi_ExtInfo := ExtInfo_C;
                    pi_ExtParameterInfos := None; pi_ExceptionSpecType := est;
                    pi_isNothrow := nothrow |} |}.

Definition fatal_decl : Decl :=
  {| decl_attrs := [];
     decl_kind := FunctionDecl
       {| fd_type := FunctionProtoType_type (fatal_proto EST_None false);
          fd_isNoReturn := true;
          fd_isReplaceableGlobalAllocationFunction := false;
          fd_OverloadedOperator := OO_None |} |}.

Definition calleeInfoOf (proto : option FunctionProtoType) (D : Decl) : CIRGenCalleeInfo :=
  {| getCalleeFunctionProtoType := proto;
     getCalleeDecl := {| getDecl := Some D; getCtorType := Ctor_Complete |} |}.

Definition fatal_FI : CIRGenFunctionInfo := mkFI false RequiredArgs_All VoidTy [s32].

(** void quiet(int) noexcept; *)
Definition quiet_decl : Decl :=
  {| decl_attrs := [];
     decl_kind := FunctionDecl
       (plainFunction (FunctionProtoType_type (fatal_proto EST_BasicNoexcept true))) |}.

(** A function body in which calls are emitted; [usesSEH] tells whether
    the function has a [__try], [invokeDest] whether an unwind destination
    is required at this point. *)
Definition CGF0 (usesSEH invokeDest : bool) : CIRGenFunction :=
  {| CGM := CGM0; getTypes := CGT0; convertType := scalarConvert;
     getEvaluationKind :=
       λ T, match T with RecordTy _ => TEK_Aggregate | _ => TEK_Scalar end;
     isSEHTryScope := false; currentFunctionUsesSEHTry := usesSEH;
     isCleanupPadScope := false; isMSVCXXPersonality := false;
     isInvokeDest := invokeDest; CurFuncDecl := None;
     currLexScope := Some {| getClosestTryParent := None |};
     getDebugInfo := false; lookupSymbolIn := λ _, None;
     getVirtualFunctionPointer := λ C, mret C;
     getInvokeDest := λ _, mret tt;
     isDestructedType_nontrivial_c_struct := λ _, false;
     pastArgEnd := λ _, VoidTy |}.


(** A function body with one empty block. *)
Definition emptyBody : MLIRState :=
  {| ops := ∅;
     blocks := {[0 := {| blk_parent := Some 0; blk_ops := [] |}]};
     regions := {[0 := {| reg_blocks := [0] |}]};
     allocas := [];
     nextOp := 0; nextValue := 100; nextBlock := 1; nextRegion := 1;
     CounterAggTmp := 0 |}.

Definition atEndOfBody : option InsertPoint :=
  Some {| ip_block := 0; ip_before := None |}.

(** An aggregate argument of record type [S1] read from an alloca. *)
Definition ty_S1 : mlirType := RecordType "S1" [s32i; s32i].
Definition ty_S2 : mlirType := RecordType "S2" [s64i].
Definition aggAddr : Address :=
  {| getPointer := {| val_id := 7; val_type := PointerType ty_S1;
                      val_def := BlockArgument 0 |};
     getElementType := ty_S1; getAlignment := 4%N |}.
Definition aggArg : CallArg :=
  {| ca_value := HasRV (RValue_getAggregate aggAddr); Ty := RecordTy "S1" |}.

(** [int Int(int)] of the call-conv test, called with one argument from a
    function body whose builder stands at the end of the entry block. *)
Definition Int_fn : FuncOp :=
  {| fn_name := "_Z3Inti"; fn_type := FuncType [s32i] s32i false; fn_extraAttrs := ∅ |}.
Definition arg0 : Value :=
  {| val_id := 1; val_type := s32i; val_def := BlockArgument 0 |}.
Definition bodyState : CGFState :=
  {| mlir := emptyBody; builder_ip := atEndOfBody; typesState := noneInProgress;
     mayThrow := false; callWithExceptionCtx := None |}.

(** The call emitted invoke-wrapped, and emitted as a plain call. *)
Definition invoked : Outcome (OpId * CGFState) :=
  emitCallLikeOp (CGF0 false true) None None (Some Int_fn) [arg0] true cir_C
    SideEffect_All ∅ bodyState.
Definition called : Outcome (OpId * CGFState) :=
  emitCallLikeOp (CGF0 false false) None None (Some Int_fn) [arg0] false cir_C
    SideEffect_All ∅ bodyState.

Definition noSlot : ReturnValueSlot := {| getValue := None; rvs_isVolatile := false |}.

(** The declaration, callee and descriptor of [int Int(int)]. *)
Definition Int_decl : Decl :=
  {| decl_attrs := [];
     decl_kind := FunctionDecl (plainFunction (FunctionProtoType_type Int_proto)) |}.
Definition Int_callee : CIRGenCallee :=
  {| callee_kind := Callee_Ordinary;
     getAbstractInfo := calleeInfoOf (Some Int_proto) Int_decl;
     getFunctionPointer := Callee_FuncOp Int_fn |}.
Definition Int_FI : CIRGenFunctionInfo := mkFI false RequiredArgs_All s32 [s32].

(** The IR after the invoke-wrapped emission, the call operation in it and
    the result of the call. *)
Definition invokedIR : MLIRState :=
  match invoked with Done (_, s) => mlir s | Faulted _ => emptyBody end.
Definition invokedCall : OpId := 2.
Definition invokedResult : Value :=
  {| val_id := 100; val_type := s32i; val_def := DefinedBy invokedCall |}.
Definition endOfBody : InsertPoint := {| ip_block := 0; ip_before := None |}.

End Examples.

(* ================================================================== *)
(** ** Building the argument list of a call                            *)
(* ================================================================== *)

(** clang::CastKind, as far as argument emission looks at it. *)
Inductive AST_CastKind := CK_LValueToRValue | CK_NoOp.
#[global] Instance AST_CastKind_eq_dec : EqDecision AST_CastKind.
Proof. solve_decision. Defined.

(** An expression, as far as argument emission inspects it: its type, its
    value category, whether its object kind is OK_Ordinary, whether it is
    an ObjCIndirectCopyRestoreExpr, the cast kind and operand when it is an
    ImplicitCastExpr, and whether it is a null pointer constant. *)
#[warnings="-register-all"]
Inductive Expr := mkExpr {
  getType : QualType;
  isGLValue : bool;
  isOrdinaryObjectKind : bool;
  isObjCIndirectCopyRestoreExpr : bool;
  implicitCast : option (AST_CastKind * Expr);
  isNullPointerConstant : bool
}.

(** AggValueSlot: ignored, or a slot at an address. *)
Inductive AggValueSlot :=
| AggValueSlot_ignored
| AggValueSlot_forAddr (addr : Address).

(** PassObjectSizeAttr: [getType()] and [isDynamic()]. *)
Record PassObjectSizeAttr := {
  pos_getType : nat;
  pos_isDynamic : bool
}.

(** AbstractCallee: the declaration behind a call, if any.  For a function
    the list has one entry per parameter, with the pass_object_size
    attribute of that parameter when there is one. *)
Inductive AbstractCalleeDecl :=
| AC_FunctionDecl (params : list (option PassObjectSizeAttr))
| AC_ObjCMethodDecl
| AC_OtherDecl.

Definition AbstractCallee := option AbstractCalleeDecl.

Definition AC_hasFunctionDecl (AC : AbstractCallee) : bool :=
  match AC with Some (AC_FunctionDecl _) => true | _ => false end.
Definition AC_getNumParams (AC : AbstractCallee) : nat :=
  match AC with Some (AC_FunctionDecl params) => length params | _ => 0 end.
Definition AC_getPassObjectSizeAttr (AC : AbstractCallee) (I : nat)
  : option PassObjectSizeAttr :=
  match AC with Some (AC_FunctionDecl params) => mjoin (params !! I) | _ => None end.
Definition AC_isObjCMethodDecl (AC : AbstractCallee) : bool :=
  match AC with Some AC_ObjCMethodDecl => true | _ => false end.

(** PrototypeWrapper: a pointer union of a function prototype and an
    Objective-C method declaration, possibly null. *)
Inductive PrototypeWrapper :=
| Prototype_null
| Prototype_FunctionProtoType (FPT : FunctionProtoType)
| Prototype_ObjCMethodDecl.

Inductive EvaluationOrder := Order_Default | ForceLeftToRight | ForceRightToLeft.

(** A parameter variable of the current function. *)
Record ParmVarDecl := {
  param_type : QualType;
  param_needsDestruction : bool
}.

Inductive RecordArgABI := RAA_Default | RAA_DirectInMemory | RAA_Indirect.
#[global] Instance RecordArgABI_eq_dec : EqDecision RecordArgABI.
Proof. solve_decision. Defined.

(** What argument emission asks from the rest of CIRGenFunction and from
    the AST: type predicates that the type model does not decide, the
    target, the sanitizer options and the expression emitters, which are
    defined in other translation units and may emit IR. *)
Record ExprEmitter := {
  isReferenceType : QualType → bool;
  isParamDestroyedInCallee : string → bool;
  getRecordArgABI : string → RecordArgABI;
  isOSWindows : bool;
  getTypeSize : QualType → N;
  getPointerWidth : N;
  getIntPtrType : QualType;
  SanOpts_NonnullAttribute : bool;
  SanOpts_NullabilityArg : bool;
  CurFuncIsThunk : bool;
  emitReferenceBindingToExpr : Expr → Emit CGFState RValue;
  (* the l-value and the answer of [isSimple()] *)
  emitLValue : Expr → Emit CGFState (LValue * bool);
  CreateAggTemp : QualType → string → Emit CGFState AggValueSlot;
  emitAnyExpr : Expr → AggValueSlot → Emit CGFState RValue;
  evaluateOrEmitBuiltinObjectSize :
    Expr → nat → mlirType → Value → bool → Emit CGFState Value;
  GetAddrOfLocalVar : ParmVarDecl → Outcome Address;
  convertTempToRValue : Address → QualType → Emit CGFState RValue
}.

Definition hasAggregateEvaluationKind (CGF : CIRGenFunction) (T : QualType) : bool :=
  match getEvaluationKind CGF T with TEK_Aggregate => true | _ => false end.

Definition isRecordType (T : QualType) : bool :=
  match T with RecordTy _ => true | _ => false end.

(** [type->isIntegerType()] for the types of this model. *)
Definition isIntegerType (T : QualType) : bool :=
  match T with IntTy _ _ | BoolTy => true | _ => false end.

(** [args.add(rvalue, type)] and [args.addUncopiedAggregate(LV, type)]. *)
Definition CallArgList_add (args : CallArgList) (rvalue : RValue) (type : QualType)
  : CallArgList :=
  args ++ [{| ca_value := HasRV rvalue; Ty := type |}].

Definition addUncopiedAggregate (args : CallArgList) (LV : LValue) (type : QualType)
  : CallArgList :=
  args ++ [{| ca_value := HasLV LV; Ty := type |}].

(** hasInAllocaArgs. *)
Definition hasInAllocaArgs (Target : TargetCXXABI) (ExplicitCC : CallingConv)
    (ArgTypes : list QualType) : Outcome bool :=
  _ ← assert_ (bool_decide (ExplicitCC ≠ CC_Swift) &&
               bool_decide (ExplicitCC ≠ CC_SwiftAsync)) "Swift NYI";
  _ ← assert_ (negb (isMicrosoft Target)) "MSABI NYI";
  mret false.

(** CIRGenFunction::getVarArgType: on Windows a null pointer constant of a
    narrow integer type is widened to a pointer-sized integer. *)
Definition getVarArgType (EE : ExprEmitter) (Arg : Expr) : QualType :=
  if negb (isOSWindows EE) then getType Arg
  else if isIntegerType (getType Arg) &&
          bool_decide (getTypeSize EE (getType Arg) < getPointerWidth EE)%N &&
          isNullPointerConstant Arg
  then getIntPtrType EE
  else getType Arg.

(** CIRGenFunction::emitAnyExprToTemp. *)
Definition emitAnyExprToTemp (CGF : CIRGenFunction) (EE : ExprEmitter) (E : Expr)
  : Emit CGFState RValue :=
  AggSlot ← (if hasAggregateEvaluationKind CGF (getType E)
             then name ← liftMLIR getCounterAggTmpAsString;
                  CreateAggTemp EE (getType E) name
             else mret AggValueSlot_ignored);
  emitAnyExpr EE E AggSlot.

(** CIRGenFunction::emitCallArg.  [args] is a reference parameter: the
    result is the list after the call. *)
Definition emitCallArg (CGF : CIRGenFunction) (EE : ExprEmitter)
    (args : CallArgList) (E : Expr) (type : QualType) : Emit CGFState CallArgList :=
  _ ← lift (assert_ (negb (isObjCIndirectCopyRestoreExpr E)) "NYI");
  _ ← lift (assert_ (bool_decide (isReferenceType EE type = isGLValue E))
                    "reference binding to unmaterialized r-value!");
  if isGLValue E then
    _ ← lift (assert_ (isOrdinaryObjectKind E) "E->getObjectKind() == OK_Ordinary");
    rv ← emitReferenceBindingToExpr EE E;
    mret (CallArgList_add args rv type)
  else
    let HasAggregateEvalKind := hasAggregateEvaluationKind CGF type in
    (* In the Microsoft C++ ABI, aggregate arguments are destructed by the
       callee. *)
    _ ← (if match type with
            | RecordTy name => isParamDestroyedInCallee EE name
            | _ => false
            end
         then lift (llvm_unreachable "Microsoft C++ ABI is NYI") else mret tt);
    match implicitCast E with
    | Some (CK_LValueToRValue, SubExpr) =>
        if HasAggregateEvalKind then
          L ← emitLValue EE SubExpr;
          _ ← lift (assert_ L.2 "L.isSimple()");
          mret (addUncopiedAggregate args L.1 type)
        else
          rv ← emitAnyExprToTemp CGF EE E;
          mret (CallArgList_add args rv type)
    | _ =>
        rv ← emitAnyExprToTemp CGF EE E;
        mret (CallArgList_add args rv type)
    end.

(** [std::swap(Args.back(), *(&Args.back() - 1))]. *)
Definition swap_last_two {A} (l : list A) : list A :=
  match reverse l with
  | x :: y :: rest => reverse rest ++ [x; y]
  | _ => l
  end.

(** The lambda MaybeEmitImplicitObjectSize of emitCallArgs. *)
Definition MaybeEmitImplicitObjectSize (CGF : CIRGenFunction) (EE : ExprEmitter)
    (AC : AbstractCallee) (LeftToRight : bool) (Args : CallArgList)
    (I : nat) (Arg : Expr) (EmittedArg : RValue) : Emit CGFState CallArgList :=
  if negb (AC_hasFunctionDecl AC) || bool_decide (AC_getNumParams AC ≤ I)
  then mret Args
  else
    match AC_getPassObjectSizeAttr AC I with
    | None => mret Args
    | Some PS =>
        let SizeTy := getSizeType (astContext (getTypes CGF)) in
        let T := IntType (getTypeSize EE SizeTy) false in
        V0 ← lift (getScalarVal EmittedArg);
        V ← evaluateOrEmitBuiltinObjectSize EE Arg (pos_getType PS) T V0
              (pos_isDynamic PS);
        let Args := CallArgList_add Args (RValue_get V) SizeTy in
        (* If we're emitting args in reverse, be sure to do so with
           pass_object_size, as well. *)
        if negb LeftToRight then mret (swap_last_two Args) else mret Args
    end.

(** One round of the loop "Evaluate each argument in the appropriate
    order" of emitCallArgs. *)
Definition emitCallArgs_step (CGF : CIRGenFunction) (EE : ExprEmitter)
    (AC : AbstractCallee) (LeftToRight : bool) (ArgRange : list Expr)
    (ArgTypes : list QualType) (E : nat) (I : nat) (Args : CallArgList)
  : Emit CGFState CallArgList :=
  let Idx := if LeftToRight then I else E - I - 1 in
  match ArgRange !! Idx, ArgTypes !! Idx with
  | Some Arg, Some T =>
      let InitialArgSize := length Args in
      _ ← lift (assert_ (negb (isObjCIndirectCopyRestoreExpr Arg)) "NYI");
      _ ← lift (assert_ (negb (AC_isObjCMethodDecl AC)) "NYI");
      Args ← emitCallArg CGF EE Args Arg T;
      _ ← lift (assert_ (bool_decide (InitialArgSize + 1 = length Args))
                  "The code below depends on only adding one arg per emitCallArg");
      match last Args with
      | None => lift (Faulted (AssertionFailure "Args.back() on an empty list"))
      | Some back =>
          (* Since pointer argument are never emitted as LValue, it is safe
             to emit non-null argument check for r-value only. *)
          if negb (hasLValue back) then
            RVArg ← lift (getKnownRValue back);
            _ ← lift (assert_ (negb (SanOpts_NonnullAttribute EE)) "Sanitizers NYI");
            _ ← lift (assert_ (negb (SanOpts_NullabilityArg EE)) "Sanitizers NYI");
            MaybeEmitImplicitObjectSize CGF EE AC LeftToRight Args Idx Arg RVArg
          else mret Args
      end
  | _, _ => lift (Faulted (AssertionFailure "argument index out of range"))
  end.

Fixpoint emitCallArgs_loop (CGF : CIRGenFunction) (EE : ExprEmitter)
    (AC : AbstractCallee) (LeftToRight : bool) (ArgRange : list Expr)
    (ArgTypes : list QualType) (E : nat) (Is : list nat) (Args : CallArgList)
  : Emit CGFState CallArgList :=
  match Is with
  | [] => mret Args
  | i :: Is =>
      Args ← emitCallArgs_step CGF EE AC LeftToRight ArgRange ArgTypes E i Args;
      emitCallArgs_loop CGF EE AC LeftToRight ArgRange ArgTypes E Is Args
  end.

(** The argument types emitCallArgs works with: those of the prototype
    behind the skipped parameters ([ArgTypes.assign]), then the type of
    each further argument ([llvm::drop_begin]).  The source checks
    neither range: only the final size assertion is in the code. *)
Definition emitCallArgs_ArgTypes (EE : ExprEmitter) (Prototype : PrototypeWrapper)
    (ArgRange : list Expr) (ParamsToSkip : nat)
  : Outcome (CallingConv * list QualType) :=
  let ExplicitCC := CC_C in
  let IsVariadic := false in
  '(IsVariadic, ExplicitCC, ArgTypes) ← (match Prototype with
       | Prototype_null => mret (IsVariadic, ExplicitCC, [])
       | Prototype_ObjCMethodDecl => Faulted (AssertionFailure "ObjCMethodDecl NYI")
       | Prototype_FunctionProtoType FPT =>
           mret (isVariadic_proto FPT, getCC (getExtInfo FPT),
                 drop ParamsToSkip (fpt_ParamTypes FPT))
       end : Outcome (bool * CallingConv * list QualType));
  (* If we still have any arguments, emit them using the type of the
     argument. *)
  let ArgTypes :=
    ArgTypes ++ map (λ A, if (IsVariadic : bool) then getVarArgType EE A else getType A)
                    (drop (length ArgTypes) ArgRange) in
  _ ← assert_ (bool_decide (length ArgTypes = length ArgRange))
              "(int)ArgTypes.size() == (ArgRange.end() - ArgRange.begin())";
  mret (ExplicitCC, ArgTypes).

(** CIRGenFunction::emitCallArgs.  [Args] is a reference parameter: the
    result is the list after the call. *)
Definition emitCallArgs (CGF : CIRGenFunction) (EE : ExprEmitter)
    (Args : CallArgList) (Prototype : PrototypeWrapper) (ArgRange : list Expr)
    (AC : AbstractCallee) (ParamsToSkip : nat) (Order : EvaluationOrder)
  : Emit CGFState CallArgList :=
  _ ← lift (assert_ (bool_decide (ParamsToSkip = 0) ||
                     match Prototype with Prototype_null => false | _ => true end)
                    "Can't skip parameters if type info is not provided");
  r ← lift (emitCallArgs_ArgTypes EE Prototype ArgRange ParamsToSkip);
  let ExplicitCC := r.1 in
  let ArgTypes := r.2 in
  (* We must evaluate arguments from right to left in the MS C++ ABI; that
     ABI is refused below, so the order is always left to right. *)
  let LeftToRight := true in
  _ ← lift (assert_ (negb (areArgsDestroyedLeftToRightInCallee (Target (getTypes CGF))))
                    "MSABI NYI");
  inAlloca ← lift (hasInAllocaArgs (Target (getTypes CGF)) ExplicitCC ArgTypes);
  _ ← lift (assert_ (negb inAlloca) "NYI");
  (* Evaluate each argument in the appropriate order. *)
  let CallArgsStart := length Args in
  let E := length ArgTypes in
  Args ← emitCallArgs_loop CGF EE AC LeftToRight ArgRange ArgTypes E (seq 0 E) Args;
  if negb LeftToRight then
    (* Un-reverse the arguments we just evaluated so they match up with the
       CIR function. *)
    mret (take CallArgsStart Args ++ reverse (drop CallArgsStart Args))
  else mret Args.

(** isInAllocaArgument. *)
Definition isInAllocaArgument (EE : ExprEmitter) (type : QualType) : bool :=
  match type with
  | RecordTy RD => bool_decide (getRecordArgABI EE RD = RAA_DirectInMemory)
  | _ => false
  end.

(** CIRGenFunction::emitDelegateCallArg: the parameter of the current
    function, read back from its local slot, as an argument. *)
Definition emitDelegateCallArg (CGF : CIRGenFunction) (EE : ExprEmitter)
    (args : CallArgList) (param : ParmVarDecl) : Emit CGFState CallArgList :=
  local ← lift (GetAddrOfLocalVar EE param);
  let type := param_type param in
  _ ← (if isInAllocaArgument EE type then lift (llvm_unreachable "NYI") else mret tt);
  (* GetAddrOfLocalVar returns a pointer-to-pointer for references, but the
     argument needs to be the original pointer. *)
  args ← (if isReferenceType EE type then
            s ← get_state;
            v ← liftMLIR (createLoad (builder_ip s) local);
            mret (CallArgList_add args (RValue_get v) type)
          else if ObjCAutoRefCount (getLangOpts (CGM CGF)) then
            lift (llvm_unreachable "NYI")
          else
            rv ← convertTempToRValue EE local type;
            mret (CallArgList_add args rv type));
  (* Deactivate the cleanup for the callee-destructed param that was
     pushed. *)
  _ ← (if match type with
          | RecordTy name =>
              negb (CurFuncIsThunk EE) && isParamDestroyedInCallee EE name &&
              param_needsDestruction param
          | _ => false
          end
       then lift (llvm_unreachable "NYI") else mret tt);
  mret args.

(* ================================================================== *)
(** ** Runtime calls and the function type of a vtable slot            *)
(* ================================================================== *)

(** CIRGenFunction::emitRuntimeCall: a direct call with the default
    convention, side effect and (empty) extra attributes of
    [createCallOp]; the null value for a callee without result. *)
Definition emitRuntimeCall (callee : FuncOp) (args : list Value)
  : Emit CGFState (option Value) :=
  s ← get_state;
  call ← liftMLIR (createCallLike (builder_ip s) (DirectCallee (fn_name callee))
                     (fn_type callee) args false cir_C SideEffect_All ∅);
  s ← get_state;
  let results := default [] (op_results <$> ops (mlir s) !! call) in
  _ ← lift (assert_ (bool_decide (length results ≤ 1))
                    "runtime functions have at most 1 result");
  if bool_decide (length results = 0) then mret None
  else mret (head results).

(** CIRGenTypes::GetFunctionTypeForVTable.  [isFuncTypeConvertible] is a
    member of CIRGenTypes defined in another translation unit. *)
Definition GetFunctionTypeForVTable (CGT : CIRGenTypes)
    (isFuncTypeConvertible : option FunctionProtoType → bool)
    (convertType : QualType → Emit CIRGenTypesState mlirType)
    (GD : GlobalDecl) : Emit CIRGenTypesState mlirType :=
  match getDecl GD with
  | None => lift (Faulted (AssertionFailure "cast<CXXMethodDecl>() on a null declaration"))
  | Some D =>
    match dyn_cast_FunctionDecl D, dyn_cast_CXXMethodDecl D with
    | Some fd, Some MD =>
        let FPT := getAs_FunctionProtoType (fd_type fd) in
        if negb (isFuncTypeConvertible FPT) then lift (llvm_unreachable "NYI")
        else GetFunctionType_GlobalDecl CGT convertType GD
    | _, _ =>
        lift (Faulted (AssertionFailure
                         "cast<CXXMethodDecl>() argument of incompatible type"))
    end
  end.

(* ================================================================== *)
(** ** Descriptions used in the statements                             *)
(* ================================================================== *)

(** The argument-type and extended-info arrays that a prototype with
    extended parameter infos unfolds to: a size-typed argument with a
    default info follows each pass_object_size parameter. *)
Definition expandedTypes (sizeT : QualType)
    (l : list (QualType * ExtParameterInfo)) : list QualType :=
  l ≫= λ TE, if hasPassObjectSize TE.2 then [TE.1; sizeT] else [TE.1].

Definition expandedInfos (l : list ExtParameterInfo) : list ExtParameterInfo :=
  l ≫= λ E, if hasPassObjectSize E then [E; ExtParameterInfo_default] else [E].

Definition passObjectSizeCount (FPT : FunctionProtoType) : nat :=
  length (filter (λ e, hasPassObjectSize e = true) (getExtParameterInfos FPT)).

(** What one argument expression contributes to the argument list: the
    argument itself, recorded under the type [T], and behind it, for a
    parameter with pass_object_size whose argument is an r-value, the
    implicit object size as a scalar of the size type. *)
Definition argumentGroup (CGF : CIRGenFunction) (AC : AbstractCallee) (I : nat)
    (T : QualType) (g : list CallArg) : Prop :=
  ∃ a, Ty a = T ∧
       if bool_decide (is_Some (AC_getPassObjectSizeAttr AC I)) && negb (hasLValue a)
       then ∃ V, g = [a; {| ca_value := HasRV (RValue_get V);
                            Ty := getSizeType (astContext (getTypes CGF)) |}]
       else g = [a].

(** The names under which the unit stores attributes. *)
Definition synthesizedNames : list string :=
  ["nothrow"; "convergent"; "cl.kernel"; "cl.uniform_work_group_size";
   "cu.kernel_name"].

(** The side-effect class a declaration's attributes ask for. *)
Definition sideEffectOf (TargetDecl : option Decl) : SideEffect :=
  match TargetDecl with
  | Some D => if hasAttr D ConstAttr then SideEffect_Const
              else if hasAttr D PureAttr then SideEffect_Pure
              else SideEffect_All
  | None => SideEffect_All
  end.

(** ** What attribute synthesis binds *)

(** OpenCL work groups are uniform up to version 1.2, and later when the
    uniform-block option is given. *)
Definition uniformWorkGroupSize (langOpts : LangOptions) : bool :=
  bool_decide (OpenCLVersion langOpts ≤ 120) || OffloadUniformBlock langOpts.

(** Host-side CUDA compilation, where a kernel stub carries the name of
    its kernel. *)
Definition namesKernelOnHost (langOpts : LangOptions) : bool :=
  CUDA langOpts && negb (CUDAIsDevice langOpts).

(** The attribute that synthesis binds to a name, if it binds the name. *)
Definition synthesized (CGM : CIRGenModule) (CalleeInfo : CIRGenCalleeInfo)
    (name : string) : option Attribute :=
  let TargetDecl := getDecl (getCalleeDecl CalleeInfo) in
  let langOpts := getLangOpts CGM in
  if decide (name = "nothrow") then
    if synthesizesNoThrow CGM CalleeInfo then Some cir_NoThrowAttr else None
  else if decide (name = "convergent") then
    if assumeFunctionsAreConvergent langOpts then Some cir_ConvergentAttr else None
  else if decide (name = "cl.kernel") then
    if TargetDecl_hasAttr TargetDecl OpenCLKernelAttr then Some cir_OpenCLKernelAttr
    else None
  else if decide (name = "cl.uniform_work_group_size") then
    if TargetDecl_hasAttr TargetDecl OpenCLKernelAttr && uniformWorkGroupSize langOpts
    then Some cir_OpenCLKernelUniformWorkGroupSizeAttr else None
  else if decide (name = "cu.kernel_name") then
    if namesKernelOnHost langOpts && TargetDecl_hasAttr TargetDecl CUDAGlobalAttr
    then Some (cir_CUDAKernelNameAttr (getMangledName CGM (getCalleeDecl CalleeInfo)))
    else None
  else None.

(* ================================================================== *)
(** ** Further concrete inputs                                         *)
(* ================================================================== *)

Module Scenarios.

(** A converter for scalars, pointers and (opaque) records. *)
Fixpoint lowerType (T : QualType) : mlirType :=
  match T with
  | VoidTy => VoidType
  | BoolTy => BoolType
  | IntTy w s => IntType w s
  | FloatTy => SingleType
  | DoubleTy => DoubleType
  | PointerTy p _ => PointerType (lowerType p)
  | RecordTy n => RecordType n []
  | _ => NullType
  end.

(** [struct C { virtual int m(int); };]: the method [C::m]. *)
Definition C_m : Decl :=
  {| decl_attrs := [];
     decl_kind := CXXMethodDecl
       (Examples.plainFunction (FunctionProtoType_type Examples.Int_proto))
       {| md_Parent := Some "C"; md_isVirtual := true; md_isInstance := true;
          md_AddressSpace := 0%N |} |}.

Definition C_m_GD : GlobalDecl := {| getDecl := Some C_m; getCtorType := Ctor_Complete |}.

Definition C_this : QualType := PointerTy (RecordTy "C") 0.

(** The base-object destructor [D::~D()] of a class with virtual bases. *)
Definition D_dtor : GlobalDecl :=
  {| getDecl := Some {| decl_attrs := [];
                        decl_kind := CXXDestructorDecl
                          (Examples.plainFunction
                             (FunctionProtoTy VoidTy [] (Examples.plainProto false)))
                          {| md_Parent := Some "D"; md_isVirtual := true;
                             md_isInstance := true; md_AddressSpace := 0%N |} |};
     getCtorType := Ctor_Base |}.


(** The expression services of a non-Windows target without sanitizers
    for code without references: every scalar expression evaluates to
    the first block argument and no IR is emitted. *)
Definition EE0 : ExprEmitter :=
  {| isReferenceType := λ _, false;
     isParamDestroyedInCallee := λ _, false;
     getRecordArgABI := λ _, RAA_Default;
     isOSWindows := false;
     getTypeSize := λ _, 64%N;
     getPointerWidth := 64%N;
     getIntPtrType := IntTy 64 true;
     SanOpts_NonnullAttribute := false;
     SanOpts_NullabilityArg := false;
     CurFuncIsThunk := false;
     emitReferenceBindingToExpr := λ _, mret (RValue_get Examples.arg0);
     emitLValue := λ _, mret ({| lv_Address := Examples.aggAddr;
                                 lv_isVolatile := false |}, true);
     CreateAggTemp := λ _ _, mret AggValueSlot_ignored;
     emitAnyExpr := λ _ _, mret (RValue_get Examples.arg0);
     evaluateOrEmitBuiltinObjectSize := λ _ _ _ V _, mret V;
     GetAddrOfLocalVar := λ _, Done Examples.aggAddr;
     convertTempToRValue :=
       λ a T, mret (match T with
                    | RecordTy _ => RValue_getAggregate a
                    | _ => RValue_get Examples.arg0
                    end) |}.

(** A prvalue expression of type [T]. *)
Definition prvalue (T : QualType) : Expr :=
  {| getType := T; isGLValue := false; isOrdinaryObjectKind := true;
     isObjCIndirectCopyRestoreExpr := false; implicitCast := None;
     isNullPointerConstant := false |}.

(** The callee [void f(void *p __attribute__((pass_object_size(0))), int)]
    of the call [f(p, 1)]. *)
Definition pos_callee : AbstractCallee :=
  Some (AC_FunctionDecl [Some {| pos_getType := 0; pos_isDynamic := false |}; None]).
Definition pos_call_args : list Expr :=
  [prvalue VoidPtrTy; prvalue Examples.s32].

(** A parameter [S1 s] of the current function. *)
Definition S1_param : ParmVarDecl :=
  {| param_type := RecordTy "S1"; param_needsDestruction := false |}.

(** A function body holding one call [make()] that returns a record, and
    the result of that call. *)
Definition make_fnTy : mlirType := FuncType [] (RecordType "S1" []) false.
Definition recordCallIR : MLIRState :=
  match createCallLike Examples.atEndOfBody (DirectCallee "_Z4makev") make_fnTy []
          false cir_C SideEffect_All ∅ Examples.emptyBody with
  | Done (_, st) => st
  | Faulted _ => Examples.emptyBody
  end.
Definition recordCallResult : Value :=
  {| val_id := 100; val_type := RecordType "S1" []; val_def := DefinedBy 0 |}.

End Scenarios.

(* ================================================================== *)
(** * Properties                                                       *)
(* ================================================================== *)

(** Unfolding of the monadic plumbing. *)
Ltac unfold_monad :=
  unfold mbind, mret, Outcome_bind, Outcome_ret, Emit_bind, Emit_ret,
         lift, assert_, llvm_unreachable, get_state, put_state in *.

Lemma assert_Done (c : bool) (msg : string) (u : unit) :
  assert_ c msg = Done u → c = true.
Proof. unfold assert_. destruct c; [done | discriminate]. Qed.

(** ** The descriptor factory *)

Lemma create_arguments cirCC im cc info paramInfos resultType argTypes required FI :
  create cirCC im cc info paramInfos resultType argTypes required = Done FI →
  arguments FI = argTypes ∧ NumArgs FI = length argTypes ∧
  getReturnType FI = resultType ∧ Required FI = required ∧
  ExtParameterInfosBuffer FI = paramInfos.
Proof.
  unfold create. unfold_monad.
  repeat case_match; try discriminate.
  intros [= <-]. unfold arguments, getReturnType. simpl.
  rewrite drop_0, firstn_all. done.
Qed.

(** C2: every descriptor that the factory constructs has an extended-info
    sequence of length zero or of length equal to the number of argument
    types. *)
Theorem C2_ext_info_length cirCC im cc info paramInfos resultType argTypes required FI :
  create cirCC im cc info paramInfos resultType argTypes required = Done FI →
  length (ExtParameterInfosBuffer FI) = 0 ∨
  length (ExtParameterInfosBuffer FI) = length (arguments FI).
Proof.
  intros H. destruct (create_arguments _ _ _ _ _ _ _ _ _ H) as (-> & _ & _ & _ & ->).
  unfold create in H. unfold_monad.
  destruct (bool_decide (paramInfos = []) || bool_decide (length paramInfos = length argTypes)) eqn:E;
    [| discriminate].
  apply orb_true_iff in E as [E | E]; apply bool_decide_eq_true in E.
  - left. by rewrite E.
  - by right.
Qed.

Lemma C2_ext_info_length_witness :
  ∃ FI, create cir_C false false Examples.ExtInfo_C
               [Examples.pos_info; ExtParameterInfo_default; ExtParameterInfo_default]
               VoidTy [VoidPtrTy; IntTy 64 false; Examples.s32] RequiredArgs_All
        = Done FI ∧
        (length (ExtParameterInfosBuffer FI) = 0 ∨
         length (ExtParameterInfosBuffer FI) = length (arguments FI)).
Proof.
  eexists. split; [reflexivity |].
  exact (C2_ext_info_length cir_C false false Examples.ExtInfo_C
           [Examples.pos_info; ExtParameterInfo_default; ExtParameterInfo_default]
           VoidTy [VoidPtrTy; IntTy 64 false; Examples.s32] RequiredArgs_All _ eq_refl).
Defined.

(** The factory rejects a non-empty extended-info sequence of any other
    length. *)
Lemma create_rejects_mismatch cirCC im cc info paramInfos resultType argTypes required :
  paramInfos ≠ [] → length paramInfos ≠ length argTypes →
  create cirCC im cc info paramInfos resultType argTypes required =
  Faulted (AssertionFailure "paramInfos.empty() || paramInfos.size() == argTypes.size()").
Proof.
  intros H1 H2. unfold create. unfold_monad.
  rewrite (bool_decide_eq_false_2 _ H1), (bool_decide_eq_false_2 _ H2). done.
Qed.

(** The factory succeeds exactly when its two assertions hold. *)
Lemma create_Done_iff cirCC im cc info paramInfos resultType argTypes required :
  (∃ FI, create cirCC im cc info paramInfos resultType argTypes required = Done FI) ↔
  (paramInfos = [] ∨ length paramInfos = length argTypes) ∧
  (allowsOptionalArgs required = true →
   RequiredArgs_getNumRequiredArgs required ≤ length argTypes).
Proof.
  unfold create. unfold_monad. split.
  - intros [FI H].
    destruct (bool_decide (paramInfos = []) || _) eqn:E1; [| discriminate].
    destruct (negb (allowsOptionalArgs required) || _) eqn:E2; [| discriminate].
    split.
    + apply orb_true_iff in E1 as [E | E]; apply bool_decide_eq_true in E; auto.
    + intros Hv. rewrite Hv in E2. simpl in E2. by apply bool_decide_eq_true in E2.
  - intros [H1 H2].
    assert ((bool_decide (paramInfos = []) ||
             bool_decide (length paramInfos = length argTypes)) = true) as ->.
    { apply orb_true_iff. destruct H1; [left | right]; by apply bool_decide_eq_true. }
    assert ((negb (allowsOptionalArgs required) ||
             bool_decide (RequiredArgs_getNumRequiredArgs required ≤ length argTypes)) = true) as ->.
    { destruct (allowsOptionalArgs required) eqn:E; simpl; [| done].
      apply bool_decide_eq_true. auto. }
    eauto.
Qed.

(** ** Machine function types *)

Lemma mapE_Forall2 {S A B} (f : A → Emit S B) (l : list A) (s s' : S) (ys : list B) :
  mapE f l s = Done (ys, s') →
  Forall2 (λ x y, ∃ a b, f x a = Done (y, b)) l ys.
Proof.
  revert s ys. induction l as [| x xs IH]; intros s ys; simpl; unfold_monad.
  - intros [= <- <-]. constructor.
  - destruct (f x s) as [[y s1] |] eqn:E1; [| discriminate].
    destruct (mapE f xs s1) as [[ys' s2] |] eqn:E2; [| discriminate].
    intros [= <- <-]. constructor; eauto.
Qed.

Lemma mapE_pure {S A B} (f : A → B) (l : list A) (s : S) :
  mapE (λ x, mret (f x)) l s = Done (f <$> l, s).
Proof.
  induction l as [| x xs IH]; simpl; unfold_monad; [done |].
  unfold_monad. by rewrite IH.
Qed.

(** A descriptor that is in the in-progress set is rejected before the
    converter is consulted. *)
Lemma GetFunctionType_in_progress convertType FI st :
  FI ∈ FunctionsBeingProcessed st →
  GetFunctionType convertType FI st =
  Faulted (AssertionFailure "Recursively being processed?").
Proof.
  intros H. unfold GetFunctionType, FunctionsBeingProcessed_insert. unfold_monad.
  destruct (decide (FI ∈ FunctionsBeingProcessed st)); [done | contradiction].
Qed.

(** What a successful construction went through. *)
Lemma GetFunctionType_Done convertType FI st ty st' :
  GetFunctionType convertType FI st = Done (ty, st') →
  (FI ∉ FunctionsBeingProcessed st) ∧
  ∃ resultType s1 ArgTypes s2,
    convertType (getReturnType FI)
      {| FunctionsBeingProcessed := FI :: FunctionsBeingProcessed st |}
      = Done (resultType, s1) ∧
    mapE convertType (requiredArguments FI) s1 = Done (ArgTypes, s2) ∧
    FI ∈ FunctionsBeingProcessed s2 ∧
    st' = {| FunctionsBeingProcessed :=
               filter (λ x, x ≠ FI) (FunctionsBeingProcessed s2) |} ∧
    ty = FuncType ArgTypes (if isNull resultType then VoidType else resultType)
                  (isVariadic FI).
Proof.
  unfold GetFunctionType, FunctionsBeingProcessed_insert, FunctionsBeingProcessed_erase.
  unfold_monad.
  destruct (decide (FI ∈ FunctionsBeingProcessed st)) as [Hin | Hnin]; [discriminate |].
  simpl.
  destruct (convertType (getReturnType FI) _) as [[resultType s1] |] eqn:E1; [| discriminate].
  destruct (mapE convertType (requiredArguments FI) s1) as [[ArgTypes s2] |] eqn:E2;
    [| discriminate].
  destruct (bool_decide (FI ∈ FunctionsBeingProcessed s2)) eqn:E3; [| discriminate].
  intros [= <- <-]. split; [done |].
  apply bool_decide_eq_true in E3. eauto 10.
Qed.

(** With a converter that is a pure function the construction succeeds on
    every descriptor that is not in progress, and restores the set. *)
Lemma GetFunctionType_pure (conv : QualType → mlirType) FI st :
  FI ∉ FunctionsBeingProcessed st →
  GetFunctionType (λ T, mret (conv T)) FI st =
  Done (FuncType (conv <$> requiredArguments FI)
                 (if isNull (conv (getReturnType FI)) then VoidType
                  else conv (getReturnType FI))
                 (isVariadic FI), st).
Proof.
  intros Hnin.
  unfold GetFunctionType, FunctionsBeingProcessed_insert, FunctionsBeingProcessed_erase.
  unfold_monad.
  destruct (decide (FI ∈ FunctionsBeingProcessed st)); [contradiction |]. simpl.
  pose proof (mapE_pure (S:=CIRGenTypesState) conv (requiredArguments FI)) as Hm.
  unfold_monad. rewrite Hm. simpl.
  rewrite bool_decide_eq_true_2 by (by left).
  rewrite filter_cons_False by (intros H; by apply H).
  assert (filter (λ x, x ≠ FI) (FunctionsBeingProcessed st) = FunctionsBeingProcessed st) as ->.
  { clear -Hnin. induction (FunctionsBeingProcessed st) as [| y l IH]; [done |].
    apply not_elem_of_cons in Hnin as [Hne Hl].
    rewrite filter_cons_True by done. by rewrite IH. }
  by destruct st.
Qed.

(** For a descriptor that the factory built, the required arguments are a
    prefix of the argument types of length [getNumRequiredArgs]. *)
Lemma requiredArguments_create cirCC im cc info paramInfos resultType argTypes required FI :
  create cirCC im cc info paramInfos resultType argTypes required = Done FI →
  requiredArguments FI = take (getNumRequiredArgs FI) argTypes ∧
  length (requiredArguments FI) = getNumRequiredArgs FI ∧
  getNumRequiredArgs FI ≤ length argTypes.
Proof.
  intros H.
  assert (∃ FI, create cirCC im cc info paramInfos resultType argTypes required = Done FI)
    as Hex by eauto.
  apply create_Done_iff in Hex as [_ Hreq].
  unfold create in H. unfold_monad. repeat case_match; try discriminate.
  injection H as <-.
  unfold requiredArguments, getNumRequiredArgs, isVariadic, arg_size. simpl.
  rewrite drop_0.
  destruct (allowsOptionalArgs required) eqn:E.
  - specialize (Hreq eq_refl). rewrite length_take_le by done. done.
  - rewrite length_take_le by done. done.
Qed.

(** C10: the machine function type built from a descriptor has exactly the
    converted types of the required arguments as inputs (the optional
    variadic tail contributes none; for a descriptor of the factory their
    number is the required-argument count), its variadic flag is the
    descriptor's, and a null converted return type is replaced by the void
    type.  With a converter that has no effect and a descriptor that is not
    in progress, the type is built and the in-progress set is unchanged. *)
Theorem C10_machine_function_type convertType FI st :
  (∀ ty st',
     GetFunctionType convertType FI st = Done (ty, st') →
     ∃ resultType ArgTypes,
       ty = FuncType ArgTypes (if isNull resultType then VoidType else resultType)
                     (isVariadic FI) ∧
       (∃ s s', convertType (getReturnType FI) s = Done (resultType, s')) ∧
       Forall2 (λ T mT, ∃ s s', convertType T s = Done (mT, s'))
               (requiredArguments FI) ArgTypes ∧
       getNumInputs ty = length (requiredArguments FI) ∧
       (∀ cirCC im cc info paramInfos resultType0 argTypes required,
           create cirCC im cc info paramInfos resultType0 argTypes required = Done FI →
           getNumInputs ty = getNumRequiredArgs FI ∧
           getNumRequiredArgs FI ≤ length argTypes) ∧
       isVarArg ty = isVariadic FI ∧
       FuncType_getReturnType ty ≠ NullType ∧
       (resultType = NullType → FuncType_getReturnType ty = VoidType)) ∧
  (∀ conv : QualType → mlirType,
     FI ∉ FunctionsBeingProcessed st →
     GetFunctionType (λ T, mret (conv T)) FI st =
     Done (FuncType (conv <$> requiredArguments FI)
                    (if isNull (conv (getReturnType FI)) then VoidType
                     else conv (getReturnType FI))
                    (isVariadic FI), st)).
Proof.
  split; [| intros conv; apply GetFunctionType_pure].
  intros ty st' H. apply GetFunctionType_Done in H
    as (_ & resultType & s1 & ArgTypes & s2 & Hr & Ha & _ & _ & ->).
  exists resultType, ArgTypes. split; [done |]. split; [eauto |].
  pose proof (mapE_Forall2 _ _ _ _ _ Ha) as HF. split; [done |].
  assert (getNumInputs (FuncType ArgTypes
                          (if isNull resultType then VoidType else resultType)
                          (isVariadic FI))
          = length (requiredArguments FI)) as Hn.
  { unfold getNumInputs. simpl. symmetry. by eapply Forall2_length. }
  split; [done |]. split; [| split; [done |]].
  - intros cirCC im cc info paramInfos resultType0 argTypes required Hc.
    destruct (requiredArguments_create _ _ _ _ _ _ _ _ _ Hc) as (_ & Hl & Hle).
    rewrite Hn, Hl. done.
  - simpl. split.
    + destruct resultType; simpl; discriminate.
    + by intros ->.
Qed.

Lemma C10_machine_function_type_witness :
  arrangeFreeFunctionType Examples.CGT0 Examples.variadic_proto
    = Done Examples.variadic_FI ∧
  GetFunctionType (λ T, mret (Examples.scalarConvert T)) Examples.variadic_FI
    Examples.noneInProgress
    = Done (FuncType [Examples.s32i] Examples.s32i true, Examples.noneInProgress) ∧
  getNumInputs (FuncType [Examples.s32i] Examples.s32i true)
    = length (requiredArguments Examples.variadic_FI) ∧
  isVarArg (FuncType [Examples.s32i] Examples.s32i true)
    = isVariadic Examples.variadic_FI.
Proof.
  split; [reflexivity |].
  destruct (C10_machine_function_type (λ T, mret (Examples.scalarConvert T))
              Examples.variadic_FI Examples.noneInProgress) as [Hshape Hpure].
  pose proof (Hpure Examples.scalarConvert (not_elem_of_nil _)) as H.
  split; [exact H |].
  destruct (Hshape _ _ H) as (r & a & Hty & _ & _ & Hn & _ & Hv & _).
  exact (conj Hn Hv).
Defined.

(** ** The re-entrancy guard *)



(** A converter that leaves the in-progress set as it found it gets it
    back unchanged from a successful construction. *)
Lemma mapE_preserves {S A B X} (proj : S → X) (f : A → Emit S B) (l : list A) :
  (∀ x s y s', f x s = Done (y, s') → proj s' = proj s) →
  ∀ s ys s', mapE f l s = Done (ys, s') → proj s' = proj s.
Proof.
  intros Hf. induction l as [| x xs IH]; intros s ys s'; simpl; unfold_monad.
  - by intros [= _ <-].
  - destruct (f x s) as [[y s1] |] eqn:E1; [| discriminate].
    destruct (mapE f xs s1) as [[ys' s2] |] eqn:E2; [| discriminate].
    intros [= _ <-]. rewrite (IH _ _ _ E2). eauto.
Qed.

Lemma filter_ne_cons_not_in (FI : CIRGenFunctionInfo) (l : list CIRGenFunctionInfo) :
  FI ∉ l → filter (λ x, x ≠ FI) (FI :: l) = l.
Proof.
  intros Hnin. rewrite filter_cons_False by (intros H; by apply H).
  induction l as [| y l IH]; [done |].
  apply not_elem_of_cons in Hnin as [Hne Hl].
  rewrite filter_cons_True by done. by rewrite IH.
Qed.

Lemma GetFunctionType_restores convertType FI st ty st' :
  (∀ T s mT s', convertType T s = Done (mT, s') →
                FunctionsBeingProcessed s' = FunctionsBeingProcessed s) →
  GetFunctionType convertType FI st = Done (ty, st') →
  FunctionsBeingProcessed st' = FunctionsBeingProcessed st.
Proof.
  intros Hc H. apply GetFunctionType_Done in H
    as (Hnin & resultType & s1 & ArgTypes & s2 & Hr & Ha & _ & -> & _).
  simpl. apply Hc in Hr.
  apply (mapE_preserves FunctionsBeingProcessed _ _ Hc) in Ha.
  rewrite Ha, Hr. simpl. by apply filter_ne_cons_not_in.
Qed.

(** The model converter keeps the in-progress set balanced. *)
Lemma convertTypeModel_restores CGT recordFields fuel :
  ∀ T s mT s', convertTypeModel CGT recordFields fuel T s = Done (mT, s') →
               FunctionsBeingProcessed s' = FunctionsBeingProcessed s.
Proof.
  induction fuel as [| fuel IH]; intros T s mT s'; simpl; [discriminate |].
  destruct T; unfold_monad.
  1-5: by intros [= _ <-].
  - destruct (convertTypeModel _ _ fuel T s) as [[t s1] |] eqn:E; [| discriminate].
    intros [= _ <-]. eauto.
  - destruct (mapE _ _ s) as [[ms s1] |] eqn:E; [| discriminate].
    intros [= _ <-]. by eapply (mapE_preserves FunctionsBeingProcessed _ _ IH).
  - destruct (arrangeFreeFunctionType_NoProto _ _) as [FI |]; [| discriminate].
    intros H. by eapply GetFunctionType_restores.
  - destruct (arrangeFreeFunctionType _ _) as [FI |]; [| discriminate].
    intros H. by eapply GetFunctionType_restores.
Qed.

(** The function type [void (struct S)], where [S] has a member of type
    pointer to [void (struct S)], needs its own machine type while that is
    under construction: with any fuel that reaches the inner request the
    lowering stops at the guard, it does not run on. *)
Lemma convertTypeModel_selfRef fuel :
  convertTypeModel Examples.CGT0 Examples.selfRefFields (4 + fuel) Examples.selfRefFn
    Examples.noneInProgress
  = Faulted (AssertionFailure "Recursively being processed?").
Proof. reflexivity. Qed.



(** ** Signature arrangement *)

Lemma CIRGenTypes_arrangeCIRFunctionInfo_Done CGT resultType opts argTypes info required :
  (allowsOptionalArgs required = true →
   RequiredArgs_getNumRequiredArgs required ≤ length argTypes) →
  ∃ FI, CIRGenTypes_arrangeCIRFunctionInfo CGT resultType opts argTypes info [] required
        = Done FI ∧
        arguments FI = argTypes ∧ getReturnType FI = resultType ∧
        Required FI = required ∧ ExtParameterInfosBuffer FI = [] ∧
        InstanceMethod FI = bool_decide (opts = IsInstanceMethod).
Proof.
  intros Hreq. unfold CIRGenTypes_arrangeCIRFunctionInfo.
  destruct (proj2 (create_Done_iff (ClangCallConvToCIRCallConv CGT (getCC info))
                     (bool_decide (opts = IsInstanceMethod))
                     (bool_decide (opts = IsChainCall)) info [] resultType argTypes required))
    as [FI HFI]; [split; [by left | done] |].
  exists FI. split; [done |].
  destruct (create_arguments _ _ _ _ _ _ _ _ _ HFI) as (? & ? & ? & ? & ?).
  repeat split; try done.
  unfold create in HFI. unfold_monad. repeat case_match; try discriminate.
  by injection HFI as <-.
Qed.

Lemma CIRGenTypes_arrangeCIRFunctionInfo_inv CGT resultType opts argTypes info
    paramInfos required FI :
  CIRGenTypes_arrangeCIRFunctionInfo CGT resultType opts argTypes info paramInfos required
    = Done FI →
  arguments FI = argTypes ∧ getReturnType FI = resultType ∧ Required FI = required ∧
  ExtParameterInfosBuffer FI = paramInfos ∧
  InstanceMethod FI = bool_decide (opts = IsInstanceMethod) ∧
  ChainCall FI = bool_decide (opts = IsChainCall).
Proof.
  unfold CIRGenTypes_arrangeCIRFunctionInfo. intros H.
  destruct (create_arguments _ _ _ _ _ _ _ _ _ H) as (? & ? & ? & ? & ?).
  repeat split; try done.
  all: unfold create in H; unfold_monad; repeat case_match; try discriminate;
    by injection H as <-.
Qed.

(** [int f();] declared: not variadic.  [f(1, 2)] called through the
    unprototyped type: variadic with two required arguments. *)
Lemma C1_counterexample :
  arrangeFunctionDeclaration Examples.CGT0 Examples.kr_decl
    = Done (Examples.mkFI false RequiredArgs_All Examples.s32 []) ∧
  isVariadic (Examples.mkFI false RequiredArgs_All Examples.s32 []) = false ∧
  arrangeFreeFunctionCall Examples.CGT0 Examples.two_args Examples.kr_type false
    = Done (Examples.mkFI false (RequiredArgs_N 2) Examples.s32
              [Examples.s32; Examples.s32]) ∧
  getNumRequiredArgs (Examples.mkFI false (RequiredArgs_N 2) Examples.s32
                        [Examples.s32; Examples.s32]) = 2.
Proof. repeat split; reflexivity. Qed.

(** C1 (amended): for a function type without prototype, the arrangement
    of the free function type gives a variadic descriptor with zero
    required arguments; the arrangement of a declaration gives a
    non-variadic descriptor without arguments; the arrangement of a call
    gives a variadic descriptor whose required arguments are all the
    arguments of the call. *)
Theorem C1_unprototyped_arrangement CGT :
  (∀ FTNP, ∃ FI,
      arrangeFreeFunctionType_NoProto CGT FTNP = Done FI ∧
      isVariadic FI = true ∧ getNumRequiredArgs FI = 0 ∧ arguments FI = []) ∧
  (∀ FD fd FTNP,
      decl_kind FD = FunctionDecl fd →
      getAs_FunctionNoProtoType (fd_type fd) = Some FTNP →
      ∃ FI, arrangeFunctionDeclaration CGT FD = Done FI ∧
            isVariadic FI = false ∧ arguments FI = []) ∧
  (∀ args fnType FTNP numExtraRequiredArgs opts,
      getAs_FunctionNoProtoType fnType = Some FTNP →
      numExtraRequiredArgs ≤ length args → opts ≠ IsChainCall →
      ∃ FI, arrangeFreeFunctionLikeCall CGT args fnType numExtraRequiredArgs opts
              = Done FI ∧
            isVariadic FI = true ∧ getNumRequiredArgs FI = length args ∧
            arguments FI = getArgTypesForCall (astContext CGT) args).
Proof.
  split; [| split].
  - intros FTNP. unfold arrangeFreeFunctionType_NoProto.
    destruct (CIRGenTypes_arrangeCIRFunctionInfo_Done CGT (fnpt_ReturnType FTNP)
                FnInfoOpts_None [] (fnpt_ExtInfo FTNP) (RequiredArgs_N 0))
      as (FI & H & Ha & _ & Hr & _); [simpl; lia |].
    exists FI. split; [done |].
    unfold getNumRequiredArgs, isVariadic. rewrite Hr. done.
  - intros FD fd FTNP Hk Hty. unfold arrangeFunctionDeclaration.
    unfold dyn_cast_FunctionDecl, dyn_cast_CXXMethodDecl. rewrite Hk.
    destruct (fd_type fd) as [| | | | | | | r e |] eqn:ET; try discriminate.
    simpl in Hty. simpl. unfold_monad. simpl.
    destruct (CIRGenTypes_arrangeCIRFunctionInfo_Done CGT r
                FnInfoOpts_None [] e RequiredArgs_All)
      as (FI & H & Ha & _ & Hr & _); [discriminate |].
    exists FI. split; [done |]. unfold isVariadic. rewrite Hr. done.
  - intros args fnType FTNP n opts Hty Hn Hopts.
    unfold arrangeFreeFunctionLikeCall. unfold_monad.
    rewrite (bool_decide_eq_true_2 _ Hn), (bool_decide_eq_false_2 _ Hopts). simpl.
    destruct fnType as [| | | | | | | r e |]; try discriminate. simpl.
    destruct (CIRGenTypes_arrangeCIRFunctionInfo_Done CGT (GetReturnType r) opts
                (map (λ arg, getCanonicalParamType (astContext CGT) (Ty arg)) args)
                e (RequiredArgs_N (length args)))
      as (FI & H & Ha & _ & Hr & _); [simpl; by rewrite length_map |].
    exists FI. split; [done |].
    unfold getNumRequiredArgs, isVariadic. rewrite Hr. done.
Qed.

Lemma C1_unprototyped_arrangement_witness :
  (∃ FI, arrangeFunctionDeclaration Examples.CGT0 Examples.kr_decl = Done FI ∧
         isVariadic FI = false ∧ arguments FI = []) ∧
  (∃ FI, arrangeFreeFunctionLikeCall Examples.CGT0 Examples.two_args Examples.kr_type
           0 FnInfoOpts_None = Done FI ∧
         isVariadic FI = true ∧ getNumRequiredArgs FI = 2 ∧
         arguments FI = getArgTypesForCall (astContext Examples.CGT0) Examples.two_args).
Proof.
  destruct (C1_unprototyped_arrangement Examples.CGT0) as (_ & Hdecl & Hcall).
  split.
  - exact (Hdecl Examples.kr_decl (Examples.plainFunction Examples.kr_type)
             Examples.kr_noproto eq_refl eq_refl).
  - refine (Hcall Examples.two_args Examples.kr_type Examples.kr_noproto 0
              FnInfoOpts_None eq_refl _ _); [simpl; lia | discriminate].
Defined.

(** Without extended parameter infos the formal parameter types are
    appended as they are. *)
Lemma appendParameterTypes_plain CGT prefix FPT :
  hasExtParameterInfos FPT = false →
  appendParameterTypes CGT prefix [] FPT = Done (prefix ++ fpt_ParamTypes FPT, []).
Proof. intros H. unfold appendParameterTypes. rewrite H. reflexivity. Qed.

Lemma resize_length {A} (n : nat) (d : A) (l : list A) : length (resize n d l) = n.
Proof.
  unfold resize. rewrite length_app, length_take, length_replicate. lia.
Qed.

(** With extended parameter infos the infos that come back are as many as
    the types. *)
Lemma appendParameterTypes_ext CGT prefix paramInfos FPT prefix' paramInfos' :
  hasExtParameterInfos FPT = true →
  appendParameterTypes CGT prefix paramInfos FPT = Done (prefix', paramInfos') →
  length paramInfos' = length prefix' ∧ length prefix ≤ length prefix'.
Proof.
  intros H. unfold appendParameterTypes, addExtParameterInfosForCall. rewrite H. simpl.
  unfold_monad. repeat case_match; try discriminate.
  intros [= <- <-].
  match goal with
  | H : Done (resize _ _ _) = Done _ |- _ => injection H as <-
  end.
  rewrite resize_length. split; [done |].
  match goal with
  | H : bool_decide (getNumParams FPT + length prefix ≤ _) = true |- _ =>
      apply bool_decide_eq_true in H; lia
  end.
Qed.

(** The constructor of [D] inherited from [B], shadow declaration without
    virtual base, ABI without constructor variants: the formal parameter
    is passed.  Shadow declaration with virtual base, ABI with constructor
    variants, base-object constructor: the formal parameter is dropped and
    only [this] and the VTT argument of the ABI are passed. *)
Lemma C7_counterexample :
  arrangeCXXStructorDeclaration (Examples.x86_64 Examples.plainABI false)
      (Examples.inheritedCtorGD false Ctor_Base)
    = Done (Examples.mkFI true RequiredArgs_All VoidTy
              [PointerTy (RecordTy "D") 0; Examples.s32]) ∧
  arrangeCXXStructorDeclaration (Examples.x86_64 Examples.vttABI true)
      (Examples.inheritedCtorGD true Ctor_Base)
    = Done (Examples.mkFI true RequiredArgs_All VoidTy
              [PointerTy (RecordTy "D") 0; PointerTy VoidPtrTy 0]).
Proof. split; reflexivity. Qed.

(** C7 (amended): arranging the signature of a constructor that inherits
    from a base drops all formal parameters, passing the implicit receiver
    and what the ABI adds, exactly when the structor variant is not the
    complete-object constructor, the shadow declaration constructs a
    virtual base and the ABI has constructor variants; otherwise the
    parameters of the inherited prototype follow the implicit receiver.
    The arrangement succeeds for a constructor of a known class whose
    prototype has no extended parameter infos under an ABI without a
    [this] return. *)
Theorem C7_inheriting_constructor CGT GD D fd MD Inherited FTP :
  getDecl GD = Some D →
  decl_kind D = CXXConstructorDecl fd MD (Some Inherited) →
  getAs_FunctionProtoType (fd_type fd) = Some FTP →
  let drops := bool_decide (getCtorType GD ≠ Ctor_Complete) &&
               constructsVirtualBase Inherited &&
               hasConstructorVariants (Target CGT) in
  inheritingCtorHasParams CGT Inherited (getCtorType GD) = negb drops ∧
  (∀ FI, arrangeCXXStructorDeclaration CGT GD = Done FI →
         ∃ this,
           DeriveThisType (md_Parent MD) (Some MD) = Done this ∧
           arguments FI =
             (buildStructorSignature (TheCXXABI CGT) GD
                (this :: (if drops then [] else fpt_ParamTypes FTP))).2 ∧
           InstanceMethod FI = true) ∧
  (is_Some (md_Parent MD) → hasExtParameterInfos FTP = false →
   HasThisReturn (TheCXXABI CGT) GD = false →
   ∃ FI, arrangeCXXStructorDeclaration CGT GD = Done FI).
Proof.
  intros HD Hk HT drops.
  assert (inheritingCtorHasParams CGT Inherited (getCtorType GD) = negb drops) as HP.
  { unfold inheritingCtorHasParams, drops.
    destruct (getCtorType GD), (constructsVirtualBase Inherited),
      (hasConstructorVariants (Target CGT)); reflexivity. }
  split; [done |].
  assert (arrangeCXXStructorDeclaration CGT GD =
          this ← DeriveThisType (md_Parent MD) (Some MD);
          r ← (if negb drops then appendParameterTypes CGT [this] [] FTP
               else mret ([this], []));
          let AB := buildStructorSignature (TheCXXABI CGT) GD r.1 in
          paramInfos ←
            (if bool_decide (r.2 = []) then mret r.2
             else Faulted (AssertionFailure "Please sent PR with a test and remove this"));
          _ ← assert_ (negb (HasThisReturn (TheCXXABI CGT) GD))
                      "Please sent PR with a test and remove this";
          CIRGenTypes_arrangeCIRFunctionInfo CGT
            (if HasThisReturn (TheCXXABI CGT) GD then default VoidTy (head AB.2)
             else if hasMostDerivedReturn (TheCXXABI CGT) GD then VoidPtrTy else VoidTy)
            IsInstanceMethod AB.2 (getExtInfo FTP) paramInfos
            (if negb drops && isVariadic_proto FTP
             then RequiredArgs_N (length AB.2) else RequiredArgs_All)) as Heq.
  { unfold arrangeCXXStructorDeclaration. rewrite HD.
    unfold dyn_cast_FunctionDecl, dyn_cast_CXXMethodDecl, getInheritedConstructor.
    rewrite Hk, HP. unfold GetFormalType. rewrite HT. unfold_monad.
    destruct (DeriveThisType (md_Parent MD) (Some MD)) as [this |]; [| done].
    destruct (if negb drops then _ else _) as [[argTypes paramInfos] |]; [| done].
    simpl. by destruct (buildStructorSignature (TheCXXABI CGT) GD argTypes). }
  rewrite Heq. clear Heq. unfold_monad. split.
  - intros FI H.
    destruct (DeriveThisType (md_Parent MD) (Some MD)) as [this |] eqn:Ethis;
      [| discriminate].
    exists this. split; [done |].
    destruct drops; simpl in H.
    + destruct (negb (HasThisReturn (TheCXXABI CGT) GD)); [| discriminate].
      apply CIRGenTypes_arrangeCIRFunctionInfo_inv in H as (-> & _ & _ & _ & -> & _).
      done.
    + destruct (hasExtParameterInfos FTP) eqn:EH.
      * destruct (appendParameterTypes CGT [this] [] FTP) as [[argTypes paramInfos] |] eqn:EA;
          [| discriminate].
        destruct (appendParameterTypes_ext _ _ _ _ _ _ EH EA) as [Hlen Hpre].
        simpl in H, Hpre.
        destruct paramInfos; [simpl in Hlen; lia |].
        rewrite bool_decide_eq_false_2 in H by discriminate. discriminate.
      * rewrite appendParameterTypes_plain in H by done. simpl in H.
        destruct (negb (HasThisReturn (TheCXXABI CGT) GD)); [| discriminate].
        apply CIRGenTypes_arrangeCIRFunctionInfo_inv in H as (-> & _ & _ & _ & -> & _).
        done.
  - intros [name Hname] EH HTR. rewrite Hname. simpl.
    assert ((if negb drops then appendParameterTypes CGT [PointerTy (RecordTy name) (md_AddressSpace MD)] [] FTP
             else Done ([PointerTy (RecordTy name) (md_AddressSpace MD)], []))
            = Done ([PointerTy (RecordTy name) (md_AddressSpace MD)] ++
                    (if negb drops then fpt_ParamTypes FTP else []), [])) as ->.
    { destruct drops; simpl; [done |]. by rewrite appendParameterTypes_plain. }
    simpl. rewrite HTR. simpl.
    edestruct CIRGenTypes_arrangeCIRFunctionInfo_Done as (FI & HFI & _); [| eauto].
    destruct (negb drops && isVariadic_proto FTP); simpl; [lia | discriminate].
Qed.

Lemma C7_inheriting_constructor_witness :
  let CGT := Examples.x86_64 Examples.vttABI true in
  let GD := Examples.inheritedCtorGD true Ctor_Base in
  let FI := Examples.mkFI true RequiredArgs_All VoidTy
              [PointerTy (RecordTy "D") 0; PointerTy VoidPtrTy 0] in
  arrangeCXXStructorDeclaration CGT GD = Done FI ∧
  inheritingCtorHasParams CGT {| constructsVirtualBase := true |} Ctor_Base = false ∧
  arguments FI = [PointerTy (RecordTy "D") 0; PointerTy VoidPtrTy 0] ∧
  (∃ FI', arrangeCXXStructorDeclaration CGT GD = Done FI').
Proof.
  intros CGT GD FI.
  assert (arrangeCXXStructorDeclaration CGT GD = Done FI) as H by reflexivity.
  destruct (C7_inheriting_constructor CGT GD (Examples.inheritedCtor true) _ _
              {| constructsVirtualBase := true |}
              {| fpt_ReturnType := VoidTy; fpt_ParamTypes := [Examples.s32];
                 fpt_info := Examples.plainProto false |}
              eq_refl eq_refl eq_refl) as (HP & Hargs & Htotal).
  destruct (Hargs FI H) as (this & Hthis & Ha & _).
  split; [exact H |]. split; [exact HP |]. split.
  - injection Hthis as <-. exact Ha.
  - apply Htotal; [by eexists | reflexivity | reflexivity].
Defined.

(** ** Attribute synthesis *)

Lemma if_same {A} (b : bool) (x : A) : (if b then x else x) = x.
Proof. by destruct b. Qed.

Lemma hasAttr_varyDecl noret virt nobuiltin D a :
  a ≠ NoBuiltinAttr → hasAttr (varyDecl noret virt nobuiltin D) a = hasAttr D a.
Proof.
  intros Ha. unfold hasAttr, varyDecl. simpl. apply bool_decide_ext.
  destruct nobuiltin.
  - rewrite elem_of_cons. split; [intros [E | H]; [congruence | done] | by right].
  - rewrite list_elem_of_filter. split; [by intros [_ H] | by intros H].
Qed.

Lemma dyn_cast_FunctionDecl_varyDecl noret virt nobuiltin D :
  dyn_cast_FunctionDecl (varyDecl noret virt nobuiltin D) =
  setNoReturn noret <$> dyn_cast_FunctionDecl D.
Proof. unfold dyn_cast_FunctionDecl, varyDecl. simpl. by destruct (decl_kind D). Qed.

Lemma isa_VarDecl_varyDecl noret virt nobuiltin D :
  isa_VarDecl (varyDecl noret virt nobuiltin D) = isa_VarDecl D.
Proof. unfold isa_VarDecl, varyDecl. simpl. by destruct (decl_kind D). Qed.

Lemma constructAttributeList_FunctionDecl_vary CGM D funcAttrs AttrOnCallSite
    noret virt nobuiltin :
  constructAttributeList_FunctionDecl CGM (varyDecl noret virt nobuiltin D) funcAttrs
    AttrOnCallSite =
  constructAttributeList_FunctionDecl CGM D funcAttrs AttrOnCallSite.
Proof.
  unfold constructAttributeList_FunctionDecl.
  rewrite dyn_cast_FunctionDecl_varyDecl.
  destruct (dyn_cast_FunctionDecl D) as [Fn |]; simpl; [| done].
  by rewrite !if_same.
Qed.

(** The declaration-specific part does not look at [isNoReturn()], at
    [isVirtual()] or at a no_builtin attribute. *)
Lemma constructAttributeList_TargetDecl_vary CGM CalleeInfo CalleeInfo' D
    funcAttrs sideEffect AttrOnCallSite noret virt nobuiltin :
  getMangledName CGM (getCalleeDecl CalleeInfo') = getMangledName CGM (getCalleeDecl CalleeInfo) →
  constructAttributeList_TargetDecl CGM CalleeInfo' (varyDecl noret virt nobuiltin D)
    funcAttrs sideEffect AttrOnCallSite =
  constructAttributeList_TargetDecl CGM CalleeInfo D funcAttrs sideEffect AttrOnCallSite.
Proof.
  intros Hname.
  unfold constructAttributeList_TargetDecl, constructAttributeList_NoMerge,
    constructAttributeList_sideEffect, constructAttributeList_OpenCLKernel,
    constructAttributeList_CUDAKernelName.
  rewrite !hasAttr_varyDecl by discriminate.
  rewrite constructAttributeList_FunctionDecl_vary.
  rewrite dyn_cast_FunctionDecl_varyDecl, isa_VarDecl_varyDecl, Hname.
  by destruct (dyn_cast_FunctionDecl D).
Qed.

(** [[noreturn]] void fatal(int), called directly (not a virtual call)
    from C++ host code: the synthesized attribute set is empty.  The same
    holds when the set is synthesized for the definition. *)
Lemma C6_counterexample :
  fd_isNoReturn <$> dyn_cast_FunctionDecl Examples.fatal_decl = Some true ∧
  dyn_cast_CXXMethodDecl Examples.fatal_decl = None ∧
  constructAttributeList Examples.CGM0 "_Z5fatali" Examples.fatal_FI
      (Examples.calleeInfoOf None Examples.fatal_decl) ∅ true false
    = Done (∅, cir_C, SideEffect_All) ∧
  constructAttributeList Examples.CGM0 "_Z5fatali" Examples.fatal_FI
      (Examples.calleeInfoOf None Examples.fatal_decl) ∅ false false
    = Done (∅, cir_C, SideEffect_All).
Proof. repeat split; reflexivity. Qed.

(** C6 (amended): attribute synthesis propagates neither no-return nor
    no-builtin from the declaration, for a call site as for a definition,
    for a virtual as for a non-virtual callee: the guard for virtual call
    sites is there, but what it guards adds nothing.  For declarations that
    differ only in no-return, in being virtual and in no_builtin, the
    synthesized attribute list, calling convention and side-effect class
    are the same. *)
Theorem C6_no_return_not_propagated CGM Name FI proto D ctorType funcAttrs
    AttrOnCallSite IsThunk noret virt nobuiltin :
  let GD := {| getDecl := Some D; getCtorType := ctorType |} in
  let GD' := {| getDecl := Some (varyDecl noret virt nobuiltin D);
                getCtorType := ctorType |} in
  getMangledName CGM GD' = getMangledName CGM GD →
  constructAttributeList CGM Name FI
    {| getCalleeFunctionProtoType := proto; getCalleeDecl := GD' |}
    funcAttrs AttrOnCallSite IsThunk =
  constructAttributeList CGM Name FI
    {| getCalleeFunctionProtoType := proto; getCalleeDecl := GD |}
    funcAttrs AttrOnCallSite IsThunk.
Proof.
  intros GD GD' Hname. unfold constructAttributeList. simpl.
  rewrite (constructAttributeList_TargetDecl_vary CGM
             {| getCalleeFunctionProtoType := proto; getCalleeDecl := GD |}
             {| getCalleeFunctionProtoType := proto; getCalleeDecl := GD' |}); done.
Qed.

Lemma C6_no_return_not_propagated_witness :
  constructAttributeList Examples.CGM0 "_Z5fatali" Examples.fatal_FI
    (Examples.calleeInfoOf None (varyDecl false false false Examples.fatal_decl))
    ∅ true false =
  constructAttributeList Examples.CGM0 "_Z5fatali" Examples.fatal_FI
    (Examples.calleeInfoOf None Examples.fatal_decl) ∅ true false.
Proof.
  exact (C6_no_return_not_propagated Examples.CGM0 "_Z5fatali" Examples.fatal_FI None
           Examples.fatal_decl Ctor_Complete ∅ true false false false false eq_refl).
Defined.




(** A prototype whose exception specification is unresolved leaves the
    attributes alone, whatever [isNothrow()] would say. *)
Lemma AddAttributesFromFunctionProtoType_unresolved (attrs : NamedAttrList) FPT :
  isUnresolvedExceptionSpec (getExceptionSpecType FPT) = true →
  AddAttributesFromFunctionProtoType attrs (Some FPT) = attrs.
Proof. intros H. unfold AddAttributesFromFunctionProtoType. by rewrite H. Qed.





(** Attribute synthesis faults in SYCL device mode only. *)
Lemma constructAttributeList_total CGM Name FI CalleeInfo (funcAttrs : NamedAttrList)
    AttrOnCallSite IsThunk :
  SYCLIsDevice (getLangOpts CGM) = false →
  ∃ Attrs sideEffect,
    constructAttributeList CGM Name FI CalleeInfo funcAttrs AttrOnCallSite IsThunk
    = Done (Attrs, EffectiveCallingConvention FI, sideEffect).
Proof.
  intros Hsycl.
  assert (∀ fa hasOptnone, ∃ fa',
            getDefaultFunctionAttributes CGM Name hasOptnone AttrOnCallSite fa = Done fa')
    as Hdef.
  { intros fa hasOptnone.
    unfold getDefaultFunctionAttributes, CIRGenModule_getTrivialDefaultFunctionAttributes,
      getTrivialDefaultFunctionAttributes. unfold_monad. rewrite Hsycl.
    destruct (OpenCL _ || _); rewrite if_same; eauto. }
  unfold constructAttributeList. unfold_monad.
  destruct (getDecl (getCalleeDecl CalleeInfo)) as [D |].
  - unfold constructAttributeList_TargetDecl. cbv zeta. unfold_monad.
    unfold MissingFeatures_CUDA. simpl. rewrite !if_same.
    match goal with
    | |- context [getDefaultFunctionAttributes CGM Name ?o AttrOnCallSite ?fa] =>
        destruct (Hdef fa o) as [fa' ->]
    end.
    eauto.
  - match goal with
    | |- context [getDefaultFunctionAttributes CGM Name ?o AttrOnCallSite ?fa] =>
        destruct (Hdef fa o) as [fa' ->]
    end.
    eauto.
Qed.




(** ** Argument materialization *)

(** What [createOp] does to the IR when it creates a one-result
    operation. *)
Lemma createOp_one_result ip kind T st :
  ∃ st',
    createOp ip kind [T] st =
      Done ((nextOp st, [{| val_id := nextValue st; val_type := T;
                            val_def := DefinedBy (nextOp st) |}]), st') ∧
    nextOp st' = S (nextOp st) ∧
    (op_kind <$> ops st' !! nextOp st) = Some kind ∧
    (∀ o, o ≠ nextOp st → ops st' !! o = ops st !! o) ∧
    (∀ b, Some b ≠ (ip_block <$> ip) → blocks st' !! b = blocks st !! b).
Proof.
  unfold createOp. simpl. rewrite Nat.add_0_r.
  eexists. split; [reflexivity |]. simpl.
  split; [done |]. split; [by rewrite lookup_insert_eq |].
  split.
  - intros o Ho. by rewrite lookup_insert_ne.
  - intros b Hb. destruct ip as [p |]; [| done]. simpl in *.
    destruct (blocks st !! ip_block p); simpl; [| done].
    rewrite lookup_insert_ne; [done |]. congruence.
Qed.

Lemma createLoad_spec ip addr st :
  ∃ st',
    createLoad ip addr st =
      Done ({| val_id := nextValue st; val_type := getElementType addr;
               val_def := DefinedBy (nextOp st) |}, st') ∧
    nextOp st' = S (nextOp st) ∧
    (op_kind <$> ops st' !! nextOp st) = Some (LoadOp (getPointer addr)) ∧
    (∀ o, o ≠ nextOp st → ops st' !! o = ops st !! o).
Proof.
  destruct (createOp_one_result ip (LoadOp (getPointer addr)) (getElementType addr) st)
    as (st' & H & Hn & Hk & Ho & _).
  exists st'. unfold createLoad. unfold_monad. rewrite H. simpl. done.
Qed.

Lemma createBitcast_spec ip src newTy st :
  newTy ≠ val_type src →
  ∃ st',
    createBitcast ip src newTy st =
      Done ({| val_id := nextValue st; val_type := newTy;
               val_def := DefinedBy (nextOp st) |}, st') ∧
    nextOp st' = S (nextOp st) ∧
    (op_kind <$> ops st' !! nextOp st) = Some (CastOp CastKind_bitcast src) ∧
    (∀ o, o ≠ nextOp st → ops st' !! o = ops st !! o).
Proof.
  intros Hne.
  destruct (createOp_one_result ip (CastOp CastKind_bitcast src) newTy st)
    as (st' & H & Hn & Hk & Ho & _).
  exists st'. unfold createBitcast. destruct (decide (newTy = val_type src)); [done |].
  unfold_monad. rewrite H. simpl. done.
Qed.

(** A signed 8-bit value for a 32-bit slot is not widened: the emitter
    faults.  A signed 32-bit value for an unsigned 32-bit slot is not
    bitcast: the emitter faults.  A double for a single-precision slot is
    bitcast to the narrower type: the width of a value that is not an
    integer is not protected.  A single-precision value for a 32-bit
    integer slot in the variadic tail is passed as it is, without
    bitcast. *)
Lemma C3_counterexample :
  emitCall_arg Examples.atEndOfBody (FuncType [Examples.s32i] VoidType false) 0
      Examples.s32i (Examples.scalarArg 1 Examples.s8i (IntTy 8 true)) Examples.emptyBody
    = Faulted (LlvmUnreachable "NYI") ∧
  emitCall_arg Examples.atEndOfBody (FuncType [Examples.u32i] VoidType false) 0
      Examples.u32i (Examples.scalarArg 1 Examples.s32i Examples.s32) Examples.emptyBody
    = Faulted (LlvmUnreachable "NYI") ∧
  (∃ st',
     emitCall_arg Examples.atEndOfBody (FuncType [SingleType] VoidType false) 0
         SingleType (Examples.scalarArg 1 DoubleType DoubleTy) Examples.emptyBody
       = Done ({| val_id := 100; val_type := SingleType; val_def := DefinedBy 0 |}, st') ∧
     (op_kind <$> ops st' !! 0)
       = Some (CastOp CastKind_bitcast
                 {| val_id := 1; val_type := DoubleType; val_def := BlockArgument 0 |}) ∧
     scalarWidth DoubleType = Some 64%N ∧ scalarWidth SingleType = Some 32%N) ∧
  sameWidth SingleType Examples.s32i = true ∧
  emitCall_arg Examples.atEndOfBody (FuncType [Examples.s32i] VoidType true) 1
      Examples.s32i (Examples.scalarArg 1 SingleType FloatTy) Examples.emptyBody
    = Done ({| val_id := 1; val_type := SingleType; val_def := BlockArgument 0 |},
            Examples.emptyBody).
Proof.
  split; [reflexivity |]. split; [reflexivity |].
  split; [| split; reflexivity].
  eexists. split; [reflexivity |]. split; [reflexivity |]. split; reflexivity.
Qed.

(** The scalar slot of the argument loop, case by case. *)
Lemma emitCall_arg_scalar ip CIRFuncTy ArgNo argType Arg V st :
  isa_RecordType argType = false →
  ca_value Arg = HasRV (RValue_get V) →
  (ArgNo < getNumInputs CIRFuncTy → getInput_ CIRFuncTy ArgNo = argType) →
  (isa_IntType (val_type V) = true → val_type V ≠ argType →
   emitCall_arg ip CIRFuncTy ArgNo argType Arg st = Faulted (LlvmUnreachable "NYI")) ∧
  (val_type V = argType →
   emitCall_arg ip CIRFuncTy ArgNo argType Arg st = Done (V, st)) ∧
  (isa_IntType (val_type V) = false → val_type V ≠ argType →
   ArgNo < getNumInputs CIRFuncTy →
   ∃ V' st', emitCall_arg ip CIRFuncTy ArgNo argType Arg st = Done (V', st') ∧
             val_type V' = argType ∧ val_def V' = DefinedBy (nextOp st) ∧
             (op_kind <$> ops st' !! nextOp st) = Some (CastOp CastKind_bitcast V) ∧
             nextOp st' = S (nextOp st)) ∧
  (isa_IntType (val_type V) = false → val_type V ≠ argType →
   ¬ ArgNo < getNumInputs CIRFuncTy →
   emitCall_arg ip CIRFuncTy ArgNo argType Arg st = Done (V, st)) ∧
  (∀ V' st', emitCall_arg ip CIRFuncTy ArgNo argType Arg st = Done (V', st') →
             isa_IntType (val_type V) = true → V' = V ∧ st' = st).
Proof.
  intros Hrec HArg Hcons.
  assert (emitCall_arg ip CIRFuncTy ArgNo argType Arg st =
    if bool_decide (argType ≠ val_type V) && isa_IntType (val_type V)
    then Faulted (LlvmUnreachable "NYI")
    else if bool_decide (ArgNo < getNumInputs CIRFuncTy) &&
            bool_decide (val_type V ≠ getInput_ CIRFuncTy ArgNo)
         then createBitcast ip V (getInput_ CIRFuncTy ArgNo) st
         else Done (V, st)) as Heq.
  { unfold emitCall_arg, emitCall_scalarArg. rewrite Hrec. simpl.
    unfold isAggregate, getKnownRValue. rewrite HArg. simpl. unfold_monad. simpl.
    destruct (bool_decide (argType ≠ val_type V) && isa_IntType (val_type V)); [done |].
    by destruct (bool_decide (ArgNo < getNumInputs CIRFuncTy) &&
                 bool_decide (val_type V ≠ getInput_ CIRFuncTy ArgNo)). }
  assert (∀ x y : mlirType, x = y → bool_decide (x ≠ y) = false) as Hbf.
  { intros x y ->. by apply bool_decide_eq_false_2; intros H; apply H. }
  assert (∀ x y : mlirType, x ≠ y → bool_decide (x ≠ y) = true) as Hbt.
  { intros x y H. by apply bool_decide_eq_true_2. }
  assert (val_type V = argType →
          emitCall_arg ip CIRFuncTy ArgNo argType Arg st = Done (V, st)) as Hsame.
  { intros HT. rewrite Heq. rewrite (Hbf argType (val_type V)) by done. simpl.
    destruct (bool_decide (ArgNo < getNumInputs CIRFuncTy)) eqn:EA; [| done].
    apply bool_decide_eq_true in EA. rewrite (Hcons EA).
    by rewrite (Hbf (val_type V) argType) by done. }
  split; [| split; [| split; [| split]]].
  - intros Hint Hne. rewrite Heq, Hint.
    by rewrite (Hbt argType (val_type V)) by (intros E; by apply Hne).
  - exact Hsame.
  - intros Hint Hne HA. rewrite Heq, Hint, andb_false_r.
    rewrite (bool_decide_eq_true_2 _ HA), (Hcons HA).
    rewrite (Hbt (val_type V) argType) by done. simpl.
    destruct (createBitcast_spec ip V argType st) as (st' & H & Hn & Hk & _);
      [intros E; by apply Hne |].
    eexists _, st'. split; [exact H |]. done.
  - intros Hint Hne HA. rewrite Heq, Hint, andb_false_r.
    by rewrite (bool_decide_eq_false_2 _ HA).
  - intros V' st' H Hint.
    destruct (decide (val_type V = argType)) as [E | E].
    + rewrite (Hsame E) in H. by injection H as <- <-.
    + rewrite Heq, Hint in H.
      rewrite (Hbt argType (val_type V)) in H by (intros E'; by apply E).
      discriminate.
Qed.

(** C3 (amended): for a scalar (non-record) argument slot whose machine
    type is the one of the function type at that position, the width of a
    supplied integer value is never reduced: an integer value whose type
    is not the slot's makes the emitter fault, whether the value is wider
    (no truncation), narrower (no widening either) or of the same width
    (no bitcast), so that an integer value that is passed is passed as it
    is.  A value of the slot's type is passed as it is.  A same-width
    mismatch of a value that is not an integer is handled by a bitcast to
    the slot's type when the slot is an input of the function type. *)
Theorem C3_scalar_argument ip CIRFuncTy ArgNo argType Arg V st :
  isa_RecordType argType = false →
  ca_value Arg = HasRV (RValue_get V) →
  (ArgNo < getNumInputs CIRFuncTy → getInput_ CIRFuncTy ArgNo = argType) →
  (isa_IntType (val_type V) = true → val_type V ≠ argType →
   emitCall_arg ip CIRFuncTy ArgNo argType Arg st = Faulted (LlvmUnreachable "NYI")) ∧
  (val_type V = argType →
   emitCall_arg ip CIRFuncTy ArgNo argType Arg st = Done (V, st)) ∧
  (isa_IntType (val_type V) = false → val_type V ≠ argType →
   sameWidth (val_type V) argType = true →
   ArgNo < getNumInputs CIRFuncTy →
   ∃ V' st', emitCall_arg ip CIRFuncTy ArgNo argType Arg st = Done (V', st') ∧
             val_type V' = argType ∧ val_def V' = DefinedBy (nextOp st) ∧
             (op_kind <$> ops st' !! nextOp st) = Some (CastOp CastKind_bitcast V) ∧
             nextOp st' = S (nextOp st)) ∧
  (∀ V' st', emitCall_arg ip CIRFuncTy ArgNo argType Arg st = Done (V', st') →
             isa_IntType (val_type V) = true → V' = V ∧ st' = st).
Proof.
  intros Hrec HArg Hcons.
  destruct (emitCall_arg_scalar ip CIRFuncTy ArgNo argType Arg V st Hrec HArg Hcons)
    as (Hint & Hsame & Hcast & _ & Hkeep).
  split; [exact Hint |]. split; [exact Hsame |]. split; [| exact Hkeep].
  intros Hni Hne _ Hlt. by apply Hcast.
Qed.

Lemma C3_scalar_argument_witness :
  emitCall_arg Examples.atEndOfBody (FuncType [Examples.s32i] VoidType false) 0
      Examples.s32i (Examples.scalarArg 1 Examples.s64i (IntTy 64 true)) Examples.emptyBody
    = Faulted (LlvmUnreachable "NYI") ∧
  emitCall_arg Examples.atEndOfBody (FuncType [Examples.s32i] VoidType false) 0
      Examples.s32i (Examples.scalarArg 1 Examples.s32i Examples.s32) Examples.emptyBody
    = Done ({| val_id := 1; val_type := Examples.s32i; val_def := BlockArgument 0 |},
            Examples.emptyBody).
Proof.
  split.
  - refine (proj1 (C3_scalar_argument Examples.atEndOfBody
                     (FuncType [Examples.s32i] VoidType false) 0 Examples.s32i
                     (Examples.scalarArg 1 Examples.s64i (IntTy 64 true))
                     _ Examples.emptyBody eq_refl eq_refl _) eq_refl _);
      [intros _; reflexivity | discriminate].
  - refine (proj1 (proj2 (C3_scalar_argument Examples.atEndOfBody
                     (FuncType [Examples.s32i] VoidType false) 0 Examples.s32i
                     (Examples.scalarArg 1 Examples.s32i Examples.s32)
                     _ Examples.emptyBody eq_refl eq_refl _)) eq_refl).
    intros _; reflexivity.
Defined.

(** An aggregate of shape [S1] for a slot of shape [S2]: the address is
    not reinterpreted and nothing is loaded, the emitter faults. *)
Lemma C4_counterexample :
  sourceAddress Examples.aggArg = Some Examples.aggAddr ∧
  getElementType Examples.aggAddr ≠ Examples.ty_S2 ∧
  emitCall_arg Examples.atEndOfBody (FuncType [Examples.ty_S2] VoidType false) 0
      Examples.ty_S2 Examples.aggArg Examples.emptyBody
    = Faulted (LlvmUnreachable "NYI").
Proof. split; [reflexivity |]. split; [discriminate | reflexivity]. Qed.

(** C4 (amended): for an aggregate argument whose in-memory machine shape
    equals the coerced parameter shape, materialization is one load from
    the source address; no other operation, in particular no cast, is
    created.  When the shapes differ the emitter faults: reinterpreting the
    address is not implemented. *)
Theorem C4_aggregate_argument ip CIRFuncTy ArgNo argType Arg Src st :
  isa_RecordType argType = true →
  sourceAddress Arg = Some Src →
  (getElementType Src = argType →
   emitCall_arg ip CIRFuncTy ArgNo argType Arg st = createLoad ip Src st ∧
   ∃ V st',
     emitCall_arg ip CIRFuncTy ArgNo argType Arg st = Done (V, st') ∧
     val_type V = argType ∧ val_def V = DefinedBy (nextOp st) ∧
     (op_kind <$> ops st' !! nextOp st) = Some (LoadOp (getPointer Src)) ∧
     nextOp st' = S (nextOp st) ∧
     (∀ o, o ≠ nextOp st → ops st' !! o = ops st !! o)) ∧
  (getElementType Src ≠ argType →
   emitCall_arg ip CIRFuncTy ArgNo argType Arg st = Faulted (LlvmUnreachable "NYI")).
Proof.
  intros Hrec HSrc.
  assert (emitCall_arg ip CIRFuncTy ArgNo argType Arg st =
          if bool_decide (getElementType Src ≠ argType)
          then Faulted (LlvmUnreachable "NYI")
          else match createElementBitCast ip Src argType st with
               | Done (Src', s') => createLoad ip Src' s'
               | Faulted e => Faulted e
               end) as Heq.
  { unfold emitCall_arg, emitCall_aggregateArg. rewrite Hrec. simpl.
    unfold sourceAddress in HSrc.
    unfold isAggregate, hasLValue, getKnownLValue, getKnownRValue.
    destruct (ca_value Arg) as [rv | lv].
    - destruct rv as [V | a |]; try discriminate. injection HSrc as ->.
      simpl. unfold_monad. simpl.
      by destruct (bool_decide (getElementType Src ≠ argType)).
    - injection HSrc as <-. simpl. unfold_monad. simpl.
      by destruct (bool_decide (getElementType (lv_Address lv) ≠ argType)). }
  split.
  - intros E. rewrite Heq.
    rewrite bool_decide_eq_false_2 by (intros H; by apply H).
    unfold createElementBitCast.
    destruct (decide (argType = getElementType Src)); [| congruence].
    unfold_monad. split; [done |].
    destruct (createLoad_spec ip Src st) as (st' & H & Hn & Hk & Ho).
    eexists _, st'. split; [exact H |]. simpl. done.
  - intros E. rewrite Heq. by rewrite bool_decide_eq_true_2.
Qed.

Lemma C4_aggregate_argument_witness :
  ∃ st',
    emitCall_arg Examples.atEndOfBody (FuncType [Examples.ty_S1] VoidType false) 0
        Examples.ty_S1 Examples.aggArg Examples.emptyBody
      = Done ({| val_id := 100; val_type := Examples.ty_S1; val_def := DefinedBy 0 |}, st') ∧
    (op_kind <$> ops st' !! 0) = Some (LoadOp (getPointer Examples.aggAddr)) ∧
    nextOp st' = 1.
Proof.
  destruct (proj1 (C4_aggregate_argument Examples.atEndOfBody
                     (FuncType [Examples.ty_S1] VoidType false) 0 Examples.ty_S1
                     Examples.aggArg Examples.aggAddr Examples.emptyBody
                     eq_refl eq_refl) eq_refl)
    as (Hload & V & st' & H & HT & HD & Hk & Hn & _).
  exists st'. split; [| split; [exact Hk | exact Hn]].
  rewrite H. f_equal. f_equal.
  rewrite Hload in H. unfold createLoad in H. vm_compute in H.
  by injection H as <- _.
Defined.

(** ** Return-value extraction *)

Lemma iteratorAfter_app (o : OpId) (pre post : list OpId) :
  o ∉ pre → iteratorAfter o (pre ++ o :: post) = head post.
Proof.
  induction pre as [| x pre IH]; simpl; intros Hnin.
  - by destruct (decide (o = o)).
  - apply not_elem_of_cons in Hnin as [Hne Hnin].
    destruct (decide (x = o)); [congruence | auto].
Qed.

Lemma insertBeforeOp_app (q x : OpId) (l post : list OpId) :
  q ∉ l → insertBeforeOp q x (l ++ q :: post) = l ++ x :: q :: post.
Proof.
  induction l as [| y l IH]; simpl; intros Hnin.
  - by destruct (decide (q = q)).
  - apply not_elem_of_cons in Hnin as [Hne Hnin].
    destruct (decide (y = q)); [congruence |]. by rewrite IH.
Qed.

(** In a block without duplicates, inserting at the iterator that follows
    [o] puts the new operation right behind [o]. *)
Lemma insertAt_after (o x : OpId) (pre post : list OpId) :
  NoDup (pre ++ o :: post) →
  insertAt (iteratorAfter o (pre ++ o :: post)) x (pre ++ o :: post) =
  pre ++ o :: x :: post.
Proof.
  intros Hnd. apply NoDup_app in Hnd as (Hpre & Hdisj & Ho).
  apply NoDup_cons in Ho as [Hopost Hpost].
  rewrite iteratorAfter_app by (intros Hin; apply (Hdisj _ Hin); by left).
  destruct post as [| q qs]; simpl.
  - by rewrite <- app_assoc.
  - replace (pre ++ o :: q :: qs) with ((pre ++ [o]) ++ q :: qs) by by rewrite <- app_assoc.
    rewrite insertBeforeOp_app; [by rewrite <- app_assoc |].
    rewrite elem_of_app, list_elem_of_singleton. intros [Hin | ->].
    + apply (Hdisj _ Hin). right. by left.
    + apply Hopost. by left.
Qed.

(** [createOp] at an insertion point inside an existing block. *)
Lemma createOp_at p kind tys st B :
  blocks st !! ip_block p = Some B →
  createOp (Some p) kind tys st =
  Done ((nextOp st,
         imap (λ i T, {| val_id := nextValue st + i; val_type := T;
                         val_def := DefinedBy (nextOp st) |}) tys),
        {| ops := <[nextOp st :=
                     {| op_kind := kind;
                        op_results :=
                          imap (λ i T, {| val_id := nextValue st + i; val_type := T;
                                          val_def := DefinedBy (nextOp st) |}) tys;
                        op_block := Some (ip_block p);
                        op_extra_attrs := None; op_ast := None;
                        op_synthetic := false |}]> (ops st);
           blocks := <[ip_block p :=
                        {| blk_parent := blk_parent B;
                           blk_ops := insertAt (ip_before p) (nextOp st) (blk_ops B) |}]>
                     (blocks st);
           regions := regions st; allocas := allocas st;
           nextOp := S (nextOp st); nextValue := nextValue st + length tys;
           nextBlock := nextBlock st; nextRegion := nextRegion st;
           CounterAggTmp := CounterAggTmp st |}).
Proof. intros HB. unfold createOp. simpl. rewrite HB. reflexivity. Qed.

(** The slot a scalar result travels through: the return-value slot of the
    caller when it is valid, else a fresh temporary. *)
Lemma slot_selection CGF RetTy ReturnValue st :
  ∃ DestPtr st1,
    match getValue ReturnValue with
    | Some a => mret a
    | None => CreateMemTemp CGF RetTy "tmp.try.call.res"
    end st = Done (DestPtr, st1) ∧
    ops st1 = ops st ∧ blocks st1 = blocks st ∧ nextOp st ≤ nextOp st1 ∧
    match getValue ReturnValue with
    | Some a => DestPtr = a ∧ st1 = st
    | None =>
        getElementType DestPtr = convertType CGF RetTy ∧
        allocas st1 = allocas st ++
                      [{| alloca_addr := getPointer DestPtr;
                          alloca_type := convertType CGF RetTy;
                          alloca_name := "tmp.try.call.res" |}]
    end.
Proof.
  destruct (getValue ReturnValue) as [a |].
  - exists a, st. unfold_monad. repeat split; try done.
  - unfold CreateMemTemp. eexists _, _. split; [reflexivity |]. simpl.
    repeat split; try done. lia.
Qed.

(** C8: for a call with scalar evaluation kind and a non-void return type
    whose single result has the converted return type: when the call
    operation lies in another region than the insertion block of the
    builder (the point of use), the result is stored into a memory slot by
    a store placed right behind the call and reloaded by a load placed at
    the point of use, and the loaded value is returned; the slot is the
    return-value slot when that is valid and a fresh temporary otherwise.
    When the call lies in the region of the point of use, its result is
    returned as it is and nothing is emitted. *)
Theorem C8_scalar_return CGF p RetTy ReturnValue theCall R0 st :
  isa_VoidType (convertType CGF RetTy) = false →
  getEvaluationKind CGF RetTy = TEK_Scalar →
  (op_results <$> ops st !! theCall) = Some [R0] →
  val_type R0 = convertType CGF RetTy →
  (Block_getParent st (ip_block p) = getParentRegion st theCall →
   emitCall_extractReturn CGF (Some p) RetTy ReturnValue theCall st
   = Done (RValue_get R0, st)) ∧
  (Block_getParent st (ip_block p) ≠ getParentRegion st theCall →
   ∀ bc Bc Bp pre post,
     val_def R0 = DefinedBy theCall →
     getBlock st theCall = Some bc →
     blocks st !! bc = Some Bc →
     blk_ops Bc = pre ++ theCall :: post →
     NoDup (blk_ops Bc) →
     blocks st !! ip_block p = Some Bp →
     ∃ DestPtr store load loaded st',
       emitCall_extractReturn CGF (Some p) RetTy ReturnValue theCall st
       = Done (RValue_get loaded, st') ∧
       match getValue ReturnValue with
       | Some a => DestPtr = a
       | None => ∃ A, A ∈ allocas st' ∧ alloca_addr A = getPointer DestPtr ∧
                      alloca_name A = "tmp.try.call.res"
       end ∧
       blocks st' !! bc = Some {| blk_parent := blk_parent Bc;
                                  blk_ops := pre ++ theCall :: store :: post |} ∧
       (op_kind <$> ops st' !! store) = Some (StoreOp R0 (getPointer DestPtr)) ∧
       blocks st' !! ip_block p =
         Some {| blk_parent := blk_parent Bp;
                 blk_ops := insertAt (ip_before p) load (blk_ops Bp) |} ∧
       (op_kind <$> ops st' !! load) = Some (LoadOp (getPointer DestPtr)) ∧
       (op_results <$> ops st' !! load) = Some [loaded] ∧
       val_type loaded = getElementType DestPtr).
Proof.
  intros H1 H2 H3 H4.
  assert (emitCall_extractReturn CGF (Some p) RetTy ReturnValue theCall st =
          if bool_decide (Block_getParent st (ip_block p) ≠ getParentRegion st theCall)
          then match (match getValue ReturnValue with
                      | Some a => mret a
                      | None => CreateMemTemp CGF RetTy "tmp.try.call.res"
                      end) st with
               | Done (DestPtr, st1) => getRValueThroughMemory (Some p) R0 DestPtr st1
               | Faulted e => Faulted e
               end
          else Done (RValue_get R0, st)) as Heq.
  { unfold emitCall_extractReturn. rewrite H1, H2. unfold_monad.
    rewrite H3. simpl. rewrite H4.
    rewrite bool_decide_eq_true_2 by done.
    by destruct (bool_decide _). }
  split.
  - intros E. rewrite Heq. by rewrite bool_decide_eq_false_2 by (intros H; by apply H).
  - intros Hne bc Bc Bp pre post Hdef Hblk HBc Hops Hnd HBp.
    rewrite Heq, (bool_decide_eq_true_2 _ Hne).
    destruct (slot_selection CGF RetTy ReturnValue st)
      as (DestPtr & st1 & Hslot & Hops1 & Hblocks1 & Hle & Hcase).
    rewrite Hslot.
    assert (bc ≠ ip_block p) as Hbne.
    { intros ->. apply Hne. unfold getParentRegion. by rewrite Hblk. }
    unfold getRValueThroughMemory. unfold_monad.
    unfold setInsertionPointAfterValue. rewrite Hdef.
    unfold setInsertionPointAfter, getBlock. rewrite Hops1.
    unfold getBlock in Hblk. rewrite Hblk. simpl. rewrite Hblocks1, HBc. simpl.
    unfold createStore, createLoad. unfold_monad. simpl.
    rewrite ?Hblocks1, HBc. simpl. rewrite lookup_insert_ne by done. rewrite HBp. simpl.
    rewrite Hops, insertAt_after by (by rewrite <- Hops).
    exists DestPtr, (nextOp st1), (S (nextOp st1)).
    eexists _, _. split; [reflexivity |]. simpl.
    split.
    { destruct (getValue ReturnValue) as [a |]; [by destruct Hcase |].
      destruct Hcase as [_ Hal]. eexists. rewrite Hal.
      split; [apply elem_of_app; right; by left |]. done. }
    split; [by rewrite lookup_insert_ne, lookup_insert_eq by done |].
    split.
    { rewrite lookup_insert_ne by lia. by rewrite lookup_insert_eq. }
    split; [by rewrite lookup_insert_eq |].
    split; [by rewrite lookup_insert_eq |].
    split; [by rewrite lookup_insert_eq |]. done.
Qed.

Lemma C8_scalar_return_witness :
  let CGF := Examples.CGF0 false true in
  Examples.invoked = Done (Examples.invokedCall,
                           {| mlir := Examples.invokedIR;
                              builder_ip := Examples.atEndOfBody;
                              typesState := Examples.noneInProgress;
                              mayThrow := true; callWithExceptionCtx := None |}) ∧
  ∃ DestPtr store load loaded st',
    emitCall_extractReturn CGF (Some Examples.endOfBody) Examples.s32 Examples.noSlot
        Examples.invokedCall Examples.invokedIR
      = Done (RValue_get loaded, st') ∧
    (blk_ops <$> blocks st' !! 1) = Some [Examples.invokedCall; store; 3] ∧
    (op_kind <$> ops st' !! store)
      = Some (StoreOp Examples.invokedResult (getPointer DestPtr)) ∧
    (blk_ops <$> blocks st' !! 0) = Some [1; load] ∧
    (op_kind <$> ops st' !! load) = Some (LoadOp (getPointer DestPtr)) ∧
    (op_results <$> ops st' !! load) = Some [loaded].
Proof.
  intros CGF. split; [by vm_compute |].
  assert ((op_results <$> ops Examples.invokedIR !! Examples.invokedCall)
          = Some [Examples.invokedResult]) as H3 by (by vm_compute).
  assert (Block_getParent Examples.invokedIR (ip_block Examples.endOfBody)
          ≠ getParentRegion Examples.invokedIR Examples.invokedCall) as Hne
    by (by vm_compute).
  assert (getBlock Examples.invokedIR Examples.invokedCall = Some 1) as Hblk
    by (by vm_compute).
  assert (blocks Examples.invokedIR !! 1
          = Some {| blk_parent := Some 1; blk_ops := [] ++ Examples.invokedCall :: [3] |})
    as HBc by (by vm_compute).
  assert (blocks Examples.invokedIR !! ip_block Examples.endOfBody
          = Some {| blk_parent := Some 0; blk_ops := [1] |}) as HBp by (by vm_compute).
  assert (NoDup ([] ++ Examples.invokedCall :: [3])) as Hnd.
  { apply NoDup_cons. split; [| apply NoDup_singleton].
    rewrite list_elem_of_singleton. discriminate. }
  destruct (proj2 (C8_scalar_return CGF Examples.endOfBody Examples.s32 Examples.noSlot
                     Examples.invokedCall Examples.invokedResult Examples.invokedIR
                     eq_refl eq_refl H3 eq_refl)
              Hne 1 _ _ [] [3] eq_refl Hblk HBc eq_refl Hnd HBp)
    as (DestPtr & store & load & loaded & st' & H & _ & Hb1 & Hs & Hb0 & Hl & Hr & _).
  exists DestPtr, store, load, loaded, st'.
  split; [exact H |]. split; [by rewrite Hb1 |]. split; [exact Hs |].
  split; [exact (f_equal (fmap blk_ops) Hb0) |]. split; [exact Hl | exact Hr].
Defined.

(** ** Further properties of the arrangers *)

Lemma foldl_types_length (sizeT : QualType) (l : list (QualType * ExtParameterInfo)) :
  ∀ prefix,
  length (foldl (λ acc TE, if hasPassObjectSize TE.2 then acc ++ [TE.1; sizeT]
                           else acc ++ [TE.1]) prefix l)
  = length prefix + length l +
    length (filter (λ TE, hasPassObjectSize TE.2 = true) l).
Proof.
  induction l as [| [T E] l IH]; intros prefix; simpl; [lia |].
  rewrite IH. destruct (hasPassObjectSize E) eqn:HE.
  - rewrite filter_cons_True by done. rewrite length_app. simpl. lia.
  - rewrite filter_cons_False by (simpl; congruence). rewrite length_app. simpl. lia.
Qed.

Lemma foldl_infos_length (l : list ExtParameterInfo) :
  ∀ acc,
  length (foldl (λ acc ParamInfo,
                   if hasPassObjectSize ParamInfo
                   then acc ++ [ParamInfo; ExtParameterInfo_default]
                   else acc ++ [ParamInfo]) acc l)
  = length acc + length l + length (filter (λ e, hasPassObjectSize e = true) l).
Proof.
  induction l as [| E l IH]; intros acc; simpl; [lia |].
  rewrite IH. destruct (hasPassObjectSize E) eqn:HE.
  - rewrite filter_cons_True by done. rewrite length_app. simpl. lia.
  - rewrite filter_cons_False by congruence. rewrite length_app. simpl. lia.
Qed.

Lemma filter_zip_snd_length (ps : list QualType) (es : list ExtParameterInfo) :
  length ps = length es →
  length (filter (λ TE : QualType * ExtParameterInfo, hasPassObjectSize TE.2 = true)
                 (zip ps es))
  = length (filter (λ e, hasPassObjectSize e = true) es).
Proof.
  revert es. induction ps as [| T ps IH]; intros [| E es] Hlen; simpl in *; try done.
  injection Hlen as Hlen. destruct (hasPassObjectSize E) eqn:HE.
  - rewrite !filter_cons_True by done. simpl. by rewrite IH.
  - rewrite !filter_cons_False by (simpl; congruence). by rewrite IH.
Qed.

(** Arranging a prototype never trips an assertion: the extended infos
    that reach the factory are none or one per argument type, and the
    required count is within the argument count. *)
Lemma arrangeCIRFunctionInfo_total CGT opts prefix FTP :
  (hasExtParameterInfos FTP = true →
   length (getExtParameterInfos FTP) = getNumParams FTP) →
  ∃ FI, arrangeCIRFunctionInfo CGT opts prefix FTP = Done FI ∧
        length (arguments FI) =
          length prefix + getNumParams FTP +
          length (filter (λ e, hasPassObjectSize e = true) (getExtParameterInfos FTP)) ∧
        (isVariadic FI = true → getNumRequiredArgs FI = length (arguments FI)) ∧
        isVariadic FI = isVariadic_proto FTP.
Proof.
  intros Hext. unfold arrangeCIRFunctionInfo.
  destruct (hasExtParameterInfos FTP) eqn:EH.
  - specialize (Hext eq_refl).
    unfold appendParameterTypes, addExtParameterInfosForCall. rewrite EH. simpl.
    unfold_monad.
    rewrite (bool_decide_eq_true_2 _ Hext).
    rewrite foldl_types_length, foldl_infos_length.
    rewrite length_zip, filter_zip_snd_length by (unfold getNumParams in Hext; lia).
    rewrite resize_length.
    unfold getNumParams in *.
    rewrite Hext, Nat.min_id.
    rewrite !bool_decide_eq_true_2 by lia.
    unfold CIRGenTypes_arrangeCIRFunctionInfo.
    set (argTypes := foldl _ prefix _).
    set (paramInfos := resize _ _ _).
    assert (length argTypes = length prefix + length (fpt_ParamTypes FTP) +
            length (filter (λ e, hasPassObjectSize e = true) (getExtParameterInfos FTP)))
      as Hlen.
    { subst argTypes. rewrite foldl_types_length, length_zip, filter_zip_snd_length by lia.
      lia. }
    assert (length paramInfos = length argTypes) as Hpi.
    { subst paramInfos. by rewrite resize_length. }
    destruct (proj2 (create_Done_iff (ClangCallConvToCIRCallConv CGT (getCC (getExtInfo FTP)))
                (bool_decide (opts = IsInstanceMethod)) (bool_decide (opts = IsChainCall))
                (getExtInfo FTP) paramInfos (fpt_ReturnType FTP) argTypes
                (forPrototypePlus FTP (length prefix)))) as [FI HFI].
    { split; [by right |]. unfold forPrototypePlus. rewrite EH.
      destruct (isVariadic_proto FTP); simpl; [| done]. intros _.
      unfold getNumParams. lia. }
    exists FI. split; [done |].
    destruct (create_arguments _ _ _ _ _ _ _ _ _ HFI) as (Ha & _ & _ & Hr & _).
    rewrite Ha. split; [lia |].
    unfold getNumRequiredArgs, isVariadic. rewrite Hr.
    unfold forPrototypePlus. rewrite EH.
    destruct (isVariadic_proto FTP); simpl; [| done].
    split; [intros _; unfold getNumParams; lia | done].
  - rewrite appendParameterTypes_plain by done. simpl.
    unfold CIRGenTypes_arrangeCIRFunctionInfo.
    destruct (proj2 (create_Done_iff (ClangCallConvToCIRCallConv CGT (getCC (getExtInfo FTP)))
                (bool_decide (opts = IsInstanceMethod)) (bool_decide (opts = IsChainCall))
                (getExtInfo FTP) [] (fpt_ReturnType FTP) (prefix ++ fpt_ParamTypes FTP)
                (forPrototypePlus FTP (length prefix)))) as [FI HFI].
    { split; [by left |]. unfold forPrototypePlus. rewrite EH.
      destruct (isVariadic_proto FTP); simpl; [| done]. intros _.
      rewrite length_app. unfold getNumParams. lia. }
    exists FI. split; [done |].
    destruct (create_arguments _ _ _ _ _ _ _ _ _ HFI) as (Ha & _ & _ & Hr & _).
    rewrite Ha, length_app.
    assert (getExtParameterInfos FTP = []) as ->.
    { unfold getExtParameterInfos. unfold hasExtParameterInfos in EH.
      apply bool_decide_eq_false in EH.
      destruct (pi_ExtParameterInfos (fpt_info FTP)); [| done].
      exfalso. apply EH. eauto. }
    simpl. split; [unfold getNumParams; lia |].
    unfold getNumRequiredArgs, isVariadic. rewrite Hr.
    unfold forPrototypePlus. rewrite EH.
    destruct (isVariadic_proto FTP); simpl; [| done].
    split; [intros _; unfold getNumParams; lia | done].
Qed.

(** ** Further properties of the call emitter *)

(** In emitCall the machine function type and the slot types come from
    the same descriptor and the same converter: the input of the function
    type at a position is the slot type at that position. *)
Lemma emitCall_slot_types (conv : QualType → mlirType) FI r v ArgNo T :
  arguments FI !! ArgNo = Some T →
  ArgNo < getNumInputs (FuncType (conv <$> requiredArguments FI) r v) →
  getInput_ (FuncType (conv <$> requiredArguments FI) r v) ArgNo = conv T.
Proof.
  unfold getInput_, getInput, getNumInputs, arguments, requiredArguments. simpl.
  rewrite length_fmap, length_take. intros HT Hlt.
  apply lookup_take_Some in HT as [HT _].
  rewrite list_lookup_fmap, lookup_take_lt by lia. by rewrite HT.
Qed.

(** What the type iterator of the argument loop reads at a position:
    the argument type at that position when the descriptor has one, and
    then the slot type is the input of the function type at that position
    if there is one. *)
Lemma emitCall_type_it CGF FI r v ArgNo :
  let CIRFuncTy := FuncType (convertType CGF <$> requiredArguments FI) r v in
  let T := match drop ArgNo (arg_begin FI) with
           | T :: _ => T
           | [] => pastArgEnd CGF ArgNo
           end in
  tail (drop ArgNo (arg_begin FI)) = drop (S ArgNo) (arg_begin FI) ∧
  (ArgNo < getNumInputs CIRFuncTy → getInput_ CIRFuncTy ArgNo = convertType CGF T) ∧
  (∀ T', arguments FI !! ArgNo = Some T' → T = T').
Proof.
  intros CIRFuncTy T. subst T CIRFuncTy.
  unfold getInput_, getInput, getNumInputs, arguments, requiredArguments. simpl.
  fold (arg_begin FI).
  destruct (arg_begin FI !! ArgNo) as [T |] eqn:HT.
  - rewrite (drop_S _ _ _ HT). simpl. split; [done |]. split.
    + rewrite length_fmap, length_take. intros Hlt.
      rewrite list_lookup_fmap, lookup_take_lt by lia. by rewrite HT.
    + intros T' HT'. apply lookup_take_Some in HT' as [HT' _]. congruence.
  - pose proof HT as Hge. apply lookup_ge_None in Hge.
    rewrite !drop_ge by lia. simpl. split; [done |]. split.
    + rewrite length_fmap, length_take. lia.
    + intros T' HT'. apply lookup_take_Some in HT' as [HT' _]. congruence.
Qed.

(** Integer arguments go through emitCall untouched or not at all: when
    every argument is an integer scalar and the argument loop completes,
    the operands of the call are the supplied values themselves and
    nothing was emitted. *)
Lemma emitCall_args_integers CGF ip FI r v :
  ∀ CallArgs ArgNo Vs st st',
    emitCall_args CGF ip (FuncType (convertType CGF <$> requiredArguments FI) r v)
      ArgNo (drop ArgNo (arg_begin FI)) CallArgs st = Done (Vs, st') →
    Forall (λ Arg, ∃ V, ca_value Arg = HasRV (RValue_get V) ∧
                        isa_IntType (val_type V) = true) CallArgs →
    Forall2 (λ Arg V, ca_value Arg = HasRV (RValue_get V)) CallArgs Vs ∧ st' = st.
Proof.
  induction CallArgs as [| Arg rest IH]; intros ArgNo Vs st st' H HF; simpl in H.
  - unfold_monad. simpl in H. injection H as <- <-. split; [constructor | done].
  - apply Forall_cons in HF as [(V & HV & Hint) HF].
    destruct (emitCall_type_it CGF FI r v ArgNo) as (Htl & Hslot & _).
    rewrite Htl in H.
    set (T := match drop ArgNo (arg_begin FI) with
              | T :: _ => T
              | [] => pastArgEnd CGF ArgNo
              end) in *.
    unfold_monad. simpl in H.
    destruct (emitCall_arg _ _ _ _ Arg st) as [[V' s1] |] eqn:EA; [| discriminate].
    destruct (emitCall_args _ _ _ _ _ rest s1) as [[Vs' s2] |] eqn:ER; [| discriminate].
    injection H as <- <-.
    assert (isa_RecordType (convertType CGF T) = false) as Hrec.
    { destruct (isa_RecordType (convertType CGF T)) eqn:E; [| done].
      unfold emitCall_arg, emitCall_aggregateArg in EA. rewrite E in EA. simpl in EA.
      unfold isAggregate in EA. rewrite HV in EA. simpl in EA. discriminate. }
    destruct (emitCall_arg_scalar ip _ ArgNo (convertType CGF T) Arg V st Hrec HV Hslot)
      as (_ & _ & _ & _ & Hsame).
    destruct (Hsame _ _ EA Hint) as [-> ->].
    destruct (IH _ _ _ _ ER HF) as [HF2 ->].
    split; [by constructor | done].
Qed.

(** A call created at an insertion point lies in the region of the
    insertion block. *)
Lemma createCallLike_region p callee fnTy args exc cc se attrs st c st' :
  createCallLike (Some p) callee fnTy args exc cc se attrs st = Done (c, st') →
  Block_getParent st' (ip_block p) = getParentRegion st' c ∧
  (op_kind <$> ops st' !! c) = Some (CallOp callee args exc cc se) ∧
  (op_results <$> ops st' !! c) =
    Some (imap (λ i T, {| val_id := nextValue st + i; val_type := T;
                          val_def := DefinedBy c |}) (callResultTypes fnTy)).
Proof.
  unfold createCallLike, createOp, updateOp. unfold_monad. simpl.
  intros [= <- <-]. unfold getParentRegion, getBlock, Block_getParent. simpl.
  rewrite lookup_alter_eq, lookup_insert_eq. simpl.
  split; [| done].
  destruct (blocks st !! ip_block p) as [B |] eqn:EB; simpl; [| by rewrite EB].
  by rewrite lookup_insert_eq.
Qed.

(** The plain (not invoke-wrapped) emission leaves the call in the region
    of the builder's insertion block and does not move the builder. *)
Lemma emitCallLikeOp_plain CGF indirectFuncTy indirectFuncVal directFuncOp CIRCallArgs
    callingConv sideEffect extraFnAttrs s c s' :
  emitCallLikeOp CGF indirectFuncTy indirectFuncVal directFuncOp CIRCallArgs false
    callingConv sideEffect extraFnAttrs s = Done (c, s') →
  ∃ p, builder_ip s = Some p ∧ builder_ip s' = Some p ∧
       Block_getParent (mlir s') (ip_block p) = getParentRegion (mlir s') c ∧
       ∃ callee, (op_kind <$> ops (mlir s') !! c)
                 = Some (CallOp callee CIRCallArgs false callingConv sideEffect).
Proof.
  unfold emitCallLikeOp. unfold_monad. unfold liftMLIR. simpl.
  destruct (builder_ip s) as [p |] eqn:Eip; simpl; [| discriminate].
  intros H. exists p. split; [done |].
  assert (∀ callee fnTy cc m,
            createCallLike (Some p) callee fnTy CIRCallArgs false cc sideEffect
              extraFnAttrs (mlir s) = Done (c, m) →
            Block_getParent m (ip_block p) = getParentRegion m c ∧
            (op_kind <$> ops m !! c) = Some (CallOp callee CIRCallArgs false cc sideEffect))
    as Hcreate.
  { intros callee fnTy cc m Hm.
    destruct (createCallLike_region _ _ _ _ _ _ _ _ _ _ _ Hm) as (Hr & Hk & _). done. }
  destruct indirectFuncTy as [ty |].
  - destruct (bool_decide (callingConv = cir_C)) eqn:ECC; [| discriminate].
    apply bool_decide_eq_true in ECC. subst callingConv.
    destruct indirectFuncVal as [v |]; [| discriminate].
    injection H as <- <-. simpl.
    destruct (Hcreate (IndirectCallee v ty) ty cir_C _ eq_refl) as [Hr Hk]. eauto.
  - destruct directFuncOp as [fn |]; [| discriminate].
    injection H as <- <-. simpl.
    destruct (Hcreate (DirectCallee (fn_name fn)) (fn_type fn) callingConv _ eq_refl)
      as [Hr Hk]. eauto.
Qed.

(** So the scalar result of a plain call is handed back directly. *)
Lemma plain_call_scalar_result CGF indirectFuncTy indirectFuncVal directFuncOp CIRCallArgs
    callingConv sideEffect extraFnAttrs s c s' RetTy ReturnValue R0 :
  emitCallLikeOp CGF indirectFuncTy indirectFuncVal directFuncOp CIRCallArgs false
    callingConv sideEffect extraFnAttrs s = Done (c, s') →
  isa_VoidType (convertType CGF RetTy) = false →
  getEvaluationKind CGF RetTy = TEK_Scalar →
  (op_results <$> ops (mlir s') !! c) = Some [R0] →
  val_type R0 = convertType CGF RetTy →
  emitCall_extractReturn CGF (builder_ip s) RetTy ReturnValue c (mlir s')
  = Done (RValue_get R0, mlir s').
Proof.
  intros H H1 H2 H3 H4.
  destruct (emitCallLikeOp_plain _ _ _ _ _ _ _ _ _ _ _ H) as (p & Hip & _ & Hr & _).
  rewrite Hip. unfold emitCall_extractReturn. rewrite H1, H2. unfold_monad.
  rewrite H3. simpl. rewrite H4, Hr.
  rewrite bool_decide_eq_true_2 by done.
  by rewrite bool_decide_eq_false_2 by (intros E; by apply E).
Qed.

(** ** The recursive call of [int Int(int i)] *)

(** Arranging the declaration gives a descriptor with one required
    argument, argument types [int], return type [int] and no extended
    info. *)
Example Int_declaration_arranged :
  arrangeFunctionDeclaration Examples.CGT0 Examples.Int_decl = Done Examples.Int_FI ∧
  getNumRequiredArgs Examples.Int_FI = 1 ∧
  arguments Examples.Int_FI = [Examples.s32] ∧
  getReturnType Examples.Int_FI = Examples.s32 ∧
  FI_getExtParameterInfos Examples.Int_FI = [].
Proof. repeat split; reflexivity. Qed.

(** Where no unwind destination is required, emitting the call creates one
    direct call whose only operand is the supplied scalar, and hands back
    the result of the call. *)
Example Int_call_emitted :
  ∃ s, emitCall (Examples.CGF0 false false) Examples.Int_FI Examples.Int_callee
         Examples.noSlot [Examples.scalarArg 1 Examples.s32i Examples.s32] false None
         Examples.bodyState
       = Done ((RValue_get {| val_id := 100; val_type := Examples.s32i;
                              val_def := DefinedBy 0 |}, 0), s) ∧
       (blk_ops <$> blocks (mlir s) !! 0) = Some [0] ∧
       (op_kind <$> ops (mlir s) !! 0)
         = Some (CallOp (DirectCallee "_Z3Inti") [Examples.arg0] false cir_C
                        SideEffect_All) ∧
       nextOp (mlir s) = 1.
Proof. eexists. split; [by vm_compute |]. by vm_compute. Qed.

(** Where an unwind destination is required, the same call is emitted in
    the try region of a synthesized scope, and its result reaches the
    point of use through the temporary [tmp.try.call.res]. *)
Example Int_call_invoked :
  ∃ s, emitCall (Examples.CGF0 false true) Examples.Int_FI Examples.Int_callee
         Examples.noSlot [Examples.scalarArg 1 Examples.s32i Examples.s32] false None
         Examples.bodyState
       = Done ((RValue_get {| val_id := 102; val_type := Examples.s32i;
                              val_def := DefinedBy 6 |}, 2), s) ∧
       (blk_ops <$> blocks (mlir s) !! 0) = Some [1; 6] ∧
       (blk_ops <$> blocks (mlir s) !! 1) = Some [2; 5; 3] ∧
       (op_kind <$> ops (mlir s) !! 1) = Some (TryOp 1 [2]) ∧
       (alloca_name <$> allocas (mlir s)) = ["tmp.try.call.res"].
Proof. eexists. split; [by vm_compute |]. by vm_compute. Qed.
(* ================================================================== *)
(** * Further properties of the unit                                  *)
(* ================================================================== *)

(** ** Inversion of the monadic plumbing *)

Lemma Outcome_bind_Done {A B} (m : Outcome A) (k : A → Outcome B) (b : B) :
  (m ≫= k) = Done b ↔ ∃ a, m = Done a ∧ k a = Done b.
Proof.
  unfold mbind, Outcome_bind. destruct m as [a |]; split.
  - eauto.
  - by intros (a' & [= <-] & H).
  - discriminate.
  - by intros (a' & [=] & _).
Qed.

Lemma Emit_bind_Done {S A B} (m : Emit S A) (k : A → Emit S B) (s : S) (r : B * S) :
  (m ≫= k) s = Done r ↔ ∃ a s1, m s = Done (a, s1) ∧ k a s1 = Done r.
Proof.
  unfold mbind, Emit_bind. destruct (m s) as [[a s1] |]; split.
  - eauto.
  - by intros (a' & s1' & [= <- <-] & H).
  - discriminate.
  - by intros (a' & s1' & [=] & _).
Qed.

Lemma Emit_bind_eq {S A B} (m : Emit S A) (k : A → Emit S B) (s s1 : S) (a : A) :
  m s = Done (a, s1) → (m ≫= k) s = k a s1.
Proof. unfold mbind, Emit_bind. by intros ->. Qed.

Lemma lift_Done {S A} (m : Outcome A) (s : S) (a : A) (s' : S) :
  lift m s = Done (a, s') ↔ m = Done a ∧ s' = s.
Proof.
  unfold lift. destruct m; split; try discriminate.
  - by intros [= <- <-].
  - by intros [[= <-] ->].
  - by intros [[=] _].
Qed.

Lemma lift_assert_Done {S} (c : bool) (msg : string) (s : S) (u : unit) (s' : S) :
  lift (assert_ c msg) s = Done (u, s') ↔ c = true ∧ s' = s.
Proof.
  rewrite lift_Done. unfold assert_. destruct c, u; split; intros [H1 H2];
    (done || discriminate).
Qed.

Lemma assert_Done_iff (c : bool) (msg : string) :
  (∃ u, assert_ c msg = Done u) ↔ c = true.
Proof.
  unfold assert_. destruct c; split; eauto; [by intros [u [=]] | discriminate].
Qed.

(** ** The descriptor and its accessors *)

Lemma create_round_trip cirCC im cc info paramInfos resultType argTypes required FI :
  create cirCC im cc info paramInfos resultType argTypes required = Done FI →
  getReturnType FI = resultType ∧
  arguments FI = argTypes ∧
  arg_size FI = length argTypes ∧
  FI_getExtParameterInfos FI = paramInfos ∧
  isVariadic FI = allowsOptionalArgs required ∧
  requiredArguments FI =
    match required with
    | RequiredArgs_All => argTypes
    | RequiredArgs_N n => take n argTypes
    end ∧
  EffectiveCallingConvention FI = cirCC ∧
  ASTCallingConvention FI = getCC info ∧
  InstanceMethod FI = im ∧ ChainCall FI = cc ∧ NoReturn FI = getNoReturn info.
Proof.
  intros H.
  destruct (create_arguments _ _ _ _ _ _ _ _ _ H) as (Ha & Hn & Hr & Hq & He).
  destruct (requiredArguments_create _ _ _ _ _ _ _ _ _ H) as (Hra & _ & _).
  split; [done |]. split; [done |]. split; [done |].
  unfold create in H. unfold_monad.
  destruct (bool_decide (paramInfos = []) || bool_decide (length paramInfos = length argTypes))
    eqn:E1; [| discriminate].
  destruct (negb (allowsOptionalArgs required) || _) eqn:E2; [| discriminate].
  injection H as <-. simpl in *.
  split.
  { unfold FI_getExtParameterInfos. simpl.
    destruct paramInfos as [| p ps]; [done |].
    rewrite bool_decide_eq_false_2 in E1 |- * by discriminate. simpl in E1 |- *.
    apply bool_decide_eq_true in E1. apply take_ge. simpl in *. lia. }
  split; [done |].
  split.
  { rewrite Hra. unfold getNumRequiredArgs, isVariadic, arg_size. simpl.
    destruct required; simpl; [by rewrite take_ge | done]. }
  done.
Qed.

(** What the factory stores is what the accessors of the descriptor give
    back: return type, argument types, extended infos, flags, and the
    required arguments as the leading part of the argument types. *)
Theorem descriptor_round_trip cirCC im cc info paramInfos resultType argTypes required FI :
  create cirCC im cc info paramInfos resultType argTypes required = Done FI →
  getReturnType FI = resultType ∧
  arguments FI = argTypes ∧
  arg_size FI = length argTypes ∧
  FI_getExtParameterInfos FI = paramInfos ∧
  isVariadic FI = allowsOptionalArgs required ∧
  requiredArguments FI =
    match required with
    | RequiredArgs_All => argTypes
    | RequiredArgs_N n => take n argTypes
    end ∧
  EffectiveCallingConvention FI = cirCC ∧
  ASTCallingConvention FI = getCC info ∧
  InstanceMethod FI = im ∧ ChainCall FI = cc ∧ NoReturn FI = getNoReturn info.
Proof. apply create_round_trip. Qed.

Lemma descriptor_round_trip_witness :
  ∃ FI, create cir_C false false Examples.ExtInfo_C [] Examples.s32
          [Examples.s32; DoubleTy] (RequiredArgs_N 1) = Done FI ∧
        requiredArguments FI = [Examples.s32] ∧
        arguments FI = [Examples.s32; DoubleTy].
Proof.
  eexists. split; [reflexivity |].
  pose proof (descriptor_round_trip cir_C false false Examples.ExtInfo_C [] Examples.s32
                [Examples.s32; DoubleTy] (RequiredArgs_N 1) _ eq_refl)
    as (_ & Ha & _ & _ & _ & Hr & _).
  split; [exact Hr | exact Ha].
Defined.

(** ** Parameter types and extended parameter infos *)

Lemma foldl_expandedTypes (sizeT : QualType) (l : list (QualType * ExtParameterInfo)) :
  ∀ acc,
  foldl (λ acc TE, if hasPassObjectSize TE.2 then acc ++ [TE.1; sizeT]
                   else acc ++ [TE.1]) acc l
  = acc ++ expandedTypes sizeT l.
Proof.
  unfold expandedTypes.
  induction l as [| TE l IH]; intros acc; simpl.
  - by rewrite app_nil_r.
  - rewrite IH. destruct (hasPassObjectSize TE.2); by rewrite <- app_assoc.
Qed.

Lemma foldl_expandedInfos (l : list ExtParameterInfo) :
  ∀ acc,
  foldl (λ acc ParamInfo,
           if hasPassObjectSize ParamInfo
           then acc ++ [ParamInfo; ExtParameterInfo_default]
           else acc ++ [ParamInfo]) acc l
  = acc ++ expandedInfos l.
Proof.
  unfold expandedInfos.
  induction l as [| E l IH]; intros acc; simpl.
  - by rewrite app_nil_r.
  - rewrite IH. destruct (hasPassObjectSize E); by rewrite <- app_assoc.
Qed.

Lemma expandedInfos_length (l : list ExtParameterInfo) :
  length (expandedInfos l) =
  length l + length (filter (λ e, hasPassObjectSize e = true) l).
Proof.
  pose proof (foldl_infos_length l []) as H.
  rewrite foldl_expandedInfos in H. simpl in H. done.
Qed.

Lemma expandedTypes_length (sizeT : QualType) (ps : list QualType)
    (es : list ExtParameterInfo) :
  length ps = length es →
  length (expandedTypes sizeT (zip ps es)) = length (expandedInfos es).
Proof.
  intros Hlen.
  pose proof (foldl_types_length sizeT (zip ps es) []) as H.
  rewrite foldl_expandedTypes in H. simpl in H.
  rewrite H, length_zip, filter_zip_snd_length, expandedInfos_length by done. lia.
Qed.

Lemma resize_le {A} (n : nat) (d : A) (l : list A) :
  length l ≤ n → resize n d l = l ++ replicate (n - length l) d.
Proof. intros H. unfold resize. by rewrite take_ge. Qed.

Lemma addExtParameterInfosForCall_closed paramInfos proto prefixArgs totalArgs :
  hasExtParameterInfos proto = true →
  length paramInfos ≤ prefixArgs →
  getNumParams proto + prefixArgs ≤ totalArgs →
  prefixArgs + length (expandedInfos (getExtParameterInfos proto)) ≤ totalArgs →
  addExtParameterInfosForCall paramInfos proto prefixArgs totalArgs =
  Done (paramInfos ++ replicate (prefixArgs - length paramInfos) ExtParameterInfo_default
          ++ expandedInfos (getExtParameterInfos proto)
          ++ replicate (totalArgs - (prefixArgs +
                          length (expandedInfos (getExtParameterInfos proto))))
                       ExtParameterInfo_default).
Proof.
  intros H1 H2 H3 H4. unfold addExtParameterInfosForCall. rewrite H1.
  unfold_monad. simpl.
  rewrite !bool_decide_eq_true_2 by done.
  rewrite foldl_expandedInfos.
  rewrite (resize_le prefixArgs) by done.
  assert (length ((paramInfos ++
            replicate (prefixArgs - length paramInfos) ExtParameterInfo_default) ++
            expandedInfos (getExtParameterInfos proto))
          = prefixArgs + length (expandedInfos (getExtParameterInfos proto))) as Hlen.
  { rewrite !length_app, length_replicate. lia. }
  rewrite bool_decide_eq_true_2 by lia.
  rewrite resize_le by lia. rewrite Hlen.
  by rewrite <- !app_assoc.
Qed.

(** addExtParameterInfosForCall returns exactly when the prototype has
    extended infos, the given infos fit in the prefix and the total leaves
    room for the prefix, the parameters and one extra slot per
    pass_object_size parameter.  The result has one info per argument: the
    given infos, default infos up to the prefix, the infos of the prototype
    with a default info after each pass_object_size one, and default infos
    up to the total. *)
Theorem addExtParameterInfosForCall_spec paramInfos proto prefixArgs totalArgs :
  ((∃ r, addExtParameterInfosForCall paramInfos proto prefixArgs totalArgs = Done r) ↔
   hasExtParameterInfos proto = true ∧
   length paramInfos ≤ prefixArgs ∧
   getNumParams proto + prefixArgs ≤ totalArgs ∧
   prefixArgs + length (getExtParameterInfos proto) + passObjectSizeCount proto
     ≤ totalArgs) ∧
  (∀ r, addExtParameterInfosForCall paramInfos proto prefixArgs totalArgs = Done r →
     length r = totalArgs ∧
     r = paramInfos
         ++ replicate (prefixArgs - length paramInfos) ExtParameterInfo_default
         ++ expandedInfos (getExtParameterInfos proto)
         ++ replicate (totalArgs - (prefixArgs + length (getExtParameterInfos proto)
                                    + passObjectSizeCount proto))
                      ExtParameterInfo_default).
Proof.
  assert (∀ r, addExtParameterInfosForCall paramInfos proto prefixArgs totalArgs = Done r →
            hasExtParameterInfos proto = true ∧
            length paramInfos ≤ prefixArgs ∧
            getNumParams proto + prefixArgs ≤ totalArgs ∧
            prefixArgs + length (getExtParameterInfos proto) + passObjectSizeCount proto
              ≤ totalArgs) as Hnec.
  { intros r H. unfold addExtParameterInfosForCall in H. unfold_monad.
    destruct (hasExtParameterInfos proto); [| discriminate].
    destruct (bool_decide (length paramInfos ≤ prefixArgs)) eqn:E2; [| discriminate].
    destruct (bool_decide (getNumParams proto + prefixArgs ≤ totalArgs)) eqn:E3;
      [| discriminate].
    apply bool_decide_eq_true in E2, E3.
    rewrite foldl_expandedInfos in H.
    destruct (bool_decide _) eqn:E4 in H; [| discriminate].
    apply bool_decide_eq_true in E4.
    rewrite length_app, resize_length, expandedInfos_length in E4.
    unfold passObjectSizeCount. repeat split; [done | done | lia]. }
  split.
  - split.
    + intros [r H]. eauto.
    + intros (H1 & H2 & H3 & H4). eexists.
      apply addExtParameterInfosForCall_closed; try done.
      rewrite expandedInfos_length. unfold passObjectSizeCount in H4. lia.
  - intros r H. destruct (Hnec r H) as (H1 & H2 & H3 & H4).
    rewrite addExtParameterInfosForCall_closed in H; try done.
    2: { rewrite expandedInfos_length. unfold passObjectSizeCount in H4. lia. }
    injection H as <-. rewrite expandedInfos_length. unfold passObjectSizeCount in *.
    split.
    + rewrite !length_app, !length_replicate, expandedInfos_length. lia.
    + do 3 f_equal. f_equal. lia.
Qed.

Lemma expanded_aligned (sizeT : QualType) :
  ∀ (es : list ExtParameterInfo) (ps : list QualType) (i : nat) (E : ExtParameterInfo),
    length ps = length es →
    expandedInfos es !! i = Some E → hasPassObjectSize E = true →
    expandedTypes sizeT (zip ps es) !! S i = Some sizeT ∧
    expandedInfos es !! S i = Some ExtParameterInfo_default.
Proof.
  unfold expandedInfos, expandedTypes.
  induction es as [| E0 es IH]; intros [| T0 ps] i E Hlen Hi HE; simpl in *; try done.
  injection Hlen as Hlen.
  destruct (hasPassObjectSize E0) eqn:E0p; simpl in *.
  - destruct i as [| [| j]]; simpl in *.
    + done.
    + injection Hi as <-. done.
    + by apply (IH ps j E).
  - destruct i as [| j]; simpl in *.
    + injection Hi as <-. congruence.
    + by apply (IH ps j E).
Qed.

(** appendParameterTypes on a prototype with extended parameter infos:
    the argument types are the prefix, then each parameter type, with a
    size-typed argument after each pass_object_size parameter; the infos
    are default infos for the prefix, then each parameter's info, with a
    default info for each added size argument.  The two arrays stay
    aligned: they have the same length, and the slot after an info with
    pass_object_size holds the size type and a default info. *)
Theorem appendParameterTypes_expands CGT prefix FPT :
  hasExtParameterInfos FPT = true →
  length (getExtParameterInfos FPT) = getNumParams FPT →
  let sizeT := getSizeType (astContext CGT) in
  let types := prefix ++ expandedTypes sizeT (zip (fpt_ParamTypes FPT)
                                                  (getExtParameterInfos FPT)) in
  let infos := replicate (length prefix) ExtParameterInfo_default ++
               expandedInfos (getExtParameterInfos FPT) in
  appendParameterTypes CGT prefix [] FPT = Done (types, infos) ∧
  length types = length infos ∧
  length types = length prefix + getNumParams FPT + passObjectSizeCount FPT ∧
  (∀ i E, infos !! i = Some E → hasPassObjectSize E = true →
          types !! S i = Some sizeT ∧ infos !! S i = Some ExtParameterInfo_default).
Proof.
  intros EH Hlen sizeT types infos.
  assert (length (expandedTypes sizeT (zip (fpt_ParamTypes FPT) (getExtParameterInfos FPT)))
          = length (expandedInfos (getExtParameterInfos FPT))) as HL.
  { apply expandedTypes_length. unfold getNumParams in Hlen. done. }
  split; [| split; [| split]].
  - unfold appendParameterTypes. rewrite EH. simpl. unfold_monad.
    rewrite (bool_decide_eq_true_2 _ Hlen).
    rewrite foldl_expandedTypes.
    rewrite addExtParameterInfosForCall_closed; try done; simpl; try lia.
    + rewrite Nat.sub_0_r. do 3 f_equal.
      rewrite length_app. fold sizeT. rewrite HL.
      replace (_ - _) with 0 by lia. simpl. by rewrite app_nil_r.
    + rewrite length_app. fold sizeT. rewrite HL, expandedInfos_length.
      unfold getNumParams in *. lia.
    + rewrite length_app. fold sizeT. rewrite HL. lia.
  - subst types infos. rewrite !length_app, length_replicate. lia.
  - subst types. rewrite length_app, HL, expandedInfos_length.
    unfold passObjectSizeCount. lia.
  - intros i E Hi HE. subst types infos.
    destruct (decide (i < length prefix)) as [Hlt | Hge].
    + rewrite lookup_app_l in Hi by (rewrite length_replicate; lia).
      apply lookup_replicate in Hi as [-> _]. simpl in HE. discriminate.
    + rewrite lookup_app_r in Hi by (rewrite length_replicate; lia).
      rewrite length_replicate in Hi.
      assert (length (fpt_ParamTypes FPT) = length (getExtParameterInfos FPT)) as Hlen'
        by (unfold getNumParams in Hlen; lia).
      destruct (expanded_aligned sizeT (getExtParameterInfos FPT) (fpt_ParamTypes FPT)
                  (i - length prefix) E Hlen' Hi HE) as [H1 H2].
      rewrite lookup_app_r by lia.
      rewrite lookup_app_r by (rewrite length_replicate; lia).
      rewrite length_replicate.
      replace (S i - length prefix) with (S (i - length prefix)) by lia. done.
Qed.

Lemma appendParameterTypes_expands_witness :
  appendParameterTypes Examples.CGT0 [Examples.s32] [] Examples.pos_proto =
  Done ([Examples.s32; VoidPtrTy; IntTy 64 false; Examples.s32],
        [ExtParameterInfo_default; Examples.pos_info; ExtParameterInfo_default;
         ExtParameterInfo_default]).
Proof.
  exact (proj1 (appendParameterTypes_expands Examples.CGT0 [Examples.s32]
                  Examples.pos_proto eq_refl eq_refl)).
Defined.

Lemma arrangeFreeFunctionType_returns CGT FTP :
  (hasExtParameterInfos FTP = true →
   length (getExtParameterInfos FTP) = getNumParams FTP) →
  ∃ FI, arrangeFreeFunctionType CGT FTP = Done FI ∧
        length (arguments FI) = getNumParams FTP + passObjectSizeCount FTP ∧
        getReturnType FI = fpt_ReturnType FTP ∧
        isVariadic FI = isVariadic_proto FTP ∧
        (isVariadic FI = true → getNumRequiredArgs FI = length (arguments FI)) ∧
        (hasExtParameterInfos FTP = false → arguments FI = fpt_ParamTypes FTP) ∧
        InstanceMethod FI = false ∧ ChainCall FI = false.
Proof.
  intros Hext. unfold arrangeFreeFunctionType.
  destruct (arrangeCIRFunctionInfo_total CGT FnInfoOpts_None [] FTP Hext)
    as (FI & HFI & Hlen & Hreq & Hvar).
  exists FI. split; [done |]. split; [done |].
  unfold arrangeCIRFunctionInfo in HFI.
  apply Outcome_bind_Done in HFI as ([types infos] & Happ & HFI).
  apply CIRGenTypes_arrangeCIRFunctionInfo_inv in HFI as (Ha & Hr & _ & _ & Him & Hcc).
  split; [done |]. split; [done |]. split; [done |].
  split; [| done].
  intros EH. rewrite appendParameterTypes_plain in Happ by done.
  injection Happ as <- <-. done.
Qed.

(** Arranging a free function type never trips an assertion, whatever the
    prototype: the descriptor has one argument per parameter and one more
    per pass_object_size parameter, it is variadic exactly when the
    prototype is, and then all its arguments are required. *)
Theorem arrangeFreeFunctionType_total CGT FTP :
  (hasExtParameterInfos FTP = true →
   length (getExtParameterInfos FTP) = getNumParams FTP) →
  ∃ FI, arrangeFreeFunctionType CGT FTP = Done FI ∧
        length (arguments FI) = getNumParams FTP + passObjectSizeCount FTP ∧
        getReturnType FI = fpt_ReturnType FTP ∧
        isVariadic FI = isVariadic_proto FTP ∧
        (isVariadic FI = true → getNumRequiredArgs FI = length (arguments FI)) ∧
        (hasExtParameterInfos FTP = false → arguments FI = fpt_ParamTypes FTP) ∧
        InstanceMethod FI = false ∧ ChainCall FI = false.
Proof. apply arrangeFreeFunctionType_returns. Qed.

Lemma arrangeFreeFunctionType_total_witness :
  ∃ FI, arrangeFreeFunctionType Examples.CGT0 Examples.pos_proto = Done FI ∧
        length (arguments FI) = 3.
Proof.
  destruct (arrangeFreeFunctionType_total Examples.CGT0 Examples.pos_proto
              (λ _, eq_refl)) as (FI & H & Hlen & _).
  exists FI. split; [exact H | exact Hlen].
Defined.


(** ** Arranging methods *)

Lemma isVariadic_Required FI : isVariadic FI = allowsOptionalArgs (Required FI).
Proof. done. Qed.

Lemma forPrototypePlus_plain FTP n :
  hasExtParameterInfos FTP = false →
  forPrototypePlus FTP n =
  if isVariadic_proto FTP then RequiredArgs_N (getNumParams FTP + n) else RequiredArgs_All.
Proof.
  intros EH. unfold forPrototypePlus. rewrite EH. by destruct (isVariadic_proto FTP).
Qed.

Lemma getNumRequiredArgs_N FI n :
  Required FI = RequiredArgs_N n → getNumRequiredArgs FI = n.
Proof. intros H. unfold getNumRequiredArgs, isVariadic. by rewrite H. Qed.

Lemma arrangeCXXMethodDeclaration_instance CGT D fd MD FTP RD :
  decl_kind D = CXXMethodDecl fd MD →
  getAs_FunctionProtoType (setCUDAKernelCallingConvention CGT (fd_type fd) D) = Some FTP →
  hasExtParameterInfos FTP = false →
  md_isInstance MD = true →
  getThisArgumentTypeForMethod (TheCXXABI CGT) MD = Some RD →
  arrangeCXXMethodDeclaration CGT D =
  CIRGenTypes_arrangeCIRFunctionInfo CGT (fpt_ReturnType FTP) IsChainCall
    (PointerTy (RecordTy RD) (md_AddressSpace MD) :: fpt_ParamTypes FTP)
    (getExtInfo FTP) []
    (if isVariadic_proto FTP then RequiredArgs_N (getNumParams FTP + 1)
     else RequiredArgs_All).
Proof.
  intros Hk HT EH Hinst Hthis.
  unfold arrangeCXXMethodDeclaration, dyn_cast_FunctionDecl,
    dyn_cast_CXXMethodDecl, isa_CXXConstructorDecl, isa_CXXDestructorDecl.
  rewrite Hk. simpl. rewrite HT, Hinst.
  unfold arrangeCXXMethodType. rewrite Hthis. simpl.
  unfold arrangeCIRFunctionInfo.
  rewrite appendParameterTypes_plain by done. simpl.
  by rewrite forPrototypePlus_plain by done.
Qed.

(** arrangeCXXMethodDeclaration refuses constructors and destructors.  For
    an instance method the first argument is the [this] pointer to the
    class the ABI names, in the address space of the method qualifiers,
    followed by the parameters; the descriptor carries the chain-call mark
    and not the instance-method mark, and a variadic method requires
    [this] and all parameters.  Without a class for [this] the arranger
    stops at an assertion.  A static method is arranged as the free
    function type of its prototype. *)
Theorem arrangeCXXMethodDeclaration_shape CGT D :
  (∀ fd MD inh, decl_kind D = CXXConstructorDecl fd MD inh →
     arrangeCXXMethodDeclaration CGT D =
     Faulted (AssertionFailure "wrong method for constructors!")) ∧
  (∀ fd MD, decl_kind D = CXXDestructorDecl fd MD →
     arrangeCXXMethodDeclaration CGT D =
     Faulted (AssertionFailure "wrong method for destructors!")) ∧
  (∀ fd MD FTP,
     decl_kind D = CXXMethodDecl fd MD →
     getAs_FunctionProtoType (setCUDAKernelCallingConvention CGT (fd_type fd) D)
       = Some FTP →
     hasExtParameterInfos FTP = false →
     if md_isInstance MD then
       match getThisArgumentTypeForMethod (TheCXXABI CGT) MD with
       | None =>
           arrangeCXXMethodDeclaration CGT D =
           Faulted (AssertionFailure "CXXMethodDecl NYI")
       | Some RD =>
           ∃ FI, arrangeCXXMethodDeclaration CGT D = Done FI ∧
                 arguments FI =
                   PointerTy (RecordTy RD) (md_AddressSpace MD) :: fpt_ParamTypes FTP ∧
                 getReturnType FI = fpt_ReturnType FTP ∧
                 ChainCall FI = true ∧ InstanceMethod FI = false ∧
                 isVariadic FI = isVariadic_proto FTP ∧
                 (isVariadic FI = true → getNumRequiredArgs FI = S (getNumParams FTP))
       end
     else arrangeCXXMethodDeclaration CGT D = arrangeFreeFunctionType CGT FTP).
Proof.
  split; [| split].
  - intros fd MD inh Hk. unfold arrangeCXXMethodDeclaration, dyn_cast_FunctionDecl,
      dyn_cast_CXXMethodDecl, isa_CXXConstructorDecl. by rewrite Hk.
  - intros fd MD Hk. unfold arrangeCXXMethodDeclaration, dyn_cast_FunctionDecl,
      dyn_cast_CXXMethodDecl, isa_CXXConstructorDecl, isa_CXXDestructorDecl.
    by rewrite Hk.
  - intros fd MD FTP Hk HT EH.
    unfold arrangeCXXMethodDeclaration, dyn_cast_FunctionDecl,
      dyn_cast_CXXMethodDecl, isa_CXXConstructorDecl, isa_CXXDestructorDecl.
    rewrite Hk. simpl. rewrite HT.
    destruct (md_isInstance MD); [| done].
    unfold arrangeCXXMethodType.
    destruct (getThisArgumentTypeForMethod (TheCXXABI CGT) MD) as [RD |]; [| done].
    simpl. unfold arrangeCIRFunctionInfo.
    rewrite appendParameterTypes_plain by done. simpl.
    rewrite forPrototypePlus_plain by done.
    edestruct (CIRGenTypes_arrangeCIRFunctionInfo_Done CGT (fpt_ReturnType FTP)
                 IsChainCall
                 ([PointerTy (RecordTy RD) (md_AddressSpace MD)] ++ fpt_ParamTypes FTP)
                 (getExtInfo FTP)
                 (if isVariadic_proto FTP then RequiredArgs_N (getNumParams FTP + 1)
                  else RequiredArgs_All))
      as (FI & HFI & Ha & Hr & Hq & _ & Him).
    { destruct (isVariadic_proto FTP); simpl; [| done]. intros _.
      unfold getNumParams. lia. }
    exists FI. split; [exact HFI |].
    apply CIRGenTypes_arrangeCIRFunctionInfo_inv in HFI as (_ & _ & _ & _ & _ & Hcc).
    split; [done |]. split; [done |]. split; [done |]. split; [done |].
    rewrite isVariadic_Required, Hq.
    split; [by destruct (isVariadic_proto FTP) |].
    destruct (isVariadic_proto FTP) eqn:EV; simpl; [| done].
    intros _. rewrite (getNumRequiredArgs_N FI _ Hq). lia.
Qed.

(** ** Arranging calls *)

Lemma FunctionProtoType_type_getAs proto :
  getAs_FunctionProtoType (FunctionProtoType_type proto) = Some proto.
Proof. by destruct proto. Qed.

Lemma arrangeFreeFunctionLikeCall_proto CGT args proto :
  hasExtParameterInfos proto = false →
  arrangeFreeFunctionLikeCall CGT args (FunctionProtoType_type proto) 0 FnInfoOpts_None =
  CIRGenTypes_arrangeCIRFunctionInfo CGT (fpt_ReturnType proto) FnInfoOpts_None
    (getArgTypesForCall (astContext CGT) args) (getExtInfo proto) []
    (if isVariadic_proto proto then RequiredArgs_N (getNumParams proto)
     else RequiredArgs_All).
Proof.
  intros EH. unfold arrangeFreeFunctionLikeCall.
  rewrite FunctionProtoType_type_getAs, EH. simpl.
  rewrite forPrototypePlus_plain by done. rewrite Nat.add_0_r.
  by destruct (isVariadic_proto proto).
Qed.

Lemma arrangeFreeFunctionCall_proto_inv CGT args proto :
  hasExtParameterInfos proto = false →
  arrangeFreeFunctionCall CGT args (FunctionProtoType_type proto) true =
    Faulted (AssertionFailure "ChainCall NYI") ∧
  ((∃ FI, arrangeFreeFunctionCall CGT args (FunctionProtoType_type proto) false = Done FI) ↔
   (isVariadic_proto proto = true → getNumParams proto ≤ length args)) ∧
  (∀ FI, arrangeFreeFunctionCall CGT args (FunctionProtoType_type proto) false = Done FI →
     arguments FI = getArgTypesForCall (astContext CGT) args ∧
     getReturnType FI = fpt_ReturnType proto ∧
     isVariadic FI = isVariadic_proto proto ∧
     (isVariadic FI = true → getNumRequiredArgs FI = getNumParams proto) ∧
     FI_getExtParameterInfos FI = [] ∧
     InstanceMethod FI = false ∧ ChainCall FI = false).
Proof.
  intros EH. split; [done |].
  unfold arrangeFreeFunctionCall. simpl.
  rewrite arrangeFreeFunctionLikeCall_proto by done.
  assert (length (getArgTypesForCall (astContext CGT) args) = length args) as Hlen.
  { unfold getArgTypesForCall. by rewrite length_map. }
  split.
  - unfold CIRGenTypes_arrangeCIRFunctionInfo. rewrite create_Done_iff, Hlen.
    split.
    + intros [_ H]. destruct (isVariadic_proto proto); [| done]. intros _. by apply H.
    + intros H. split; [by left |].
      destruct (isVariadic_proto proto); simpl; [| done]. intros _. by apply H.
  - intros FI H.
    pose proof H as H'.
    apply CIRGenTypes_arrangeCIRFunctionInfo_inv in H as (Ha & Hr & Hq & He & Him & Hcc).
    split; [done |]. split; [done |].
    rewrite isVariadic_Required, Hq.
    split; [by destruct (isVariadic_proto proto) |].
    split.
    { destruct (isVariadic_proto proto); simpl; [| done].
      intros _. by apply getNumRequiredArgs_N. }
    split; [| done].
    unfold CIRGenTypes_arrangeCIRFunctionInfo in H'.
    by apply create_round_trip in H' as (_ & _ & _ & ? & _).
Qed.

(** arrangeFreeFunctionCall: a chain call is refused.  Otherwise, for a
    prototype without extended parameter infos, the call is arranged
    exactly when a variadic prototype gets at least its named parameters;
    the descriptor has the canonical types of the call's arguments (the
    number of arguments of a call through a non-variadic prototype is not
    checked), the prototype's return type, and for a variadic prototype
    the named parameters as required arguments. *)
Theorem arrangeFreeFunctionCall_proto CGT args proto :
  hasExtParameterInfos proto = false →
  arrangeFreeFunctionCall CGT args (FunctionProtoType_type proto) true =
    Faulted (AssertionFailure "ChainCall NYI") ∧
  ((∃ FI, arrangeFreeFunctionCall CGT args (FunctionProtoType_type proto) false = Done FI) ↔
   (isVariadic_proto proto = true → getNumParams proto ≤ length args)) ∧
  (∀ FI, arrangeFreeFunctionCall CGT args (FunctionProtoType_type proto) false = Done FI →
     arguments FI = getArgTypesForCall (astContext CGT) args ∧
     getReturnType FI = fpt_ReturnType proto ∧
     isVariadic FI = isVariadic_proto proto ∧
     (isVariadic FI = true → getNumRequiredArgs FI = getNumParams proto) ∧
     FI_getExtParameterInfos FI = [] ∧
     InstanceMethod FI = false ∧ ChainCall FI = false).
Proof. apply arrangeFreeFunctionCall_proto_inv. Qed.

Lemma arrangeFreeFunctionCall_proto_witness :
  ∃ FI, arrangeFreeFunctionCall Examples.CGT0 Examples.two_args
          (FunctionProtoType_type Examples.variadic_proto) false = Done FI ∧
        arguments FI = [Examples.s32; Examples.s32] ∧
        getNumRequiredArgs FI = 1.
Proof.
  destruct (arrangeFreeFunctionCall_proto Examples.CGT0 Examples.two_args
              Examples.variadic_proto eq_refl) as (_ & [_ Hex] & Hshape).
  destruct Hex as [FI HFI]; [intros _; unfold getNumParams; simpl; lia |].
  exists FI. split; [exact HFI |].
  destruct (Hshape FI HFI) as (Ha & _ & Hv & Hn & _).
  split; [exact Ha |]. apply Hn. rewrite Hv. reflexivity.
Defined.

(** A call and the declaration it calls agree on the machine function
    type: when the leading argument types of a call are the parameter
    types of the prototype, the descriptor arranged for the call and the
    descriptor arranged for the function type lower to the same function
    type, however many variadic arguments the call passes. *)
Theorem call_and_declaration_agree CGT (conv : QualType → mlirType) args proto st :
  hasExtParameterInfos proto = false →
  take (getNumParams proto) (getArgTypesForCall (astContext CGT) args)
    = fpt_ParamTypes proto →
  (isVariadic_proto proto = false → length args = getNumParams proto) →
  ∃ FIc FId,
    arrangeFreeFunctionCall CGT args (FunctionProtoType_type proto) false = Done FIc ∧
    arrangeFreeFunctionType CGT proto = Done FId ∧
    (isVariadic_proto proto = false → FIc = FId) ∧
    let ty := FuncType (conv <$> fpt_ParamTypes proto)
                       (if isNull (conv (fpt_ReturnType proto)) then VoidType
                        else conv (fpt_ReturnType proto))
                       (isVariadic_proto proto) in
    (FIc ∉ FunctionsBeingProcessed st →
     GetFunctionType (λ T, mret (conv T)) FIc st = Done (ty, st)) ∧
    (FId ∉ FunctionsBeingProcessed st →
     GetFunctionType (λ T, mret (conv T)) FId st = Done (ty, st)).
Proof.
  intros EH Htake Hfix.
  assert (length (getArgTypesForCall (astContext CGT) args) = length args) as Hlen.
  { unfold getArgTypesForCall. by rewrite length_map. }
  assert (getNumParams proto ≤ length args) as Hle.
  { apply (f_equal length) in Htake. rewrite length_take in Htake.
    unfold getNumParams in *. lia. }
  destruct (arrangeFreeFunctionCall_proto_inv CGT args proto EH) as (_ & [_ Hex] & Hshape).
  destruct Hex as [FIc HFIc]; [done |].
  destruct (arrangeFreeFunctionType_returns CGT proto) as (FId & HFId & _ & Hrd & Hvd & Hnd & Had & _).
  { rewrite EH. discriminate. }
  specialize (Had EH).
  destruct (Hshape FIc HFIc) as (Hac & Hrc & Hvc & Hnc & _).
  exists FIc, FId. split; [done |]. split; [done |].
  split.
  { intros EV.
    unfold arrangeFreeFunctionCall in HFIc. simpl in HFIc.
    rewrite arrangeFreeFunctionLikeCall_proto in HFIc by done.
    unfold arrangeFreeFunctionType, arrangeCIRFunctionInfo in HFId.
    rewrite appendParameterTypes_plain in HFId by done. simpl in HFId.
    rewrite forPrototypePlus_plain in HFId by done.
    rewrite EV in HFIc, HFId.
    rewrite <- Htake, take_ge in HFId by (specialize (Hfix EV); lia).
    congruence. }
  assert (requiredArguments FIc = fpt_ParamTypes proto) as Hreqc.
  { unfold arrangeFreeFunctionCall in HFIc. simpl in HFIc.
    rewrite arrangeFreeFunctionLikeCall_proto in HFIc by done.
    unfold CIRGenTypes_arrangeCIRFunctionInfo in HFIc.
    apply create_round_trip in HFIc as (_ & _ & _ & _ & _ & Hra & _).
    rewrite Hra.
    destruct (isVariadic_proto proto) eqn:EV; [done |].
    rewrite <- Htake, take_ge; [done |]. specialize (Hfix eq_refl). lia. }
  assert (requiredArguments FId = fpt_ParamTypes proto) as Hreqd.
  { unfold arrangeFreeFunctionType, arrangeCIRFunctionInfo in HFId.
    rewrite appendParameterTypes_plain in HFId by done. simpl in HFId.
    rewrite forPrototypePlus_plain in HFId by done.
    unfold CIRGenTypes_arrangeCIRFunctionInfo in HFId.
    apply create_round_trip in HFId as (_ & _ & _ & _ & _ & Hra & _).
    rewrite Hra.
    destruct (isVariadic_proto proto) eqn:EV; [| done].
    rewrite Nat.add_0_r. by rewrite take_ge by (unfold getNumParams; lia). }
  simpl. split; intros Hnot.
  - rewrite GetFunctionType_pure by done. by rewrite Hreqc, Hrc, Hvc.
  - rewrite GetFunctionType_pure by done. by rewrite Hreqd, Hrd, Hvd.
Qed.

Lemma call_and_declaration_agree_witness :
  ∃ FIc FId,
    arrangeFreeFunctionCall Examples.CGT0 Examples.two_args
      (FunctionProtoType_type Examples.variadic_proto) false = Done FIc ∧
    arrangeFreeFunctionType Examples.CGT0 Examples.variadic_proto = Done FId ∧
    GetFunctionType (λ T, mret (Examples.scalarConvert T)) FIc Examples.noneInProgress
      = Done (FuncType [Examples.s32i] Examples.s32i true, Examples.noneInProgress) ∧
    GetFunctionType (λ T, mret (Examples.scalarConvert T)) FId Examples.noneInProgress
      = Done (FuncType [Examples.s32i] Examples.s32i true, Examples.noneInProgress).
Proof.
  destruct (call_and_declaration_agree Examples.CGT0 Examples.scalarConvert
              Examples.two_args Examples.variadic_proto Examples.noneInProgress
              eq_refl eq_refl) as (FIc & FId & Hc & Hd & _ & Htc & Htd).
  { discriminate. }
  exists FIc, FId. split; [exact Hc |]. split; [exact Hd |].
  split; [apply Htc | apply Htd]; apply not_elem_of_nil.
Defined.


Lemma arrangeCXXMethodDeclaration_shape_witness :
  ∃ FI, arrangeCXXMethodDeclaration Examples.CGT0 Scenarios.C_m = Done FI ∧
        arguments FI = [Scenarios.C_this; Examples.s32] ∧
        ChainCall FI = true ∧ InstanceMethod FI = false.
Proof.
  destruct (proj2 (proj2 (arrangeCXXMethodDeclaration_shape Examples.CGT0 Scenarios.C_m))
              _ _ Examples.Int_proto eq_refl eq_refl eq_refl)
    as (FI & H & Ha & _ & Hc & Hi & _).
  exists FI. split; [exact H |]. split; [exact Ha |]. split; [exact Hc | exact Hi].
Defined.




(** A constructor that is not inherited, or a destructor: the parameters
    of the prototype always follow [this], the ABI object then adds its
    own arguments, and a variadic structor requires every argument of the
    resulting list.  The result type is a void pointer exactly when the
    ABI has a most-derived return; an ABI with a [this] return is
    refused. *)
Theorem arrangeCXXStructorDeclaration_plain CGT GD D fd MD FTP name :
  getDecl GD = Some D →
  dyn_cast_FunctionDecl D = Some fd →
  dyn_cast_CXXMethodDecl D = Some MD →
  getInheritedConstructor D = None →
  getAs_FunctionProtoType (fd_type fd) = Some FTP →
  hasExtParameterInfos FTP = false →
  md_Parent MD = Some name →
  let this := PointerTy (RecordTy name) (md_AddressSpace MD) in
  let argTypes := (buildStructorSignature (TheCXXABI CGT) GD
                     (this :: fpt_ParamTypes FTP)).2 in
  if HasThisReturn (TheCXXABI CGT) GD then
    arrangeCXXStructorDeclaration CGT GD =
    Faulted (AssertionFailure "Please sent PR with a test and remove this")
  else
    ∃ FI, arrangeCXXStructorDeclaration CGT GD = Done FI ∧
          arguments FI = argTypes ∧
          getReturnType FI =
            (if hasMostDerivedReturn (TheCXXABI CGT) GD then VoidPtrTy else VoidTy) ∧
          InstanceMethod FI = true ∧
          isVariadic FI = isVariadic_proto FTP ∧
          (isVariadic FI = true → getNumRequiredArgs FI = length argTypes).
Proof.
  intros HD Hfd Hmd Hinh HT EH Hname this argTypes.
  assert (arrangeCXXStructorDeclaration CGT GD =
          _ ← assert_ (negb (HasThisReturn (TheCXXABI CGT) GD))
                      "Please sent PR with a test and remove this";
          CIRGenTypes_arrangeCIRFunctionInfo CGT
            (if HasThisReturn (TheCXXABI CGT) GD then default VoidTy (head argTypes)
             else if hasMostDerivedReturn (TheCXXABI CGT) GD then VoidPtrTy else VoidTy)
            IsInstanceMethod argTypes (getExtInfo FTP) []
            (if isVariadic_proto FTP then RequiredArgs_N (length argTypes)
             else RequiredArgs_All)) as ->.
  { unfold arrangeCXXStructorDeclaration. rewrite HD, Hfd, Hmd, Hinh, Hname.
    unfold GetFormalType. rewrite HT. simpl.
    rewrite appendParameterTypes_plain by done. simpl.
    subst argTypes this.
    by destruct (buildStructorSignature (TheCXXABI CGT) GD
                   (PointerTy (RecordTy name) (md_AddressSpace MD) :: fpt_ParamTypes FTP)). }
  destruct (HasThisReturn (TheCXXABI CGT) GD); [done |]. simpl.
  assert (∃ FI, CIRGenTypes_arrangeCIRFunctionInfo CGT
            (if hasMostDerivedReturn (TheCXXABI CGT) GD then VoidPtrTy else VoidTy)
            IsInstanceMethod argTypes (getExtInfo FTP) []
            (if isVariadic_proto FTP then RequiredArgs_N (length argTypes)
             else RequiredArgs_All) = Done FI) as [FI HFI].
  { edestruct CIRGenTypes_arrangeCIRFunctionInfo_Done as (FI & HFI & _); [| eauto].
    destruct (isVariadic_proto FTP); simpl; [lia | done]. }
  exists FI. split; [done |].
  apply CIRGenTypes_arrangeCIRFunctionInfo_inv in HFI as (Ha & Hr & Hq & He & Him & Hcc).
  split; [done |]. split; [done |]. split; [done |].
  rewrite isVariadic_Required, Hq.
  split; [by destruct (isVariadic_proto FTP) |].
  destruct (isVariadic_proto FTP); simpl; [| done].
  intros _. by apply getNumRequiredArgs_N.
Qed.

Lemma arrangeCXXStructorDeclaration_plain_witness :
  ∃ FI, arrangeCXXStructorDeclaration (Examples.x86_64 Examples.vttABI true)
          Scenarios.D_dtor = Done FI ∧
        arguments FI = [PointerTy (RecordTy "D") 0; PointerTy VoidPtrTy 0] ∧
        getReturnType FI = VoidTy.
Proof.
  destruct (arrangeCXXStructorDeclaration_plain (Examples.x86_64 Examples.vttABI true)
              Scenarios.D_dtor _ _ _
              {| fpt_ReturnType := VoidTy; fpt_ParamTypes := [];
                 fpt_info := Examples.plainProto false |}
              "D" eq_refl eq_refl eq_refl eq_refl eq_refl eq_refl eq_refl)
    as (FI & H & Ha & Hr & _).
  exists FI. split; [exact H |]. split; [exact Ha | exact Hr].
Defined.


(** ** The function type of a virtual-table slot *)

Lemma Emit_bind_lift_Done {S A B} (a : A) (k : A → Emit S B) (s : S) :
  (lift (Done a) ≫= k) s = k a s.
Proof. done. Qed.

(** The function type of the virtual-table slot of an instance method
    takes the [this] pointer first and then the parameters of the method;
    it is variadic when the method is, and its result is the converted
    return type, or void when that is null.  A prototype that cannot be
    converted yet is not implemented. *)
Theorem GetFunctionTypeForVTable_method CGT isFuncTypeConvertible
    (conv : QualType → mlirType) GD D fd MD FTP RD st :
  getDecl GD = Some D →
  decl_kind D = CXXMethodDecl fd MD →
  md_isInstance MD = true →
  getAs_FunctionProtoType (setCUDAKernelCallingConvention CGT (fd_type fd) D) = Some FTP →
  hasExtParameterInfos FTP = false →
  getThisArgumentTypeForMethod (TheCXXABI CGT) MD = Some RD →
  FunctionsBeingProcessed st = [] →
  GetFunctionTypeForVTable CGT isFuncTypeConvertible (λ T, mret (conv T)) GD st =
  if isFuncTypeConvertible (getAs_FunctionProtoType (fd_type fd)) then
    Done (FuncType (conv (PointerTy (RecordTy RD) (md_AddressSpace MD))
                    :: (conv <$> fpt_ParamTypes FTP))
                   (if isNull (conv (fpt_ReturnType FTP)) then VoidType
                    else conv (fpt_ReturnType FTP))
                   (isVariadic_proto FTP), st)
  else Faulted (LlvmUnreachable "NYI").
Proof.
  intros HD Hk Hinst HT EH Hthis Hst.
  unfold GetFunctionTypeForVTable, dyn_cast_FunctionDecl, dyn_cast_CXXMethodDecl.
  rewrite HD, Hk.
  destruct (isFuncTypeConvertible _); [| done]. simpl.
  unfold GetFunctionType_GlobalDecl, arrangeGlobalDeclaration.
  rewrite HD. unfold isa_CXXConstructorDecl, isa_CXXDestructorDecl. rewrite Hk. simpl.
  unfold arrangeFunctionDeclaration, dyn_cast_FunctionDecl, dyn_cast_CXXMethodDecl.
  rewrite Hk, Hinst.
  rewrite (arrangeCXXMethodDeclaration_instance CGT D fd MD FTP RD) by done.
  edestruct (CIRGenTypes_arrangeCIRFunctionInfo_Done CGT (fpt_ReturnType FTP)
               IsChainCall
               (PointerTy (RecordTy RD) (md_AddressSpace MD) :: fpt_ParamTypes FTP)
               (getExtInfo FTP)
               (if isVariadic_proto FTP then RequiredArgs_N (getNumParams FTP + 1)
                else RequiredArgs_All))
    as (FI & HFI & _ & Hr & Hq & _).
  { destruct (isVariadic_proto FTP); simpl; [| done]. intros _.
    unfold getNumParams. lia. }
  rewrite HFI, Emit_bind_lift_Done.
  rewrite GetFunctionType_pure by (rewrite Hst; apply not_elem_of_nil).
  unfold CIRGenTypes_arrangeCIRFunctionInfo in HFI.
  apply create_round_trip in HFI as (_ & _ & _ & _ & Hv & Hra & _).
  rewrite Hra, Hr, Hv.
  destruct (isVariadic_proto FTP); simpl; [| done].
  rewrite take_ge by (unfold getNumParams; simpl; lia). done.
Qed.

Lemma GetFunctionTypeForVTable_method_witness :
  GetFunctionTypeForVTable Examples.CGT0 (λ _, true)
    (λ T, mret (Scenarios.lowerType T)) Scenarios.C_m_GD Examples.noneInProgress =
  Done (FuncType [PointerType (RecordType "C" []); Examples.s32i] Examples.s32i false,
        Examples.noneInProgress).
Proof.
  exact (GetFunctionTypeForVTable_method Examples.CGT0 (λ _, true) Scenarios.lowerType
           Scenarios.C_m_GD Scenarios.C_m _ _ Examples.Int_proto "C"
           Examples.noneInProgress
           eq_refl eq_refl eq_refl eq_refl eq_refl eq_refl eq_refl).
Defined.


(** ** The attribute synthesizer, name by name *)

Lemma lookup_set (a : Attribute) (m : NamedAttrList) (k : string) :
  NamedAttrList_set a m !! k = if decide (k = getMnemonic a) then Some a else m !! k.
Proof.
  unfold NamedAttrList_set. destruct (decide (k = getMnemonic a)) as [-> | Hne].
  - by rewrite lookup_insert_eq.
  - by rewrite lookup_insert_ne.
Qed.

Lemma AddAttributesFromFunctionProtoType_lookup (attrs : NamedAttrList) FPT k :
  AddAttributesFromFunctionProtoType attrs FPT !! k =
  if decide (k = "nothrow") then
    (if optResolvedNothrow FPT then Some cir_NoThrowAttr else attrs !! k)
  else attrs !! k.
Proof.
  unfold AddAttributesFromFunctionProtoType, optResolvedNothrow, resolvedNothrow.
  destruct FPT as [FPT |]; [| by destruct (decide _)].
  destruct (negb _ && _); [| by destruct (decide _)].
  rewrite lookup_set. simpl. by destruct (decide _).
Qed.

Lemma constructAttributeList_FunctionDecl_closed CGM D (attrs : NamedAttrList) site :
  constructAttributeList_FunctionDecl CGM D attrs site =
  AddAttributesFromFunctionProtoType attrs (protoOfDecl (Some D)).
Proof.
  unfold constructAttributeList_FunctionDecl, protoOfDecl. simpl.
  destruct (dyn_cast_FunctionDecl D) as [Fn |]; simpl; [| done].
  by rewrite !if_same.
Qed.

Lemma constructAttributeList_NoMerge_id D (attrs : NamedAttrList) site :
  constructAttributeList_NoMerge D attrs site = attrs.
Proof. unfold constructAttributeList_NoMerge. by rewrite !if_same. Qed.

Lemma constructAttributeList_OpenCLKernel_lookup CGM D (attrs : NamedAttrList) k :
  constructAttributeList_OpenCLKernel CGM D attrs !! k =
  if hasAttr D OpenCLKernelAttr then
    if decide (k = "cl.uniform_work_group_size") then
      (if uniformWorkGroupSize (getLangOpts CGM)
       then Some cir_OpenCLKernelUniformWorkGroupSizeAttr else attrs !! k)
    else if decide (k = "cl.kernel") then Some cir_OpenCLKernelAttr
    else attrs !! k
  else attrs !! k.
Proof.
  unfold constructAttributeList_OpenCLKernel, uniformWorkGroupSize.
  destruct (hasAttr D OpenCLKernelAttr); [| done].
  destruct (bool_decide (OpenCLVersion (getLangOpts CGM) ≤ 120)); simpl.
  - rewrite !lookup_set. simpl.
    destruct (decide (k = "cl.uniform_work_group_size")); [done |].
    by destruct (decide (k = "cl.kernel")).
  - destruct (OffloadUniformBlock (getLangOpts CGM)).
    + rewrite !lookup_set. simpl.
      destruct (decide (k = "cl.uniform_work_group_size")); [done |].
      by destruct (decide (k = "cl.kernel")).
    + rewrite !lookup_set. simpl.
      destruct (decide (k = "cl.uniform_work_group_size")) as [-> |]; [done |].
      by destruct (decide (k = "cl.kernel")).
Qed.

Lemma constructAttributeList_CUDAKernelName_lookup CGM CalleeInfo D
    (attrs : NamedAttrList) k :
  constructAttributeList_CUDAKernelName CGM CalleeInfo D attrs !! k =
  if namesKernelOnHost (getLangOpts CGM) && hasAttr D CUDAGlobalAttr then
    if decide (k = "cu.kernel_name")
    then Some (cir_CUDAKernelNameAttr (getMangledName CGM (getCalleeDecl CalleeInfo)))
    else attrs !! k
  else attrs !! k.
Proof.
  unfold constructAttributeList_CUDAKernelName, namesKernelOnHost.
  destruct (_ && _ && _); [| done]. by rewrite lookup_set.
Qed.

Lemma getDefaultFunctionAttributes_lookup CGM name hasOptnone attrOnCallSite
    (funcAttrs fa : NamedAttrList) k :
  getDefaultFunctionAttributes CGM name hasOptnone attrOnCallSite funcAttrs = Done fa →
  fa !! k =
  if decide (k = "nothrow") then
    (if langImpliesNoThrow (getLangOpts CGM) then Some cir_NoThrowAttr
     else funcAttrs !! k)
  else if decide (k = "convergent") then
    (if assumeFunctionsAreConvergent (getLangOpts CGM) then Some cir_ConvergentAttr
     else funcAttrs !! k)
  else funcAttrs !! k.
Proof.
  unfold getDefaultFunctionAttributes, CIRGenModule_getTrivialDefaultFunctionAttributes,
    getTrivialDefaultFunctionAttributes, langImpliesNoThrow.
  unfold_monad.
  destruct (SYCLIsDevice (getLangOpts CGM)); [discriminate |].
  destruct (OpenCL (getLangOpts CGM) || _); rewrite if_same; intros [= <-].
  - rewrite lookup_set. simpl.
    destruct (decide (k = "nothrow")) as [-> |]; [done |].
    destruct (assumeFunctionsAreConvergent (getLangOpts CGM)).
    + rewrite lookup_set. simpl. by destruct (decide (k = "convergent")).
    + by destruct (decide (k = "convergent")).
  - destruct (assumeFunctionsAreConvergent (getLangOpts CGM)).
    + rewrite lookup_set. simpl.
      destruct (decide (k = "nothrow")) as [-> |]; [done |].
      by destruct (decide (k = "convergent")).
    + destruct (decide (k = "nothrow")); [done |].
      by destruct (decide (k = "convergent")).
Qed.

Lemma constructAttributeList_inv CGM Name FI CalleeInfo (funcAttrs : NamedAttrList)
    AttrOnCallSite IsThunk Attrs callingConv sideEffect :
  constructAttributeList CGM Name FI CalleeInfo funcAttrs AttrOnCallSite IsThunk
    = Done (Attrs, callingConv, sideEffect) →
  callingConv = EffectiveCallingConvention FI ∧
  sideEffect = sideEffectOf (getDecl (getCalleeDecl CalleeInfo)) ∧
  SYCLIsDevice (getLangOpts CGM) = false ∧
  ∀ k, Attrs !! k =
       match synthesized CGM CalleeInfo k with
       | Some a => Some a
       | None => funcAttrs !! k
       end.
Proof.
  unfold constructAttributeList. intros H.
  apply Outcome_bind_Done in H as ([[fa se] o] & HT & H).
  apply Outcome_bind_Done in H as (fa' & HD & H).
  injection H as <- <- <-.
  assert (SYCLIsDevice (getLangOpts CGM) = false) as Hsycl.
  { unfold getDefaultFunctionAttributes, CIRGenModule_getTrivialDefaultFunctionAttributes,
      getTrivialDefaultFunctionAttributes in HD. unfold_monad.
    by destruct (SYCLIsDevice (getLangOpts CGM)). }
  split; [done |].
  unfold synthesized, synthesizesNoThrow, sideEffectOf.
  destruct (getDecl (getCalleeDecl CalleeInfo)) as [D |].
  - unfold constructAttributeList_TargetDecl in HT. cbv zeta in HT.
    apply Outcome_bind_Done in HT as ([] & _ & HT). injection HT as <- <- <-.
    split.
    { unfold constructAttributeList_sideEffect. by rewrite if_same. }
    split; [done |]. intros k.
    rewrite (getDefaultFunctionAttributes_lookup _ _ _ _ _ _ k HD).
    rewrite if_same.
    rewrite constructAttributeList_CUDAKernelName_lookup,
      constructAttributeList_OpenCLKernel_lookup,
      constructAttributeList_NoMerge_id, constructAttributeList_FunctionDecl_closed,
      AddAttributesFromFunctionProtoType_lookup.
    assert ((if hasAttr D NoThrowAttr
             then NamedAttrList_set cir_NoThrowAttr
                    (AddAttributesFromFunctionProtoType funcAttrs
                       (getCalleeFunctionProtoType CalleeInfo))
             else AddAttributesFromFunctionProtoType funcAttrs
                    (getCalleeFunctionProtoType CalleeInfo)) !! k
            = if decide (k = "nothrow") then
                (if hasAttr D NoThrowAttr ||
                    optResolvedNothrow (getCalleeFunctionProtoType CalleeInfo)
                 then Some cir_NoThrowAttr else funcAttrs !! k)
              else funcAttrs !! k) as ->.
    { destruct (hasAttr D NoThrowAttr); cbn [orb].
      - rewrite lookup_set, AddAttributesFromFunctionProtoType_lookup.
        cbn [getMnemonic]. by destruct (decide (k = "nothrow")).
      - by rewrite AddAttributesFromFunctionProtoType_lookup. }
    unfold TargetDecl_hasAttr.
    set (bL := langImpliesNoThrow (getLangOpts CGM)).
    set (bC := assumeFunctionsAreConvergent (getLangOpts CGM)).
    set (bN := hasAttr D NoThrowAttr).
    set (bK := hasAttr D OpenCLKernelAttr).
    set (bG := hasAttr D CUDAGlobalAttr).
    set (bH := namesKernelOnHost (getLangOpts CGM)).
    set (bU := uniformWorkGroupSize (getLangOpts CGM)).
    set (p1 := optResolvedNothrow (getCalleeFunctionProtoType CalleeInfo)).
    set (p2 := optResolvedNothrow (protoOfDecl (Some D))).
    set (name := getMangledName CGM (getCalleeDecl CalleeInfo)).
    clearbody bL bC bN bK bG bH bU p1 p2 name.
    destruct (decide (k = "nothrow")) as [-> | Hk1].
    { by destruct bL, bN, bK, bG, bH, p1, p2. }
    destruct (decide (k = "convergent")) as [-> | Hk2].
    { by destruct bC, bK, bG, bH. }
    destruct (decide (k = "cl.kernel")) as [-> | Hk3].
    { by destruct bK, bG, bH. }
    destruct (decide (k = "cl.uniform_work_group_size")) as [-> | Hk4].
    { by destruct bK, bG, bH, bU. }
    destruct (decide (k = "cu.kernel_name")) as [-> | Hk5].
    { by destruct bK, bG, bH. }
    by destruct bK, bG, bH.
  - injection HT as <- <- <-. split; [done |]. split; [done |]. intros k.
    rewrite (getDefaultFunctionAttributes_lookup _ _ _ _ _ _ k HD).
    rewrite AddAttributesFromFunctionProtoType_lookup.
    unfold TargetDecl_hasAttr, protoOfDecl.
    set (bL := langImpliesNoThrow (getLangOpts CGM)).
    set (bC := assumeFunctionsAreConvergent (getLangOpts CGM)).
    set (p1 := optResolvedNothrow (getCalleeFunctionProtoType CalleeInfo)).
    clearbody bL bC p1. cbn.
    destruct (decide (k = "nothrow")) as [-> | Hk1].
    { by destruct bL, p1. }
    destruct (decide (k = "convergent")) as [-> | Hk2]; [by destruct bC |].
    destruct (decide (k = "cl.kernel")) as [-> | Hk3]; [done |].
    destruct (decide (k = "cl.uniform_work_group_size")) as [-> | Hk4]; [done |].
    destruct (decide (k = "cu.kernel_name")) as [-> | Hk5];
      [by rewrite ?andb_false_r |].
    done.
Qed.


(** The attribute list after synthesis, name by name: a name that
    synthesis binds (no-throw, convergent, the OpenCL kernel mark, uniform
    work-group size, the CUDA kernel name) holds the synthesized attribute,
    whatever the list held before; every other name holds what it held
    before.  So synthesis removes no attribute, and adds or changes only
    those five names. *)
Theorem synthesized_attributes CGM Name FI CalleeInfo (funcAttrs : NamedAttrList)
    AttrOnCallSite IsThunk Attrs callingConv sideEffect :
  constructAttributeList CGM Name FI CalleeInfo funcAttrs AttrOnCallSite IsThunk
    = Done (Attrs, callingConv, sideEffect) →
  (∀ name, Attrs !! name =
           match synthesized CGM CalleeInfo name with
           | Some a => Some a
           | None => funcAttrs !! name
           end) ∧
  (∀ name, is_Some (funcAttrs !! name) → is_Some (Attrs !! name)) ∧
  (∀ name, name ∉ synthesizedNames → Attrs !! name = funcAttrs !! name).
Proof.
  intros H. apply constructAttributeList_inv in H as (_ & _ & _ & H).
  split; [done |]. split.
  - intros name Hin. rewrite H. by destruct (synthesized CGM CalleeInfo name).
  - intros name Hnot. rewrite H. unfold synthesized, synthesizedNames in *.
    repeat (destruct (decide _) as [-> | ?]; [exfalso; apply Hnot; set_solver |]).
    done.
Qed.

Lemma synthesized_attributes_witness :
  ∃ Attrs,
    constructAttributeList Examples.CGM0 "_Z5quieti" Examples.fatal_FI
      (Examples.calleeInfoOf None Examples.quiet_decl) ∅ true false
    = Done (Attrs, cir_C, SideEffect_All) ∧
    Attrs !! "nothrow" = Some cir_NoThrowAttr ∧
    Attrs !! "convergent" = None.
Proof.
  eexists. split; [reflexivity |].
  destruct (synthesized_attributes Examples.CGM0 "_Z5quieti" Examples.fatal_FI
              (Examples.calleeInfoOf None Examples.quiet_decl) ∅ true false _ _ _ eq_refl)
    as (H & _ & _).
  split; [exact (H "nothrow") | exact (H "convergent")].
Defined.

(** The calling convention that synthesis reports is the effective
    convention of the descriptor; the side-effect class is Const for a
    declaration with the const attribute, else Pure for one with the pure
    attribute, else All, also when there is no declaration. *)
Theorem convention_and_side_effect CGM Name FI CalleeInfo (funcAttrs : NamedAttrList)
    AttrOnCallSite IsThunk Attrs callingConv sideEffect :
  constructAttributeList CGM Name FI CalleeInfo funcAttrs AttrOnCallSite IsThunk
    = Done (Attrs, callingConv, sideEffect) →
  callingConv = EffectiveCallingConvention FI ∧
  sideEffect = sideEffectOf (getDecl (getCalleeDecl CalleeInfo)) ∧
  (sideEffect = SideEffect_Const ↔
   TargetDecl_hasAttr (getDecl (getCalleeDecl CalleeInfo)) ConstAttr = true) ∧
  (sideEffect = SideEffect_Pure ↔
   TargetDecl_hasAttr (getDecl (getCalleeDecl CalleeInfo)) ConstAttr = false ∧
   TargetDecl_hasAttr (getDecl (getCalleeDecl CalleeInfo)) PureAttr = true).
Proof.
  intros H. apply constructAttributeList_inv in H as (-> & -> & _ & _).
  split; [done |]. split; [done |].
  unfold sideEffectOf, TargetDecl_hasAttr.
  destruct (getDecl (getCalleeDecl CalleeInfo)) as [D |].
  - destruct (hasAttr D ConstAttr), (hasAttr D PureAttr); split; split; try done;
      by intros [? ?].
  - split; split; try done. by intros [? ?].
Qed.

Lemma convention_and_side_effect_witness :
  ∃ Attrs,
    constructAttributeList Examples.CGM0 "f" Examples.fatal_FI
      (Examples.calleeInfoOf None
         {| decl_attrs := [PureAttr; ConstAttr];
            decl_kind := decl_kind Examples.quiet_decl |}) ∅ true false
    = Done (Attrs, cir_C, SideEffect_Const).
Proof.
  assert (∃ Attrs cc se,
            constructAttributeList Examples.CGM0 "f" Examples.fatal_FI
              (Examples.calleeInfoOf None
                 {| decl_attrs := [PureAttr; ConstAttr];
                    decl_kind := decl_kind Examples.quiet_decl |}) ∅ true false
            = Done (Attrs, cc, se)) as (Attrs & cc & se & H)
    by (do 3 eexists; reflexivity).
  destruct (convention_and_side_effect _ _ _ _ _ _ _ _ _ _ H) as (Hcc & Hse & _).
  exists Attrs. rewrite H, Hcc, Hse. reflexivity.
Defined.

(** Attribute synthesis returns in every language mode but SYCL device
    compilation, where it stops as not implemented. *)
Theorem attribute_synthesis_total CGM Name FI CalleeInfo (funcAttrs : NamedAttrList)
    AttrOnCallSite IsThunk :
  if SYCLIsDevice (getLangOpts CGM) then
    constructAttributeList CGM Name FI CalleeInfo funcAttrs AttrOnCallSite IsThunk
    = Faulted (LlvmUnreachable "NYI")
  else
    ∃ Attrs,
      constructAttributeList CGM Name FI CalleeInfo funcAttrs AttrOnCallSite IsThunk
      = Done (Attrs, EffectiveCallingConvention FI,
              sideEffectOf (getDecl (getCalleeDecl CalleeInfo))).
Proof.
  destruct (SYCLIsDevice (getLangOpts CGM)) eqn:Hsycl.
  - destruct (constructAttributeList CGM Name FI CalleeInfo funcAttrs AttrOnCallSite
                IsThunk) as [[[Attrs cc] se] | f] eqn:H.
    + apply constructAttributeList_inv in H as (_ & _ & H & _). congruence.
    + unfold constructAttributeList in H.
      assert (∀ o fa, getDefaultFunctionAttributes CGM Name o AttrOnCallSite fa
                      = Faulted (LlvmUnreachable "NYI")) as HD.
      { intros o fa. unfold getDefaultFunctionAttributes,
          CIRGenModule_getTrivialDefaultFunctionAttributes,
          getTrivialDefaultFunctionAttributes. by rewrite Hsycl. }
      destruct (getDecl (getCalleeDecl CalleeInfo)) as [D |].
      * unfold constructAttributeList_TargetDecl in H. cbv zeta in H.
        unfold MissingFeatures_CUDA in H. simpl in H. rewrite !if_same in H.
        unfold_monad. rewrite HD in H. congruence.
      * unfold_monad. rewrite HD in H. congruence.
  - destruct (constructAttributeList_total CGM Name FI CalleeInfo funcAttrs
                AttrOnCallSite IsThunk Hsycl) as (Attrs & se & H).
    exists Attrs. rewrite H.
    by apply constructAttributeList_inv in H as (_ & -> & _).
Qed.

Lemma getDefaultFunctionAttributes_indep CGM name hasOptnone attrOnCallSite
    name' hasOptnone' attrOnCallSite' (funcAttrs : NamedAttrList) :
  getDefaultFunctionAttributes CGM name hasOptnone attrOnCallSite funcAttrs =
  getDefaultFunctionAttributes CGM name' hasOptnone' attrOnCallSite' funcAttrs.
Proof.
  unfold getDefaultFunctionAttributes, CIRGenModule_getTrivialDefaultFunctionAttributes,
    getTrivialDefaultFunctionAttributes. unfold_monad.
  destruct (SYCLIsDevice (getLangOpts CGM)); [done |].
  destruct (OpenCL (getLangOpts CGM) || _); by rewrite !if_same.
Qed.

(** Attribute synthesis gives the same result for a call site as for a
    function definition, for a thunk as for any other function, and under
    any function name: the statements that look at the call-site flag add
    nothing yet, and the name, the thunk flag and the optnone mark are not
    read. *)
Theorem synthesis_ignores_call_site CGM FI CalleeInfo (funcAttrs : NamedAttrList)
    Name AttrOnCallSite IsThunk Name' AttrOnCallSite' IsThunk' :
  constructAttributeList CGM Name FI CalleeInfo funcAttrs AttrOnCallSite IsThunk =
  constructAttributeList CGM Name' FI CalleeInfo funcAttrs AttrOnCallSite' IsThunk'.
Proof.
  unfold constructAttributeList.
  destruct (getDecl (getCalleeDecl CalleeInfo)) as [D |].
  - unfold constructAttributeList_TargetDecl. cbv zeta.
    rewrite !constructAttributeList_NoMerge_id, !constructAttributeList_FunctionDecl_closed.
    unfold MissingFeatures_CUDA. simpl. rewrite !if_same. unfold_monad.
    by rewrite (getDefaultFunctionAttributes_indep CGM Name _ AttrOnCallSite
                  Name' (hasAttr D OptimizeNoneAttr) AttrOnCallSite').
  - unfold_monad.
    by rewrite (getDefaultFunctionAttributes_indep CGM Name _ AttrOnCallSite
                  Name' false AttrOnCallSite').
Qed.


(** ** Operations are only added *)

Lemma createOp_frame ip kind tys st r st' :
  createOp ip kind tys st = Done (r, st') →
  r.1 = nextOp st ∧ nextOp st' = S (nextOp st) ∧
  (∀ o, o ≠ nextOp st → ops st' !! o = ops st !! o) ∧
  allocas st' = allocas st ∧ regions st' = regions st ∧
  nextBlock st' = nextBlock st ∧ nextRegion st' = nextRegion st ∧
  (∀ b, Some b ≠ (ip_block <$> ip) → blocks st' !! b = blocks st !! b) ∧
  (∀ b, is_Some (blocks st !! b) ↔ is_Some (blocks st' !! b)) ∧
  (∀ b, Block_getParent st' b = Block_getParent st b).
Proof.
  unfold createOp. intros [= <- <-]. simpl.
  split; [done |]. split; [done |].
  split; [by intros o Ho; rewrite lookup_insert_ne |].
  split; [done |]. split; [done |]. split; [done |]. split; [done |].
  assert (∀ b, match ip with
               | Some p =>
                   match blocks st !! ip_block p with
                   | Some B =>
                       Some (ip_block p,
                             {| blk_parent := blk_parent B;
                                blk_ops := insertAt (ip_before p) (nextOp st) (blk_ops B) |})
                   | None => None
                   end
               | None => None
               end = None →
               match (None : option (BlockId * BlockData)) with
               | Some (b0, B0) => <[b0 := B0]> (blocks st)
               | None => blocks st
               end !! b = blocks st !! b) as _ by done.
  destruct ip as [p |]; simpl; [| by split; [| split]].
  destruct (blocks st !! ip_block p) as [B |] eqn:EB; simpl; [| by split; [| split]].
  split; [| split].
  - intros b Hb. rewrite lookup_insert_ne; [done |]. congruence.
  - intros b. destruct (decide (b = ip_block p)) as [-> | Hne].
    + rewrite lookup_insert_eq, EB. split; eauto.
    + by rewrite lookup_insert_ne.
  - intros b. unfold Block_getParent. simpl.
    destruct (decide (b = ip_block p)) as [-> | Hne].
    + by rewrite lookup_insert_eq, EB.
    + by rewrite lookup_insert_ne.
Qed.

Lemma createLoad_frame ip addr st v st' :
  createLoad ip addr st = Done (v, st') →
  v = {| val_id := nextValue st; val_type := getElementType addr;
         val_def := DefinedBy (nextOp st) |} ∧
  nextOp st' = S (nextOp st) ∧
  (∀ o, o ≠ nextOp st → ops st' !! o = ops st !! o).
Proof.
  intros H. destruct (createLoad_spec ip addr st) as (st2 & H2 & Hn & _ & Hf).
  rewrite H2 in H. injection H as <- <-. done.
Qed.

Lemma createBitcast_frame ip src newTy st v st' :
  createBitcast ip src newTy st = Done (v, st') →
  val_type v = newTy ∧ nextOp st ≤ nextOp st' ∧
  (∀ o, o < nextOp st → ops st' !! o = ops st !! o).
Proof.
  intros H. destruct (decide (newTy = val_type src)) as [Heq | Hne].
  - unfold createBitcast in H. rewrite decide_True in H by done.
    injection H as <- <-. done.
  - destruct (createBitcast_spec ip src newTy st Hne) as (st2 & H2 & Hn & _ & Hf).
    rewrite H2 in H. injection H as <- <-. simpl.
    split; [done |]. split; [lia |]. intros o Ho. apply Hf. lia.
Qed.

(** One slot of the argument loop of emitCall: the operand has the type
    of the corresponding input of the function type, and operations are
    only added. *)
Lemma emitCall_arg_typed ip CIRFuncTy ArgNo argType Arg st V st' :
  emitCall_arg ip CIRFuncTy ArgNo argType Arg st = Done (V, st') →
  (ArgNo < getNumInputs CIRFuncTy → getInput_ CIRFuncTy ArgNo = argType) →
  (ArgNo < getNumInputs CIRFuncTy → val_type V = getInput_ CIRFuncTy ArgNo) ∧
  (isa_RecordType argType = true → val_type V = argType) ∧
  nextOp st ≤ nextOp st' ∧
  (∀ o, o < nextOp st → ops st' !! o = ops st !! o).
Proof.
  unfold emitCall_arg. intros H Hslot.
  destruct (isa_RecordType argType) eqn:Hrec; simpl in H.
  - unfold emitCall_aggregateArg in H.
    apply Emit_bind_Done in H as (Src & s1 & HSrc & H).
    assert (s1 = st) as ->.
    { destruct (negb (isAggregate Arg)); [discriminate |].
      destruct (hasLValue Arg).
      - apply Emit_bind_Done in HSrc as (lv & s2 & Hlv & HSrc).
        apply lift_Done in Hlv as [_ ->]. by injection HSrc as _ <-.
      - apply Emit_bind_Done in HSrc as (rv & s2 & Hrv & HSrc).
        apply lift_Done in Hrv as [_ ->]. by apply lift_Done in HSrc as [_ ->]. }
    apply Emit_bind_Done in H as (Src' & s2 & HSrc' & H).
    destruct (bool_decide (getElementType Src ≠ argType)) eqn:Hty; [discriminate |].
    apply bool_decide_eq_false in Hty. apply dec_stable in Hty.
    unfold createElementBitCast in HSrc'. rewrite decide_True in HSrc' by done.
    injection HSrc' as <- <-.
    apply createLoad_frame in H as (-> & Hn & Hf). simpl.
    split; [intros Hlt; by rewrite Hslot |]. split; [done |].
    split; [lia |]. intros o Ho. apply Hf. lia.
  - unfold emitCall_scalarArg in H.
    apply Emit_bind_Done in H as ([] & s1 & H1 & H). apply lift_assert_Done in H1 as [_ ->].
    apply Emit_bind_Done in H as (rv & s1 & H1 & H). apply lift_Done in H1 as [_ ->].
    apply Emit_bind_Done in H as (V0 & s1 & H1 & H). apply lift_Done in H1 as [_ ->].
    apply Emit_bind_Done in H as ([] & s1 & H1 & H).
    assert (s1 = st) as ->.
    { destruct (_ && _); [discriminate |]. by injection H1 as <-. }
    destruct (bool_decide (ArgNo < getNumInputs CIRFuncTy)) eqn:Hlt; simpl in H.
    + destruct (bool_decide (val_type V0 ≠ getInput_ CIRFuncTy ArgNo)) eqn:Hne.
      * apply createBitcast_frame in H as (Hty & Hn & Hf). done.
      * injection H as <- <-. apply bool_decide_eq_false in Hne.
        apply dec_stable in Hne. done.
    + injection H as <- <-. apply bool_decide_eq_false in Hlt.
      split; [intros; lia |]. done.
Qed.

Lemma emitCall_args_typed CGF ip FI r v :
  let CIRFuncTy := FuncType (convertType CGF <$> requiredArguments FI) r v in
  ∀ CallArgs ArgNo Vs st st',
    emitCall_args CGF ip CIRFuncTy ArgNo (drop ArgNo (arg_begin FI)) CallArgs st
      = Done (Vs, st') →
    length Vs = length CallArgs ∧
    (∀ i V, Vs !! i = Some V → ArgNo + i < getNumInputs CIRFuncTy →
            val_type V = getInput_ CIRFuncTy (ArgNo + i)) ∧
    (∀ i V T, Vs !! i = Some V → arguments FI !! (ArgNo + i) = Some T →
              isa_RecordType (convertType CGF T) = true →
              val_type V = convertType CGF T) ∧
    nextOp st ≤ nextOp st' ∧
    (∀ o, o < nextOp st → ops st' !! o = ops st !! o).
Proof.
  intros CIRFuncTy.
  induction CallArgs as [| Arg rest IH]; intros ArgNo Vs st st' H; simpl in H.
  - injection H as <- <-. simpl.
    split; [done |]. split; [done |]. split; [done |]. done.
  - destruct (emitCall_type_it CGF FI r v ArgNo) as (Htl & Hslot & Hin).
    fold CIRFuncTy in Hslot. rewrite Htl in H.
    set (T := match drop ArgNo (arg_begin FI) with
              | T :: _ => T
              | [] => pastArgEnd CGF ArgNo
              end) in *.
    apply Emit_bind_Done in H as (V & s1 & HV & H).
    apply Emit_bind_Done in H as (Vs' & s2 & HVs & H).
    injection H as <- <-.
    apply emitCall_arg_typed in HV as (Hty & Hrec & Hn1 & Hf1); [| exact Hslot].
    apply IH in HVs as (Hlen & Htys & Hrecs & Hn2 & Hf2).
    split; [simpl; lia |].
    split.
    { intros [| i] V' HV' Hlt; simpl in HV'.
      - injection HV' as <-. rewrite Nat.add_0_r in *. by apply Hty.
      - replace (ArgNo + S i) with (S ArgNo + i) in * by lia. by apply Htys. }
    split.
    { intros [| i] V' T' HV' HT' Hr; simpl in HV'.
      - injection HV' as <-. rewrite Nat.add_0_r in HT'.
        rewrite (Hin T' HT') in Hrec. by apply Hrec.
      - replace (ArgNo + S i) with (S ArgNo + i) in * by lia. by eapply Hrecs. }
    split; [lia |]. intros o Ho. rewrite Hf2 by lia. by apply Hf1.
Qed.

(** The operands that emitCall passes to the call are typed against the
    callee's function type: there is one operand per call argument, every
    operand at the position of an input of the function type has the type
    of that input, and an operand for an aggregate slot of the descriptor
    has the slot's record type.  The loop only adds operations. *)
Theorem call_operands_typed CGF ip FI r v CallArgs Vs st st' :
  let CIRFuncTy := FuncType (convertType CGF <$> requiredArguments FI) r v in
  emitCall_args CGF ip CIRFuncTy 0 (arg_begin FI) CallArgs st = Done (Vs, st') →
  length Vs = length CallArgs ∧
  (∀ i V T, Vs !! i = Some V → getInput CIRFuncTy i = Some T → val_type V = T) ∧
  (∀ i V T, Vs !! i = Some V → arguments FI !! i = Some T →
            isa_RecordType (convertType CGF T) = true →
            val_type V = convertType CGF T) ∧
  nextOp st ≤ nextOp st' ∧
  (∀ o, o < nextOp st → ops st' !! o = ops st !! o).
Proof.
  intros CIRFuncTy H.
  destruct (emitCall_args_typed CGF ip FI r v CallArgs 0 Vs st st' H)
    as (Hlen & Hty & Hrec & Hn & Hf).
  split; [done |].
  split; [| split; [| done]].
  - intros i V T HV HT.
    assert (i < getNumInputs CIRFuncTy) as Hlt.
    { unfold getInput in HT. apply lookup_lt_Some in HT. done. }
    rewrite (Hty i V HV Hlt).
    change (default NullType (getInput CIRFuncTy i) = T). by rewrite HT.
  - intros i V T HV HT. by apply (Hrec i V T).
Qed.

Lemma call_operands_typed_witness :
  emitCall_args (Examples.CGF0 false false) Examples.atEndOfBody
    (FuncType (convertType (Examples.CGF0 false false)
                 <$> requiredArguments Examples.variadic_FI) Examples.s32i true)
    0 (arg_begin Examples.variadic_FI)
    [Examples.scalarArg 1 Examples.s32i Examples.s32] Examples.emptyBody
  = Done ([Examples.arg0], Examples.emptyBody) ∧
  val_type Examples.arg0 = Examples.s32i.
Proof.
  assert (emitCall_args (Examples.CGF0 false false) Examples.atEndOfBody
            (FuncType (convertType (Examples.CGF0 false false)
                         <$> requiredArguments Examples.variadic_FI) Examples.s32i true)
            0 (arg_begin Examples.variadic_FI)
            [Examples.scalarArg 1 Examples.s32i Examples.s32] Examples.emptyBody
          = Done ([Examples.arg0], Examples.emptyBody)) as H
    by (vm_compute; reflexivity).
  split; [exact H |].
  destruct (call_operands_typed (Examples.CGF0 false false) Examples.atEndOfBody
              Examples.variadic_FI Examples.s32i true
              [Examples.scalarArg 1 Examples.s32i Examples.s32] _ _ _ H)
    as (_ & Hty & _).
  exact (Hty 0 Examples.arg0 Examples.s32i eq_refl eq_refl).
Defined.


(** ** Aggregate results *)

Lemma aggregate_slot CGF RetTy ReturnValue st :
  ∃ DestPtr st1,
    match getValue ReturnValue with
    | Some a => mret a
    | None => name ← getCounterAggTmpAsString; CreateMemTemp CGF RetTy name
    end st = Done (DestPtr, st1) ∧
    ops st1 = ops st ∧ blocks st1 = blocks st ∧ nextOp st ≤ nextOp st1 ∧
    match getValue ReturnValue with
    | Some a => DestPtr = a ∧ st1 = st
    | None =>
        getElementType DestPtr = convertType CGF RetTy ∧
        allocas st1 = allocas st ++
                      [{| alloca_addr := getPointer DestPtr;
                          alloca_type := convertType CGF RetTy;
                          alloca_name := aggTmpName (CounterAggTmp st) |}] ∧
        CounterAggTmp st1 = S (CounterAggTmp st)
    end.
Proof.
  destruct (getValue ReturnValue) as [a |].
  - exists a, st. by repeat split.
  - unfold getCounterAggTmpAsString, CreateMemTemp. unfold_monad.
    eexists _, _. split; [reflexivity |]. simpl.
    repeat split; try done. lia.
Qed.

(** A call with aggregate evaluation kind: its result is stored into the
    return-value slot when that is valid, and otherwise into a fresh
    temporary that takes the next name of the aggregate temporaries
    ("agg.tmp" followed by the counter of the function, which is advanced);
    the store is placed right behind the call, wherever the builder
    stands; the call evaluates to the aggregate at that address.  Nothing
    else changes in the IR. *)
Theorem aggregate_return CGF ip RetTy ReturnValue theCall R0 st bc Bc pre post :
  isa_VoidType (convertType CGF RetTy) = false →
  getEvaluationKind CGF RetTy = TEK_Aggregate →
  (op_results <$> ops st !! theCall) = Some [R0] →
  val_def R0 = DefinedBy theCall →
  getBlock st theCall = Some bc →
  blocks st !! bc = Some Bc →
  blk_ops Bc = pre ++ theCall :: post →
  NoDup (blk_ops Bc) →
  ∃ DestPtr store st',
    emitCall_extractReturn CGF ip RetTy ReturnValue theCall st
    = Done (RValue_getAggregate DestPtr, st') ∧
    match getValue ReturnValue with
    | Some a =>
        DestPtr = a ∧ allocas st' = allocas st ∧
        CounterAggTmp st' = CounterAggTmp st
    | None =>
        getElementType DestPtr = convertType CGF RetTy ∧
        allocas st' = allocas st ++
                      [{| alloca_addr := getPointer DestPtr;
                          alloca_type := convertType CGF RetTy;
                          alloca_name := aggTmpName (CounterAggTmp st) |}] ∧
        CounterAggTmp st' = S (CounterAggTmp st)
    end ∧
    blocks st' !! bc = Some {| blk_parent := blk_parent Bc;
                               blk_ops := pre ++ theCall :: store :: post |} ∧
    (∀ b, b ≠ bc → blocks st' !! b = blocks st !! b) ∧
    (op_kind <$> ops st' !! store) = Some (StoreOp R0 (getPointer DestPtr)) ∧
    nextOp st ≤ store ∧
    (∀ o, o < nextOp st → ops st' !! o = ops st !! o).
Proof.
  intros H1 H2 H3 Hdef Hblk HBc Hops Hnd.
  destruct (aggregate_slot CGF RetTy ReturnValue st)
    as (DestPtr & st1 & Hslot & Hops1 & Hblocks1 & Hle & Hcase).
  unfold emitCall_extractReturn. rewrite H1, H2.
  rewrite (Emit_bind_eq _ _ _ _ _ Hslot).
  unfold_monad. rewrite Hops1, H3. simpl.
  unfold emitAggregateStore. rewrite Hdef. unfold_monad.
  unfold setInsertionPointAfter, getBlock. rewrite Hops1.
  unfold getBlock in Hblk. rewrite Hblk. simpl. rewrite Hblocks1, HBc. simpl.
  unfold createStore. unfold_monad. simpl. rewrite ?Hblocks1, ?HBc. simpl.
  rewrite Hops, insertAt_after by (by rewrite <- Hops).
  exists DestPtr, (nextOp st1). eexists. split; [reflexivity |]. simpl.
  split.
  { destruct (getValue ReturnValue) as [a |].
    - destruct Hcase as [-> ->]. done.
    - done. }
  split; [by rewrite lookup_insert_eq |].
  split; [intros b Hb; by rewrite lookup_insert_ne |].
  split; [by rewrite lookup_insert_eq |].
  split; [done |].
  intros o Ho. rewrite lookup_insert_ne by lia. by rewrite Hops1.
Qed.


(** ** Runtime calls *)

Lemma callResultTypes_length fnTy : length (callResultTypes fnTy) ≤ 1.
Proof. unfold callResultTypes. destruct (FuncType_getReturnType fnTy); simpl; lia. Qed.

(** emitRuntimeCall always returns: it creates one direct call with the C
    convention at the builder's insertion point and leaves the builder
    where it was.  The value is null exactly when the callee's return
    type is void; otherwise it is the one result of the new call, of the
    callee's return type. *)
Theorem emitRuntimeCall_spec callee args s :
  ∃ s',
    emitRuntimeCall callee args s
    = Done (match callResultTypes (fn_type callee) with
            | [] => None
            | T :: _ => Some {| val_id := nextValue (mlir s); val_type := T;
                                val_def := DefinedBy (nextOp (mlir s)) |}
            end, s') ∧
    (op_kind <$> ops (mlir s') !! nextOp (mlir s))
      = Some (CallOp (DirectCallee (fn_name callee)) args false cir_C SideEffect_All) ∧
    (op_extra_attrs <$> ops (mlir s') !! nextOp (mlir s)) = Some (Some ∅) ∧
    nextOp (mlir s') = S (nextOp (mlir s)) ∧
    (∀ o, o ≠ nextOp (mlir s) → ops (mlir s') !! o = ops (mlir s) !! o) ∧
    (∀ p B, builder_ip s = Some p → blocks (mlir s) !! ip_block p = Some B →
            blocks (mlir s') !! ip_block p
            = Some {| blk_parent := blk_parent B;
                      blk_ops := insertAt (ip_before p) (nextOp (mlir s)) (blk_ops B) |}) ∧
    builder_ip s' = builder_ip s ∧ mayThrow s' = mayThrow s ∧
    typesState s' = typesState s.
Proof.
  unfold emitRuntimeCall, createCallLike, createOp, updateOp, liftMLIR.
  unfold_monad. simpl.
  rewrite lookup_alter_eq, lookup_insert_eq. simpl.
  rewrite length_imap.
  pose proof (callResultTypes_length (fn_type callee)) as Hlen.
  rewrite bool_decide_eq_true_2 by done.
  assert (∀ {A} (f : nat → mlirType → A) tys,
            (if bool_decide (length tys = 0) then None else head (imap f tys))
            = match tys with [] => None | T :: _ => Some (f 0 T) end) as Hhead.
  { intros A f [| T l]; done. }
  assert (∀ (b : bool) (x y : option Value) (st : CGFState),
            (if b then λ s0, Done (x, s0) else λ s0, Done (y, s0)) st
            = Done (if b then x else y, st)) as Hif by (by intros []).
  rewrite Hif, Hhead, Nat.add_0_r.
  eexists. split; [reflexivity |].
  simpl. rewrite lookup_alter_eq, lookup_insert_eq. simpl.
  split; [done |]. split; [done |]. split; [done |].
  split.
  { intros o Ho. by rewrite lookup_alter_ne, lookup_insert_ne. }
  split; [| done].
  intros p B Hp HB. rewrite Hp. simpl. rewrite HB. simpl. by rewrite lookup_insert_eq.
Qed.


(** ** What emitCallLikeOp needs and what it leaves behind *)

Lemma get_state_Done {S} (s a s1 : S) : get_state s = Done (a, s1) ↔ a = s ∧ s1 = s.
Proof. unfold get_state. split; [by intros [= <- <-] | by intros [-> ->]]. Qed.

Lemma liftMLIR_Done {A} (m : Emit MLIRState A) (s : CGFState) (a : A) (s' : CGFState) :
  liftMLIR m s = Done (a, s') ↔
  ∃ m', m (mlir s) = Done (a, m') ∧
        s' = {| mlir := m'; builder_ip := builder_ip s; typesState := typesState s;
                mayThrow := mayThrow s; callWithExceptionCtx := callWithExceptionCtx s |}.
Proof.
  unfold liftMLIR. destruct (m (mlir s)) as [[a' m'] |]; split.
  - intros [= <- <-]. eauto.
  - by intros (m'' & [= <- <-] & ->).
  - discriminate.
  - by intros (m'' & [=] & _).
Qed.

Lemma liftTypes_Done {A} (m : Emit CIRGenTypesState A) (s : CGFState) (a : A)
    (s' : CGFState) :
  liftTypes m s = Done (a, s') ↔
  ∃ t', m (typesState s) = Done (a, t') ∧
        s' = {| mlir := mlir s; builder_ip := builder_ip s; typesState := t';
                mayThrow := mayThrow s; callWithExceptionCtx := callWithExceptionCtx s |}.
Proof.
  unfold liftTypes. destruct (m (typesState s)) as [[a' t'] |]; split.
  - intros [= <- <-]. eauto.
  - by intros (t'' & [= <- <-] & ->).
  - discriminate.
  - by intros (t'' & [=] & _).
Qed.

Lemma emitCallLikeOp_inv CGF indirectFuncTy indirectFuncVal directFuncOp
    CIRCallArgs isInvoke callingConv sideEffect extraFnAttrs s c s' :
  emitCallLikeOp CGF indirectFuncTy indirectFuncVal directFuncOp CIRCallArgs isInvoke
    callingConv sideEffect extraFnAttrs s = Done (c, s') →
  (match indirectFuncTy with
   | Some _ => is_Some indirectFuncVal ∧ callingConv = cir_C
   | None => is_Some directFuncOp
   end) ∧
  (if isInvoke then
     is_Some (currLexScope CGF) ∧ callingConv = cir_C ∧
     callWithExceptionCtx s' = None
   else
     is_Some (builder_ip s) ∧ builder_ip s' = builder_ip s ∧
     mayThrow s' = mayThrow s ∧
     callWithExceptionCtx s' = callWithExceptionCtx s ∧
     typesState s' = typesState s ∧
     c = nextOp (mlir s) ∧
     (op_kind <$> ops (mlir s') !! c)
       = Some (CallOp (match indirectFuncTy, indirectFuncVal, directFuncOp with
                       | Some ty, Some v, _ => IndirectCallee v ty
                       | _, _, Some fn => DirectCallee (fn_name fn)
                       | _, _, _ => DirectCallee ""
                       end)
                      CIRCallArgs false callingConv sideEffect) ∧
     (op_extra_attrs <$> ops (mlir s') !! c) = Some (Some extraFnAttrs) ∧
     (op_ast <$> ops (mlir s') !! c) = Some None ∧
     nextOp (mlir s') = S (nextOp (mlir s))).
Proof.
  unfold emitCallLikeOp. intros H. destruct isInvoke.
  - apply Emit_bind_Done in H as (tryOp & s1 & Htry & H).
    apply Emit_bind_Done in H as (s1' & s2 & Hg & H).
    apply get_state_Done in Hg as [-> ->].
    apply Emit_bind_Done in H as ([] & s2 & Hsyn & H).
    apply Emit_bind_Done in H as ([] & s3 & Hcc & H).
    apply lift_assert_Done in Hcc as [Hcc ->]. apply bool_decide_eq_true in Hcc.
    apply Emit_bind_Done in H as (callee & s3 & Hcallee & H).
    apply lift_Done in Hcallee as [Hcallee ->].
    apply Emit_bind_Done in H as (s2' & s3 & Hg & H).
    apply get_state_Done in Hg as [-> ->].
    apply Emit_bind_Done in H as (callOp & s3 & Hcall & H).
    apply Emit_bind_Done in H as ([] & s4 & Hm & H).
    apply Emit_bind_Done in H as ([] & s5 & Hctx & H).
    apply Emit_bind_Done in H as ([] & s6 & Hdest & H).
    apply Emit_bind_Done in H as ([] & s7 & Hctx' & H).
    apply Emit_bind_Done in H as (s7' & s8 & Hg & H).
    apply get_state_Done in Hg as [-> ->].
    apply Emit_bind_Done in H as ([] & s8 & Hy & H).
    injection H as <- <-.
    split.
    { destruct indirectFuncTy as [ty |].
      - destruct indirectFuncVal; [eauto | discriminate].
      - destruct directFuncOp; [eauto | discriminate]. }
    split.
    { unfold getOrCreateSurroundingTryOp in Htry.
      destruct (currLexScope CGF); [eauto | discriminate]. }
    split; [done |].
    assert (callWithExceptionCtx s7 = None) as Hnone.
    { unfold set_callWithExceptionCtx in Hctx'. by injection Hctx' as <-. }
    destruct (getSynthetic (mlir s7) tryOp).
    + apply Emit_bind_Done in Hy as ([o vs] & s9 & Hy & Hip).
      apply liftMLIR_Done in Hy as (m' & _ & ->).
      unfold set_builder_ip in Hip. injection Hip as <-. done.
    + by injection Hy as <-.
  - split.
    { apply Emit_bind_Done in H as (s1' & s2 & Hg & H).
      apply get_state_Done in Hg as [-> ->].
      apply Emit_bind_Done in H as ([] & s2 & _ & H).
      destruct indirectFuncTy as [ty |].
      - apply Emit_bind_Done in H as ([] & s3 & Hcc & H).
        apply lift_assert_Done in Hcc as [Hcc ->]. apply bool_decide_eq_true in Hcc.
        apply Emit_bind_Done in H as (callee & s3 & Hcallee & H).
        apply lift_Done in Hcallee as [Hcallee ->].
        destruct indirectFuncVal; [eauto | discriminate].
      - apply Emit_bind_Done in H as (callee & s3 & Hcallee & H).
        apply lift_Done in Hcallee as [Hcallee ->].
        destruct directFuncOp; [eauto | discriminate]. }
    apply Emit_bind_Done in H as (s1' & s2 & Hg & H).
    apply get_state_Done in Hg as [-> ->].
    apply Emit_bind_Done in H as ([] & s2 & Hip & H).
    apply lift_assert_Done in Hip as [Hip ->]. apply bool_decide_eq_true in Hip.
    split; [done |].
    assert (∀ callee fnTy cc,
              liftMLIR (createCallLike (builder_ip s) callee fnTy CIRCallArgs false cc
                          sideEffect extraFnAttrs) s = Done (c, s') →
              builder_ip s' = builder_ip s ∧ mayThrow s' = mayThrow s ∧
              callWithExceptionCtx s' = callWithExceptionCtx s ∧
              typesState s' = typesState s ∧ c = nextOp (mlir s) ∧
              (op_kind <$> ops (mlir s') !! c)
                = Some (CallOp callee CIRCallArgs false cc sideEffect) ∧
              (op_extra_attrs <$> ops (mlir s') !! c) = Some (Some extraFnAttrs) ∧
              (op_ast <$> ops (mlir s') !! c) = Some None ∧
              nextOp (mlir s') = S (nextOp (mlir s)))
      as Hcreate.
    { intros callee fnTy cc Hc. apply liftMLIR_Done in Hc as (m' & Hc & ->). simpl.
      unfold createCallLike, createOp, updateOp in Hc. unfold_monad. simpl in Hc.
      injection Hc as <- <-. simpl.
      rewrite lookup_alter_eq, lookup_insert_eq. done. }
    destruct indirectFuncTy as [ty |].
    + apply Emit_bind_Done in H as ([] & s3 & Hcc & H).
      apply lift_assert_Done in Hcc as [Hcc ->]. apply bool_decide_eq_true in Hcc.
      subst callingConv.
      apply Emit_bind_Done in H as (callee & s3 & Hcallee & H).
      apply lift_Done in Hcallee as [Hcallee ->].
      destruct indirectFuncVal as [v |]; [| discriminate].
      injection Hcallee as <-. simpl in H. by apply Hcreate in H.
    + apply Emit_bind_Done in H as (callee & s3 & Hcallee & H).
      apply lift_Done in Hcallee as [Hcallee ->].
      destruct directFuncOp as [fn |]; [| discriminate].
      injection Hcallee as <-. simpl in H. apply Hcreate in H.
      by destruct indirectFuncVal.
Qed.

(** emitCallLikeOp, whenever it returns: the callee is a function, or a
    function-pointer value together with its function type; a call through
    a function pointer and an invoke-wrapped call have the C calling
    convention; an invoke-wrapped call is emitted inside a lexical scope
    and leaves no call registered as the one under exception handling; a
    plain call needs a builder with an insertion block and changes neither
    the builder's insertion point, nor the may-throw mark, nor the lowering
    context. *)
Theorem emitCallLikeOp_requirements CGF indirectFuncTy indirectFuncVal directFuncOp
    CIRCallArgs isInvoke callingConv sideEffect extraFnAttrs s c s' :
  emitCallLikeOp CGF indirectFuncTy indirectFuncVal directFuncOp CIRCallArgs isInvoke
    callingConv sideEffect extraFnAttrs s = Done (c, s') →
  (match indirectFuncTy with
   | Some _ => is_Some indirectFuncVal ∧ callingConv = cir_C
   | None => is_Some directFuncOp
   end) ∧
  (if isInvoke then
     is_Some (currLexScope CGF) ∧ callingConv = cir_C ∧
     callWithExceptionCtx s' = None
   else
     is_Some (builder_ip s) ∧ builder_ip s' = builder_ip s ∧
     mayThrow s' = mayThrow s ∧
     callWithExceptionCtx s' = callWithExceptionCtx s ∧
     typesState s' = typesState s ∧
     c = nextOp (mlir s) ∧
     (op_kind <$> ops (mlir s') !! c)
       = Some (CallOp (match indirectFuncTy, indirectFuncVal, directFuncOp with
                       | Some ty, Some v, _ => IndirectCallee v ty
                       | _, _, Some fn => DirectCallee (fn_name fn)
                       | _, _, _ => DirectCallee ""
                       end)
                      CIRCallArgs false callingConv sideEffect) ∧
     (op_extra_attrs <$> ops (mlir s') !! c) = Some (Some extraFnAttrs) ∧
     (op_ast <$> ops (mlir s') !! c) = Some None ∧
     nextOp (mlir s') = S (nextOp (mlir s))).
Proof. apply emitCallLikeOp_inv. Qed.


Lemma emitCallLikeOp_requirements_witness :
  ∃ s', Examples.called = Done (0, s') ∧
        builder_ip s' = Examples.atEndOfBody ∧ mayThrow s' = false.
Proof.
  assert (∃ s', Examples.called = Done (0, s')) as [s' H]
    by (eexists; vm_compute; reflexivity).
  exists s'. split; [exact H |].
  destruct (emitCallLikeOp_requirements _ _ _ _ _ _ _ _ _ _ _ _ H)
    as (_ & _ & Hip & Hm & _).
  split; [exact Hip | exact Hm].
Defined.

(** ** A call under a synthesized try *)

Lemma bind_get_state {S B} (k : S → Emit S B) (s : S) : (get_state ≫= k) s = k s s.
Proof. done. Qed.

Lemma bind_lift_assert {S B} (c : bool) (msg : string) (k : unit → Emit S B) (s : S) :
  c = true → (lift (assert_ c msg) ≫= k) s = k tt s.
Proof. by intros ->. Qed.

Lemma bind_set_builder_ip {B} ip (k : unit → Emit CGFState B) (s : CGFState) :
  (set_builder_ip ip ≫= k) s =
  k tt {| mlir := mlir s; builder_ip := ip; typesState := typesState s;
          mayThrow := mayThrow s; callWithExceptionCtx := callWithExceptionCtx s |}.
Proof. done. Qed.

Lemma bind_set_mayThrow {B} b (k : unit → Emit CGFState B) (s : CGFState) :
  (set_mayThrow b ≫= k) s =
  k tt {| mlir := mlir s; builder_ip := builder_ip s; typesState := typesState s;
          mayThrow := b; callWithExceptionCtx := callWithExceptionCtx s |}.
Proof. done. Qed.

Lemma bind_set_callWithExceptionCtx {B} c (k : unit → Emit CGFState B) (s : CGFState) :
  (set_callWithExceptionCtx c ≫= k) s =
  k tt {| mlir := mlir s; builder_ip := builder_ip s; typesState := typesState s;
          mayThrow := mayThrow s; callWithExceptionCtx := c |}.
Proof. done. Qed.

Lemma createOp_at_facts p kind tys st B :
  blocks st !! ip_block p = Some B →
  ∃ st',
    createOp (Some p) kind tys st =
      Done ((nextOp st,
             imap (λ i T, {| val_id := nextValue st + i; val_type := T;
                             val_def := DefinedBy (nextOp st) |}) tys), st') ∧
    ops st' !! nextOp st =
      Some {| op_kind := kind;
              op_results := imap (λ i T, {| val_id := nextValue st + i; val_type := T;
                                            val_def := DefinedBy (nextOp st) |}) tys;
              op_block := Some (ip_block p);
              op_extra_attrs := None; op_ast := None; op_synthetic := false |} ∧
    (∀ o, o ≠ nextOp st → ops st' !! o = ops st !! o) ∧
    blocks st' !! ip_block p =
      Some {| blk_parent := blk_parent B;
              blk_ops := insertAt (ip_before p) (nextOp st) (blk_ops B) |} ∧
    (∀ b, b ≠ ip_block p → blocks st' !! b = blocks st !! b) ∧
    regions st' = regions st ∧ allocas st' = allocas st ∧
    nextOp st' = S (nextOp st) ∧ nextValue st' = nextValue st + length tys ∧
    nextBlock st' = nextBlock st ∧ nextRegion st' = nextRegion st.
Proof.
  intros HB. rewrite (createOp_at p kind tys st B HB).
  eexists. split; [reflexivity |]. simpl.
  split; [by rewrite lookup_insert_eq |].
  split; [by intros o Ho; rewrite lookup_insert_ne |].
  split; [by rewrite lookup_insert_eq |].
  split; [by intros b Hb; rewrite lookup_insert_ne |].
  done.
Qed.

Lemma createCallLike_at_facts p callee fnTy args exc cc se attrs st B :
  blocks st !! ip_block p = Some B →
  ∃ st',
    createCallLike (Some p) callee fnTy args exc cc se attrs st
      = Done (nextOp st, st') ∧
    ops st' !! nextOp st =
      Some {| op_kind := CallOp callee args exc cc se;
              op_results := imap (λ i T, {| val_id := nextValue st + i; val_type := T;
                                            val_def := DefinedBy (nextOp st) |})
                                 (callResultTypes fnTy);
              op_block := Some (ip_block p);
              op_extra_attrs := Some attrs; op_ast := None; op_synthetic := false |} ∧
    (∀ o, o ≠ nextOp st → ops st' !! o = ops st !! o) ∧
    blocks st' !! ip_block p =
      Some {| blk_parent := blk_parent B;
              blk_ops := insertAt (ip_before p) (nextOp st) (blk_ops B) |} ∧
    (∀ b, b ≠ ip_block p → blocks st' !! b = blocks st !! b) ∧
    regions st' = regions st ∧ allocas st' = allocas st ∧
    nextOp st' = S (nextOp st) ∧
    nextValue st' = nextValue st + length (callResultTypes fnTy) ∧
    nextBlock st' = nextBlock st ∧ nextRegion st' = nextRegion st.
Proof.
  intros HB. unfold createCallLike.
  destruct (createOp_at_facts p (CallOp callee args exc cc se) (callResultTypes fnTy)
              st B HB) as (st1 & H1 & Ho & Hf & Hb & Hbf & Hr & Ha & Hn & Hv & Hnb & Hnr).
  rewrite (Emit_bind_eq _ _ _ _ _ H1). unfold updateOp. unfold_monad.
  eexists. split; [reflexivity |]. simpl.
  split; [by rewrite lookup_alter_eq, Ho |].
  split; [by intros o Hne; rewrite lookup_alter_ne by done; apply Hf |].
  done.
Qed.

Lemma getOrCreateSurroundingTryOp_fresh CGF s p B scope :
  currLexScope CGF = Some scope →
  getClosestTryParent scope = None →
  builder_ip s = Some p →
  blocks (mlir s) !! ip_block p = Some B →
  ip_block p < nextBlock (mlir s) →
  let n := nextOp (mlir s) in
  let tryBlock := nextBlock (mlir s) in
  let handlerBlock := S (nextBlock (mlir s)) in
  let tryRegion := nextRegion (mlir s) in
  let handlerRegion := S (nextRegion (mlir s)) in
  ∃ m1,
    getOrCreateSurroundingTryOp CGF s
      = Done (S n, {| mlir := m1; builder_ip := builder_ip s;
                      typesState := typesState s; mayThrow := mayThrow s;
                      callWithExceptionCtx := callWithExceptionCtx s |}) ∧
    ops m1 !! S n
      = Some {| op_kind := TryOp tryRegion [handlerRegion]; op_results := [];
                op_block := Some (ip_block p); op_extra_attrs := None;
                op_ast := None; op_synthetic := true |} ∧
    (op_kind <$> ops m1 !! n) = Some ResumeOp ∧
    (∀ o, o < n → ops m1 !! o = ops (mlir s) !! o) ∧
    blocks m1 !! ip_block p
      = Some {| blk_parent := blk_parent B;
                blk_ops := insertAt (ip_before p) (S n) (blk_ops B) |} ∧
    blocks m1 !! tryBlock = Some {| blk_parent := Some tryRegion; blk_ops := [] |} ∧
    blocks m1 !! handlerBlock
      = Some {| blk_parent := Some handlerRegion; blk_ops := [n] |} ∧
    regions m1 !! tryRegion = Some {| reg_blocks := [tryBlock] |} ∧
    regions m1 !! handlerRegion = Some {| reg_blocks := [handlerBlock] |} ∧
    nextOp m1 = S (S n).
Proof.
  intros Hscope Htry Hip HB Hfresh n tryBlock handlerBlock tryRegion handlerRegion.
  unfold getOrCreateSurroundingTryOp. rewrite Hscope, Htry.
  unfold_monad. unfold liftMLIR at 1. unfold createTryOp.
  rewrite Hip.
  erewrite createOp_at.
  2: { simpl. rewrite !lookup_insert_ne by lia. exact HB. }
  simpl. unfold liftMLIR, updateOp. simpl.
  eexists. split; [reflexivity |]. simpl.
  split; [by rewrite lookup_alter_eq, lookup_insert_eq |].
  split.
  { rewrite lookup_alter_ne, lookup_insert_ne, lookup_insert_eq by lia. done. }
  split.
  { intros o Ho. by rewrite lookup_alter_ne, !lookup_insert_ne by (subst n; lia). }
  split; [by rewrite lookup_insert_eq |].
  split.
  { rewrite lookup_insert_ne by (subst tryBlock; lia).
    rewrite lookup_insert_ne by (subst tryBlock; lia).
    by rewrite lookup_insert_eq. }
  split.
  { rewrite lookup_insert_ne by (subst handlerBlock; lia).
    by rewrite lookup_insert_eq. }
  split.
  { rewrite lookup_insert_ne by (subst tryRegion; lia). by rewrite lookup_insert_eq. }
  split; [by rewrite lookup_insert_eq |]. done.
Qed.

(** An invoke-wrapped direct call in a scope without enclosing try, with
    an unwind-destination collaborator that emits nothing: a synthetic try
    operation is created at the builder's insertion point; its try region
    has one block, which holds the call followed by a yield; its only
    handler region has one block, which holds a resume; the call carries
    the exception mark; afterwards the builder stands where it stood, the
    function is marked as possibly throwing and no call is registered as
    the one under exception handling. *)
Theorem invoke_in_synthetic_try CGF fn CIRCallArgs sideEffect extraFnAttrs s p B scope :
  currLexScope CGF = Some scope →
  getClosestTryParent scope = None →
  (∀ op st, getInvokeDest CGF op st = Done (tt, st)) →
  builder_ip s = Some p →
  blocks (mlir s) !! ip_block p = Some B →
  ip_block p < nextBlock (mlir s) →
  let n := nextOp (mlir s) in
  let tryBlock := nextBlock (mlir s) in
  let handlerBlock := S (nextBlock (mlir s)) in
  let tryRegion := nextRegion (mlir s) in
  let handlerRegion := S (nextRegion (mlir s)) in
  ∃ s',
    emitCallLikeOp CGF None None (Some fn) CIRCallArgs true cir_C sideEffect
      extraFnAttrs s = Done (S (S n), s') ∧
    ops (mlir s') !! S n
      = Some {| op_kind := TryOp tryRegion [handlerRegion]; op_results := [];
                op_block := Some (ip_block p); op_extra_attrs := None;
                op_ast := None; op_synthetic := true |} ∧
    blocks (mlir s') !! ip_block p
      = Some {| blk_parent := blk_parent B;
                blk_ops := insertAt (ip_before p) (S n) (blk_ops B) |} ∧
    regions (mlir s') !! tryRegion = Some {| reg_blocks := [tryBlock] |} ∧
    regions (mlir s') !! handlerRegion = Some {| reg_blocks := [handlerBlock] |} ∧
    blocks (mlir s') !! tryBlock
      = Some {| blk_parent := Some tryRegion; blk_ops := [S (S n); S (S (S n))] |} ∧
    blocks (mlir s') !! handlerBlock
      = Some {| blk_parent := Some handlerRegion; blk_ops := [n] |} ∧
    (op_kind <$> ops (mlir s') !! n) = Some ResumeOp ∧
    (op_kind <$> ops (mlir s') !! S (S n))
      = Some (CallOp (DirectCallee (fn_name fn)) CIRCallArgs true cir_C sideEffect) ∧
    (op_extra_attrs <$> ops (mlir s') !! S (S n)) = Some (Some extraFnAttrs) ∧
    (op_kind <$> ops (mlir s') !! S (S (S n))) = Some YieldOp ∧
    getParentRegion (mlir s') (S (S n)) = Some tryRegion ∧
    (∀ o, o < n → ops (mlir s') !! o = ops (mlir s) !! o) ∧
    builder_ip s' = Some p ∧ mayThrow s' = true ∧ callWithExceptionCtx s' = None.
Proof.
  intros Hscope Htry Hdest Hip HB Hfresh n tryBlock handlerBlock tryRegion handlerRegion.
  destruct (getOrCreateSurroundingTryOp_fresh CGF s p B scope Hscope Htry Hip HB Hfresh)
    as (m1 & Hstep1 & Htryop & Hres & Hold1 & Hbp & Hbt & Hbh & Hrt & Hrh & Hn1).
  fold n tryBlock handlerBlock tryRegion handlerRegion in Hstep1, Htryop, Hres, Hold1,
    Hbp, Hbt, Hbh, Hrt, Hrh, Hn1.
  unfold emitCallLikeOp.
  rewrite (Emit_bind_eq _ _ _ _ _ Hstep1).
  rewrite bind_get_state.
  cbn [mlir builder_ip].
  assert (getSynthetic m1 (S n) = true) as Hsyn1.
  { unfold getSynthetic. by rewrite Htryop. }
  assert (getTryRegion_back m1 (S n) = Some tryBlock) as Hback.
  { unfold getTryRegion_back. rewrite Htryop. simpl. rewrite Hrt. done. }
  rewrite Hsyn1, Hback.
  assert (setInsertionPointToStart m1 tryBlock
          = Some {| ip_block := tryBlock; ip_before := None |}) as Hstart.
  { unfold setInsertionPointToStart. rewrite Hbt. done. }
  rewrite Hstart.
  rewrite bind_set_builder_ip.
  rewrite bind_lift_assert by done.
  rewrite Emit_bind_lift_Done.
  rewrite bind_get_state.
  cbn [mlir builder_ip typesState mayThrow callWithExceptionCtx fst snd].
  destruct (createCallLike_at_facts {| ip_block := tryBlock; ip_before := None |}
              (DirectCallee (fn_name fn)) (fn_type fn) CIRCallArgs true cir_C sideEffect
              extraFnAttrs m1 _ Hbt)
    as (m2 & Hcall & Hcallop & Hold2 & Hbt2 & Hbf2 & Hr2 & _ & Hn2 & _).
  rewrite Hn1 in Hcall, Hcallop, Hold2, Hbt2, Hn2. cbn [ip_block ip_before] in *.
  erewrite (Emit_bind_eq (liftMLIR _)).
  2: { apply liftMLIR_Done. eexists. split; [exact Hcall | reflexivity]. }
  rewrite bind_set_mayThrow, bind_set_callWithExceptionCtx.
  rewrite (Emit_bind_eq (getInvokeDest _ _) _ _ _ _ (Hdest _ _)).
  rewrite bind_set_callWithExceptionCtx, bind_get_state.
  cbn [mlir builder_ip typesState mayThrow callWithExceptionCtx].
  assert (getSynthetic m2 (S n) = true) as Hsyn2.
  { unfold getSynthetic. rewrite Hold2 by lia. by rewrite Htryop. }
  rewrite Hsyn2.
  destruct (createOp_at_facts {| ip_block := tryBlock; ip_before := None |} YieldOp []
              m2 _ Hbt2)
    as (m3 & Hyield & Hyieldop & Hold3 & Hbt3 & Hbf3 & Hr3 & _ & Hn3 & _).
  rewrite Hn2 in Hyield, Hyieldop, Hold3, Hbt3. cbn [ip_block ip_before blk_ops] in *.
  erewrite (Emit_bind_eq (_ ≫= _)).
  2: { erewrite (Emit_bind_eq (liftMLIR _)).
       2: { apply liftMLIR_Done. eexists. split; [exact Hyield | reflexivity]. }
       reflexivity. }
  eexists. split; [reflexivity |]. cbn [mlir builder_ip mayThrow callWithExceptionCtx].
  split; [by rewrite Hold3, Hold2 by lia |].
  split.
  { rewrite Hbf3, Hbf2 by (subst tryBlock; lia). done. }
  split; [by rewrite Hr3, Hr2 |].
  split; [by rewrite Hr3, Hr2 |].
  split; [done |].
  split.
  { rewrite Hbf3, Hbf2 by (subst tryBlock handlerBlock; lia). done. }
  split; [by rewrite Hold3, Hold2 by lia |].
  split; [by rewrite Hold3, Hcallop by lia |].
  split; [by rewrite Hold3, Hcallop by lia |].
  split; [by rewrite Hyieldop |].
  split.
  { unfold getParentRegion, getBlock, Block_getParent.
    rewrite Hold3, Hcallop by lia. simpl. by rewrite Hbt3. }
  split.
  { intros o Ho. rewrite Hold3, Hold2 by lia. by apply Hold1. }
  done.
Qed.


Lemma invoke_in_synthetic_try_witness :
  ∃ s', Examples.invoked = Done (2, s') ∧
        blocks (mlir s') !! 1 = Some {| blk_parent := Some 1; blk_ops := [2; 3] |} ∧
        builder_ip s' = Examples.atEndOfBody ∧ mayThrow s' = true.
Proof.
  destruct (invoke_in_synthetic_try (Examples.CGF0 false true) Examples.Int_fn
              [Examples.arg0] SideEffect_All ∅ Examples.bodyState
              {| ip_block := 0; ip_before := None |}
              {| blk_parent := Some 0; blk_ops := [] |}
              {| getClosestTryParent := None |}
              eq_refl eq_refl (λ _ _, eq_refl) eq_refl eq_refl (le_n 1))
    as (s' & H & _ & _ & _ & _ & Hb & _ & _ & _ & _ & _ & _ & _ & Hip & Hm & _).
  exists s'. split; [exact H |]. split; [exact Hb |]. split; [exact Hip | exact Hm].
Defined.

(** ** emitCall as a whole *)

(** The function type that emitCall computes for a descriptor. *)
Lemma emitCall_GetFunctionType (conv : QualType → mlirType) FI ts ty ts' :
  GetFunctionType (λ T, mret (conv T)) FI ts = Done (ty, ts') →
  (FI ∉ FunctionsBeingProcessed ts) ∧ ts' = ts ∧
  ty = FuncType (conv <$> requiredArguments FI)
                (if isNull (conv (getReturnType FI)) then VoidType
                 else conv (getReturnType FI))
                (isVariadic FI).
Proof.
  intros H. destruct (decide (FI ∈ FunctionsBeingProcessed ts)) as [Hin | Hnot].
  - rewrite GetFunctionType_in_progress in H by done. discriminate.
  - rewrite GetFunctionType_pure in H by done. by injection H as <- <-.
Qed.

Lemma emitCall_inv CGF CallInfo Callee ReturnValue CallArgs IsMustTail E s ret theCall s' :
  emitCall CGF CallInfo Callee ReturnValue CallArgs IsMustTail E s
    = Done ((ret, theCall), s') →
  let CIRFuncTy :=
    FuncType (convertType CGF <$> requiredArguments CallInfo)
             (if isNull (convertType CGF (getReturnType CallInfo)) then VoidType
              else convertType CGF (getReturnType CallInfo))
             (isVariadic CallInfo) in
  let TargetDecl := getDecl (getCalleeDecl (getAbstractInfo Callee)) in
  ∃ Vs m1 ConcreteCallee s2 Attrs callingConv sideEffect target s3 m4,
    ((isOrdinary Callee || isVirtual Callee) = true) ∧
    (CallInfo ∉ FunctionsBeingProcessed (typesState s)) ∧
    ArgRecord CallInfo = None ∧
    emitCall_args CGF (builder_ip s) CIRFuncTy 0 (arg_begin CallInfo) CallArgs (mlir s)
      = Done (Vs, m1) ∧
    prepareConcreteCallee CGF Callee
      {| mlir := m1; builder_ip := builder_ip s; typesState := typesState s;
         mayThrow := mayThrow s; callWithExceptionCtx := callWithExceptionCtx s |}
      = Done (ConcreteCallee, s2) ∧
    isOrdinary ConcreteCallee = true ∧
    constructAttributeList (CGM CGF)
      (match getFunctionPointer ConcreteCallee with
       | Callee_FuncOp calleeFnOp => fn_name calleeFnOp
       | _ => String.EmptyString
       end) CallInfo (getAbstractInfo Callee) ∅ true false
      = Done (Attrs, callingConv, sideEffect) ∧
    isSEHTryScope CGF = false ∧
    CurFuncDecl_hasAttr CGF StrictFPAttr = false ∧
    match getFunctionPointer ConcreteCallee with
    | Callee_FuncOp fnOp => Done (None, None, Some fnOp)
    | Callee_GetGlobalOp name _ =>
        match lookupSymbolIn CGF name with
        | Some fn => Done (None, None, Some fn)
        | None => Faulted (AssertionFailure "operation is not a function")
        end
    | Callee_Other results =>
        match results with
        | v :: _ =>
            match val_type v with
            | PointerType (FuncType _ _ _) => Done (Some CIRFuncTy, Some v, None)
            | _ => Faulted (AssertionFailure "expected pointer to function")
            end
        | [] => Faulted (AssertionFailure "expected pointer to function")
        end
    end = Done target ∧
    emitCallLikeOp CGF target.1.1 target.1.2 target.2 Vs
      (emitCall_isInvoke CGF Attrs (getFunctionPointer ConcreteCallee))
      callingConv sideEffect Attrs s2 = Done (theCall, s3) ∧
    CurFuncDecl_hasAttr CGF CFGuardAttr = false ∧
    ObjCAutoRefCount (getLangOpts (CGM CGF)) = false ∧
    TargetDecl_hasAttr TargetDecl NotTailCalledAttr = false ∧
    getDebugInfo CGF = false ∧
    TargetDecl_hasAttr TargetDecl ErrorAttr = false ∧
    IsMustTail = false ∧
    emitCall_extractReturn CGF (builder_ip s) (getReturnType CallInfo) ReturnValue theCall
      (match E with
       | Some e => {| ops := alter (setAstAttr e) theCall (ops (mlir s3));
                      blocks := blocks (mlir s3); regions := regions (mlir s3);
                      allocas := allocas (mlir s3); nextOp := nextOp (mlir s3);
                      nextValue := nextValue (mlir s3);
                      nextBlock := nextBlock (mlir s3);
                      nextRegion := nextRegion (mlir s3);
                      CounterAggTmp := CounterAggTmp (mlir s3) |}
       | None => mlir s3
       end) = Done (ret, m4) ∧
    s' = {| mlir := m4; builder_ip := builder_ip s3; typesState := typesState s3;
            mayThrow := mayThrow s3; callWithExceptionCtx := callWithExceptionCtx s3 |} ∧
    isDestructedType_nontrivial_c_struct CGF (getReturnType CallInfo) = false.
Proof.
  intros H CIRFuncTy TargetDecl. unfold emitCall in H.
  rewrite bind_get_state in H.
  apply Emit_bind_Done in H as ([] & s0 & H1 & H).
  apply lift_assert_Done in H1 as [Hord ->].
  apply Emit_bind_Done in H as (ty & s0 & Hty & H).
  apply liftTypes_Done in Hty as (ts' & Hty & ->).
  apply emitCall_GetFunctionType in Hty as (Hnot & -> & ->).
  fold CIRFuncTy in H.
  apply Emit_bind_Done in H as ([] & s0 & H1 & H).
  apply lift_assert_Done in H1 as [Hrec ->]. apply bool_decide_eq_true in Hrec.
  apply Emit_bind_Done in H as (Vs & s1 & Hargs & H).
  apply liftMLIR_Done in Hargs as (m1 & Hargs & ->). simpl in Hargs.
  apply Emit_bind_Done in H as (ConcreteCallee & s2 & Hprep & H).
  apply Emit_bind_Done in H as ([] & s0 & H1 & H).
  apply lift_assert_Done in H1 as [Hcord ->].
  apply Emit_bind_Done in H as ([[Attrs cc] se] & s0 & Hattrs & H).
  apply lift_Done in Hattrs as [Hattrs ->].
  apply Emit_bind_Done in H as ([] & s0 & Hseh & H).
  assert (isSEHTryScope CGF = false ∧ s0 = s2) as [Hseh' ->].
  { destruct (isSEHTryScope CGF); [discriminate |]. by injection Hseh as <-. }
  apply Emit_bind_Done in H as ([] & s0 & H1 & H).
  apply lift_assert_Done in H1 as [Hfp ->]. apply negb_true_iff in Hfp.
  apply Emit_bind_Done in H as (theCall' & s3' & Hcall & H).
  apply Emit_bind_Done in Hcall as ([[ity ival] dfn] & s0 & Htarget & Hcall).
  apply lift_Done in Htarget as [Htarget ->].
  apply Emit_bind_Done in Hcall as (callLikeOp & s3 & Hemit & Hcall).
  apply Emit_bind_Done in Hcall as ([] & s3'' & Hast & Hcall).
  injection Hcall as <- <-.
  apply Emit_bind_Done in H as ([] & s0 & H1 & H).
  apply lift_assert_Done in H1 as [Hcfg ->]. apply negb_true_iff in Hcfg.
  apply Emit_bind_Done in H as ([] & s0 & H1 & H).
  apply lift_assert_Done in H1 as [Hobjc ->]. apply negb_true_iff in Hobjc.
  apply Emit_bind_Done in H as ([] & s0 & H1 & H).
  apply lift_assert_Done in H1 as [Hntc ->]. apply negb_true_iff in Hntc.
  apply Emit_bind_Done in H as ([] & s0 & H1 & H).
  apply lift_assert_Done in H1 as [Hdbg ->]. apply negb_true_iff in Hdbg.
  apply Emit_bind_Done in H as ([] & s0 & H1 & H).
  apply lift_assert_Done in H1 as [Herr ->]. apply negb_true_iff in Herr.
  apply Emit_bind_Done in H as ([] & s0 & H1 & H).
  apply lift_assert_Done in H1 as [Hmt ->]. apply negb_true_iff in Hmt.
  apply Emit_bind_Done in H as (ret' & s4 & Hret & H).
  apply liftMLIR_Done in Hret as (m4 & Hret & ->).
  apply Emit_bind_Done in H as ([] & s0 & H1 & H).
  apply lift_assert_Done in H1 as [Hdt ->]. apply negb_true_iff in Hdt.
  injection H as <- <- <-.
  exists Vs, m1, ConcreteCallee, s2, Attrs, cc, se, (ity, ival, dfn), s3, m4.
  assert (mlir s3'' = match E with
                      | Some e => {| ops := alter (setAstAttr e) callLikeOp (ops (mlir s3));
                                     blocks := blocks (mlir s3); regions := regions (mlir s3);
                                     allocas := allocas (mlir s3); nextOp := nextOp (mlir s3);
                                     nextValue := nextValue (mlir s3);
                                     nextBlock := nextBlock (mlir s3);
                                     nextRegion := nextRegion (mlir s3);
                      CounterAggTmp := CounterAggTmp (mlir s3) |}
                      | None => mlir s3
                      end ∧
          builder_ip s3'' = builder_ip s3 ∧ typesState s3'' = typesState s3 ∧
          mayThrow s3'' = mayThrow s3 ∧
          callWithExceptionCtx s3'' = callWithExceptionCtx s3) as (Hm & Hb & Ht & Hmt' & Hc).
  { destruct E as [e |].
    - apply liftMLIR_Done in Hast as (m' & Hup & ->).
      unfold updateOp in Hup. injection Hup as <-. done.
    - by injection Hast as <-. }
  rewrite Hm in Hret. rewrite Hb, Ht, Hmt', Hc.
  repeat (split; [done |]). done.
Qed.


(** emitCall, whenever it returns: the call is not a must-tail call; the
    callee is ordinary or virtual; the descriptor's function type is not
    under construction and the descriptor has no argument record; the call
    site is not inside a SEH try scope; the language mode is neither SYCL
    device compilation nor Objective-C with automatic reference counting;
    no debug info is requested; the current function is neither strict-FP
    nor CF-guard marked; the callee declaration is neither
    not-tail-called nor error marked; and the return type is not a
    non-trivial C struct. *)
Theorem emitCall_requirements CGF CallInfo Callee ReturnValue CallArgs IsMustTail E
    s r s' :
  emitCall CGF CallInfo Callee ReturnValue CallArgs IsMustTail E s = Done (r, s') →
  let TargetDecl := getDecl (getCalleeDecl (getAbstractInfo Callee)) in
  IsMustTail = false ∧
  ((isOrdinary Callee || isVirtual Callee) = true) ∧
  (CallInfo ∉ FunctionsBeingProcessed (typesState s)) ∧
  ArgRecord CallInfo = None ∧
  isSEHTryScope CGF = false ∧
  SYCLIsDevice (getLangOpts (CGM CGF)) = false ∧
  ObjCAutoRefCount (getLangOpts (CGM CGF)) = false ∧
  getDebugInfo CGF = false ∧
  CurFuncDecl_hasAttr CGF StrictFPAttr = false ∧
  CurFuncDecl_hasAttr CGF CFGuardAttr = false ∧
  TargetDecl_hasAttr TargetDecl NotTailCalledAttr = false ∧
  TargetDecl_hasAttr TargetDecl ErrorAttr = false ∧
  isDestructedType_nontrivial_c_struct CGF (getReturnType CallInfo) = false.
Proof.
  destruct r as [ret theCall]. intros H TargetDecl.
  apply emitCall_inv in H
    as (Vs & m1 & CC & s2 & Attrs & cc & se & target & s3 & m4 & H1 & H2 & H3 & _ & _ &
        _ & Hattrs & H4 & H5 & _ & _ & H6 & H7 & H8 & H9 & H10 & H11 & _ & _ & H12).
  apply constructAttributeList_inv in Hattrs as (_ & _ & Hsycl & _).
  repeat (split; [done |]). done.
Qed.

Lemma emitCall_requirements_witness :
  ∃ r s,
    emitCall (Examples.CGF0 false false) Examples.Int_FI Examples.Int_callee
      Examples.noSlot [Examples.scalarArg 1 Examples.s32i Examples.s32] false None
      Examples.bodyState = Done (r, s) ∧
    ArgRecord Examples.Int_FI = None.
Proof.
  assert (∃ r s,
            emitCall (Examples.CGF0 false false) Examples.Int_FI Examples.Int_callee
              Examples.noSlot [Examples.scalarArg 1 Examples.s32i Examples.s32] false None
              Examples.bodyState = Done (r, s)) as (r & s & H)
    by (do 2 eexists; vm_compute; reflexivity).
  exists r, s. split; [exact H |].
  destruct (emitCall_requirements _ _ _ _ _ _ _ _ _ _ H) as (_ & _ & _ & Hrec & _).
  exact Hrec.
Defined.

(** ** A plain direct call *)

Lemma createStore_frame ip val dst st o st' :
  createStore ip val dst st = Done (o, st') →
  nextOp st' = S (nextOp st) ∧
  (∀ x, x < nextOp st → ops st' !! x = ops st !! x).
Proof.
  unfold createStore. intros H.
  apply Emit_bind_Done in H as (r & s1 & H & Hr). injection Hr as <- <-.
  apply createOp_frame in H as (_ & Hn & Hf & _).
  split; [done |]. intros x Hx. apply Hf. lia.
Qed.

Lemma emitCall_extractReturn_frame CGF ip RetTy ReturnValue theCall st ret st' :
  emitCall_extractReturn CGF ip RetTy ReturnValue theCall st = Done (ret, st') →
  nextOp st ≤ nextOp st' ∧
  (∀ o, o < nextOp st → ops st' !! o = ops st !! o).
Proof.
  unfold emitCall_extractReturn. intros H.
  assert (∀ name D st1,
            match getValue ReturnValue with
            | Some a => mret a
            | None => CreateMemTemp CGF RetTy name
            end st = Done (D, st1) →
            nextOp st ≤ nextOp st1 ∧ ops st1 = ops st) as Hslot.
  { intros name D st1 Hs. destruct (getValue ReturnValue).
    - by injection Hs as <- <-.
    - unfold CreateMemTemp in Hs. injection Hs as <- <-. simpl. split; [lia | done]. }
  assert (∀ D st1,
            match getValue ReturnValue with
            | Some a => mret a
            | None => name ← getCounterAggTmpAsString; CreateMemTemp CGF RetTy name
            end st = Done (D, st1) →
            nextOp st ≤ nextOp st1 ∧ ops st1 = ops st) as Hagg.
  { intros D st1 Hs. destruct (getValue ReturnValue).
    - by injection Hs as <- <-.
    - unfold getCounterAggTmpAsString, CreateMemTemp in Hs. unfold_monad.
      injection Hs as <- <-. simpl. split; [lia | done]. }
  destruct (isa_VoidType (convertType CGF RetTy)).
  { apply lift_Done in H as [_ ->]. done. }
  destruct (getEvaluationKind CGF RetTy).
  - rewrite bind_get_state in H.
    apply Emit_bind_Done in H as ([] & s0 & H1 & H). apply lift_assert_Done in H1 as [_ ->].
    apply Emit_bind_Done in H as (R0 & s0 & H1 & H). apply lift_Done in H1 as [_ ->].
    apply Emit_bind_Done in H as ([] & s0 & H1 & H). apply lift_assert_Done in H1 as [_ ->].
    destruct ip as [p |]; [| by apply lift_Done in H as [[=] _]].
    destruct (bool_decide _).
    + apply Emit_bind_Done in H as (D & st1 & Hs & H).
      apply Hslot in Hs as [Hle Hops].
      unfold getRValueThroughMemory in H. rewrite bind_get_state in H.
      apply Emit_bind_Done in H as (o & st2 & Hst & H).
      apply createStore_frame in Hst as [Hn2 Hf2].
      apply Emit_bind_Done in H as (v & st3 & Hld & H). injection H as <- <-.
      apply createLoad_frame in Hld as (_ & Hn3 & Hf3).
      split; [lia |]. intros o' Ho'. rewrite Hf3, Hf2 by lia. by rewrite Hops.
    + by injection H as <- <-.
  - apply lift_Done in H as [[=] _].
  - apply Emit_bind_Done in H as (D & st1 & Hs & H).
    apply Hagg in Hs as [Hle Hops].
    rewrite bind_get_state in H.
    apply Emit_bind_Done in H as ([] & s0 & H1 & H). apply lift_assert_Done in H1 as [_ ->].
    apply Emit_bind_Done in H as (R0 & s0 & H1 & H). apply lift_Done in H1 as [_ ->].
    apply Emit_bind_Done in H as ([] & st2 & Hst & H). injection H as <- <-.
    unfold emitAggregateStore in Hst.
    destruct (val_def R0) as [o |]; [| by apply lift_Done in Hst as [[=] _]].
    rewrite bind_get_state in Hst.
    apply Emit_bind_Done in Hst as (o' & st3 & Hst & H). injection H as <-.
    apply createStore_frame in Hst as [Hn2 Hf2].
    split; [lia |]. intros x Hx. rewrite Hf2 by lia. by rewrite Hops.
Qed.

(** emitCall for an ordinary callee that is a function, at a point where
    no unwind destination is required: the returned operation is a direct
    call of that function without exception mark, with the effective
    calling convention of the descriptor and the side-effect class of the
    callee declaration; it has one operand per call argument, each typed
    as the corresponding input of the callee's function type; its extra
    attributes are exactly the synthesized ones and its AST attribute is
    the call expression; the builder, the may-throw mark and the lowering
    context are left as they were. *)
Theorem emitCall_direct_call CGF CallInfo Callee ReturnValue CallArgs IsMustTail E
    s ret theCall s' fn :
  emitCall CGF CallInfo Callee ReturnValue CallArgs IsMustTail E s
    = Done ((ret, theCall), s') →
  isOrdinary Callee = true →
  getFunctionPointer Callee = Callee_FuncOp fn →
  isInvokeDest CGF = false →
  let CIRFuncTy :=
    FuncType (convertType CGF <$> requiredArguments CallInfo)
             (if isNull (convertType CGF (getReturnType CallInfo)) then VoidType
              else convertType CGF (getReturnType CallInfo))
             (isVariadic CallInfo) in
  ∃ Vs Attrs,
    (op_kind <$> ops (mlir s') !! theCall)
      = Some (CallOp (DirectCallee (fn_name fn)) Vs false
                     (EffectiveCallingConvention CallInfo)
                     (sideEffectOf (getDecl (getCalleeDecl (getAbstractInfo Callee))))) ∧
    length Vs = length CallArgs ∧
    (∀ i V T, Vs !! i = Some V → getInput CIRFuncTy i = Some T → val_type V = T) ∧
    (op_extra_attrs <$> ops (mlir s') !! theCall) = Some (Some Attrs) ∧
    (∀ name, Attrs !! name = synthesized (CGM CGF) (getAbstractInfo Callee) name) ∧
    (op_ast <$> ops (mlir s') !! theCall) = Some E ∧
    builder_ip s' = builder_ip s ∧ mayThrow s' = mayThrow s ∧
    typesState s' = typesState s.
Proof.
  intros H Hord Hfp Hdest CIRFuncTy.
  apply emitCall_inv in H
    as (Vs & m1 & CC & s2 & Attrs & cc & se & target & s3 & m4 & _ & _ & _ & Hargs & Hprep &
        _ & Hattrs & _ & _ & Htarget & Hemit & _ & _ & _ & _ & _ & _ & Hret & -> & _).
  fold CIRFuncTy in Hargs, Htarget.
  assert (isVirtual Callee = false) as Hvirt.
  { unfold isOrdinary, isVirtual in *. apply bool_decide_eq_true in Hord.
    rewrite Hord. done. }
  unfold prepareConcreteCallee in Hprep. rewrite Hvirt in Hprep.
  injection Hprep as <- <-.
  rewrite Hfp in Htarget, Hattrs, Hemit. injection Htarget as <-.
  cbn [fst snd] in Hemit.
  assert (emitCall_isInvoke CGF Attrs (Callee_FuncOp fn) = false) as Hinv.
  { unfold emitCall_isInvoke. rewrite Hdest. by destruct (emitCall_CannotThrow _ _ _). }
  rewrite Hinv in Hemit.
  apply emitCallLikeOp_inv in Hemit
    as (_ & _ & Hip & Hmt & _ & Hts & Hc & Hkind & Hextra & Hast & Hnext).
  cbn [mlir builder_ip typesState mayThrow] in *.
  apply constructAttributeList_inv in Hattrs as (-> & -> & _ & Hsyn).
  destruct (emitCall_args_typed CGF (builder_ip s) CallInfo _ _ CallArgs 0 Vs (mlir s) m1
              Hargs) as (Hlen & Hty & _).
  pose proof (emitCall_extractReturn_frame _ _ _ _ _ _ _ _ Hret) as [_ Hframe].
  exists Vs, Attrs.
  destruct (ops (mlir s3) !! theCall) as [d |] eqn:Ed; [| discriminate].
  simpl in Hkind, Hextra, Hast.
  injection Hkind as Hkind. injection Hextra as Hextra. injection Hast as Hast.
  assert (ops m4 !! theCall =
          Some (match E with Some e => setAstAttr e d | None => d end)) as Hfinal.
  { rewrite Hframe.
    - destruct E as [e |]; simpl; [| done]. by rewrite lookup_alter_eq, Ed.
    - destruct E; simpl; lia. }
  rewrite Hfinal. simpl.
  split; [destruct E; simpl; by rewrite Hkind |].
  split; [done |].
  split.
  { intros i V T HV HT.
    assert (i < getNumInputs CIRFuncTy) as Hlt.
    { unfold getInput in HT. apply lookup_lt_Some in HT. done. }
    rewrite (Hty i V HV Hlt).
    change (default NullType (getInput CIRFuncTy i) = T). by rewrite HT. }
  split; [destruct E; simpl; by rewrite Hextra |].
  split.
  { intros name. rewrite Hsyn, lookup_empty.
    by destruct (synthesized (CGM CGF) (getAbstractInfo Callee) name). }
  split; [destruct E; simpl; by rewrite ?Hast |].
  done.
Qed.


(** ** Building the argument list *)

Lemma emitCallArg_inv CGF EE args E type s args' s' :
  emitCallArg CGF EE args E type s = Done (args', s') →
  ∃ arg, args' = args ++ [arg] ∧ Ty arg = type ∧
         isObjCIndirectCopyRestoreExpr E = false ∧
         isReferenceType EE type = isGLValue E ∧
         (isGLValue E = true → isOrdinaryObjectKind E = true) ∧
         (hasLValue arg = true ↔
          isGLValue E = false ∧ hasAggregateEvaluationKind CGF type = true ∧
          ∃ SubExpr, implicitCast E = Some (CK_LValueToRValue, SubExpr)).
Proof.
  unfold emitCallArg. intros H.
  apply Emit_bind_Done in H as ([] & s0 & H1 & H).
  apply lift_assert_Done in H1 as [Hobjc ->]. apply negb_true_iff in Hobjc.
  apply Emit_bind_Done in H as ([] & s0 & H1 & H).
  apply lift_assert_Done in H1 as [Href ->]. apply bool_decide_eq_true in Href.
  destruct (isGLValue E) eqn:HGL.
  - apply Emit_bind_Done in H as ([] & s0 & H1 & H).
    apply lift_assert_Done in H1 as [Hok ->].
    apply Emit_bind_Done in H as (rv & s1 & Hrv & H). injection H as <- <-.
    eexists. split; [reflexivity |]. simpl.
    split; [done |]. split; [done |]. split; [done |]. split; [done |].
    split; [discriminate | by intros (? & _)].
  - apply Emit_bind_Done in H as ([] & s0 & _ & H).
    assert (∀ s0, (rv ← emitAnyExprToTemp CGF EE E; mret (CallArgList_add args rv type)) s0
                  = Done (args', s') →
                  ∃ arg, args' = args ++ [arg] ∧ Ty arg = type ∧ hasLValue arg = false)
      as Hany.
    { intros s1 Ha. apply Emit_bind_Done in Ha as (rv & s2 & _ & Ha).
      injection Ha as <- <-. eexists. split; [reflexivity |]. done. }
    destruct (implicitCast E) as [[[] SubExpr] |] eqn:Hcast.
    + destruct (hasAggregateEvaluationKind CGF type) eqn:Hagg.
      * apply Emit_bind_Done in H as (L & s1 & HL & H).
        apply Emit_bind_Done in H as ([] & s2 & _ & H). injection H as <- <-.
        eexists. split; [reflexivity |]. simpl.
        split; [done |]. split; [done |]. split; [done |]. split; [done |].
        split; [| done]. intros _. eauto.
      * apply Hany in H as (arg & -> & HT & HLV). exists arg.
        split; [done |]. split; [done |]. split; [done |]. split; [done |].
        split; [done |]. rewrite HLV. split; [done |]. by intros (_ & ? & _).
    + apply Hany in H as (arg & -> & HT & HLV). exists arg.
      split; [done |]. split; [done |]. split; [done |]. split; [done |].
      split; [done |]. rewrite HLV. split; [done |].
      by intros (_ & _ & ? & [=]).
    + apply Hany in H as (arg & -> & HT & HLV). exists arg.
      split; [done |]. split; [done |]. split; [done |]. split; [done |].
      split; [done |]. rewrite HLV. split; [done |].
      by intros (_ & _ & ? & [=]).
Qed.

(** emitCallArg adds exactly one argument to the list, recorded under
    the requested type, and leaves the arguments before it untouched; the
    expression is a glvalue exactly when the type is a reference type.
    The argument is an l-value (an aggregate passed without copy) exactly
    when the expression is an l-value-to-r-value conversion of aggregate
    evaluation kind; in every other case it is an r-value. *)
Theorem emitCallArg_adds_one CGF EE args E type s args' s' :
  emitCallArg CGF EE args E type s = Done (args', s') →
  ∃ arg, args' = args ++ [arg] ∧ Ty arg = type ∧
         isObjCIndirectCopyRestoreExpr E = false ∧
         isReferenceType EE type = isGLValue E ∧
         (isGLValue E = true → isOrdinaryObjectKind E = true) ∧
         (hasLValue arg = true ↔
          isGLValue E = false ∧ hasAggregateEvaluationKind CGF type = true ∧
          ∃ SubExpr, implicitCast E = Some (CK_LValueToRValue, SubExpr)).
Proof. apply emitCallArg_inv. Qed.

(** The argument types emitCallArgs works with: one per argument
    expression; those of the prototype's parameters after the skipped
    ones, then, for each further argument, the type of the expression,
    or its variadic-argument type when the prototype is variadic. *)
Lemma emitCallArgs_ArgTypes_inv EE Prototype ArgRange ParamsToSkip cc ArgTypes :
  emitCallArgs_ArgTypes EE Prototype ArgRange ParamsToSkip = Done (cc, ArgTypes) →
  length ArgTypes = length ArgRange ∧
  match Prototype with
  | Prototype_null => cc = CC_C ∧ ArgTypes = getType <$> ArgRange
  | Prototype_ObjCMethodDecl => False
  | Prototype_FunctionProtoType FPT =>
      cc = getCC (getExtInfo FPT) ∧
      ArgTypes = drop ParamsToSkip (fpt_ParamTypes FPT) ++
                 ((λ A, if isVariadic_proto FPT then getVarArgType EE A else getType A)
                    <$> drop (getNumParams FPT - ParamsToSkip) ArgRange)
  end.
Proof.
  unfold emitCallArgs_ArgTypes. intros H.
  apply Outcome_bind_Done in H as ([[v cc'] tys] & Hp & H).
  apply Outcome_bind_Done in H as ([] & Hlen & H). apply assert_Done in Hlen.
  apply bool_decide_eq_true in Hlen.
  injection H as <- <-. split; [done |].
  destruct Prototype as [| FPT |].
  - injection Hp as <- <- <-. simpl. by rewrite drop_0.
  - injection Hp as <- <- <-.
    rewrite length_drop. unfold getNumParams. done.
  - discriminate.
Qed.

Lemma emitCallArgs_step_inv CGF EE AC ArgRange ArgTypes E I Args s Args' s' :
  emitCallArgs_step CGF EE AC true ArgRange ArgTypes E I Args s = Done (Args', s') →
  ∃ g T, Args' = Args ++ g ∧ ArgTypes !! I = Some T ∧ is_Some (ArgRange !! I) ∧
         argumentGroup CGF AC I T g.
Proof.
  unfold emitCallArgs_step. intros H.
  destruct (ArgRange !! I) as [Arg |] eqn:EA; [| by apply lift_Done in H as [[=] _]].
  destruct (ArgTypes !! I) as [T |] eqn:ET; [| by apply lift_Done in H as [[=] _]].
  apply Emit_bind_Done in H as ([] & s0 & H1 & H). apply lift_assert_Done in H1 as [_ ->].
  apply Emit_bind_Done in H as ([] & s0 & H1 & H). apply lift_assert_Done in H1 as [_ ->].
  apply Emit_bind_Done in H as (Args1 & s1 & Harg & H).
  apply emitCallArg_inv in Harg as (a & -> & HTy & _).
  apply Emit_bind_Done in H as ([] & s0 & H1 & H). apply lift_assert_Done in H1 as [_ ->].
  rewrite last_snoc in H.
  unfold argumentGroup.
  destruct (hasLValue a) eqn:HLV; simpl in H.
  - injection H as <- <-. exists [a], T. split; [done |]. split; [done |].
    split; [eauto |]. exists a. split; [done |]. rewrite HLV. simpl. by rewrite andb_false_r.
  - apply Emit_bind_Done in H as (RVArg & s0 & Hrv & H). apply lift_Done in Hrv as [Hrv ->].
    apply Emit_bind_Done in H as ([] & s0 & H1 & H). apply lift_assert_Done in H1 as [_ ->].
    apply Emit_bind_Done in H as ([] & s0 & H1 & H). apply lift_assert_Done in H1 as [_ ->].
    unfold MaybeEmitImplicitObjectSize in H.
    destruct (negb (AC_hasFunctionDecl AC) || bool_decide (AC_getNumParams AC ≤ I)) eqn:Hno.
    + injection H as <- <-. exists [a], T. split; [done |]. split; [done |].
      split; [eauto |]. exists a. split; [done |].
      assert (AC_getPassObjectSizeAttr AC I = None) as ->.
      { unfold AC_getPassObjectSizeAttr, AC_hasFunctionDecl, AC_getNumParams in *.
        destruct AC as [[params | |] |]; try done. simpl in Hno.
        apply bool_decide_eq_true in Hno.
        by rewrite lookup_ge_None_2. }
      by rewrite bool_decide_eq_false_2 by (by intros [? ?]).
    + destruct (AC_getPassObjectSizeAttr AC I) as [PS |] eqn:EPS.
      * apply Emit_bind_Done in H as (V0 & s0 & HV0 & H). apply lift_Done in HV0 as [_ ->].
        apply Emit_bind_Done in H as (V & s2 & HV & H). simpl in H. injection H as <- <-.
        eexists _, T. split; [unfold CallArgList_add; by rewrite <- app_assoc |]. split; [done |].
        split; [eauto |]. exists a. split; [done |].
        rewrite HLV, bool_decide_eq_true_2 by eauto. simpl. eauto.
      * injection H as <- <-. exists [a], T. split; [done |]. split; [done |].
        split; [eauto |]. exists a. split; [done |].
        by rewrite bool_decide_eq_false_2 by (by intros [? ?]).
Qed.

Lemma emitCallArgs_loop_inv CGF EE AC ArgRange ArgTypes E :
  ∀ Is Args s Args' s',
    emitCallArgs_loop CGF EE AC true ArgRange ArgTypes E Is Args s = Done (Args', s') →
    ∃ groups, Args' = Args ++ concat groups ∧
              Forall2 (λ I g, ∃ T, ArgTypes !! I = Some T ∧ argumentGroup CGF AC I T g)
                      Is groups.
Proof.
  induction Is as [| I Is IH]; intros Args s Args' s' H; simpl in H.
  - injection H as <- <-. exists []. split; [by rewrite app_nil_r | constructor].
  - apply Emit_bind_Done in H as (Args1 & s1 & Hstep & H).
    apply emitCallArgs_step_inv in Hstep as (g & T & -> & HT & _ & Hg).
    apply IH in H as (groups & -> & HF).
    exists (g :: groups). split; [by rewrite <- app_assoc |].
    constructor; [eauto | done].
Qed.

Lemma emitCallArgs_inv CGF EE Args Prototype ArgRange AC ParamsToSkip Order s Args' s' :
  emitCallArgs CGF EE Args Prototype ArgRange AC ParamsToSkip Order s = Done (Args', s') →
  ∃ cc ArgTypes groups,
    emitCallArgs_ArgTypes EE Prototype ArgRange ParamsToSkip = Done (cc, ArgTypes) ∧
    Args' = Args ++ concat groups ∧
    length groups = length ArgRange ∧
    (∀ I T g, ArgTypes !! I = Some T → groups !! I = Some g →
              argumentGroup CGF AC I T g) ∧
    areArgsDestroyedLeftToRightInCallee (Target (getTypes CGF)) = false ∧
    isMicrosoft (Target (getTypes CGF)) = false ∧
    cc ≠ CC_Swift ∧ cc ≠ CC_SwiftAsync ∧
    (Prototype = Prototype_null → ParamsToSkip = 0).
Proof.
  unfold emitCallArgs. intros H.
  apply Emit_bind_Done in H as ([] & s0 & H1 & H). apply lift_assert_Done in H1 as [Hskip ->].
  apply Emit_bind_Done in H as ([cc ArgTypes] & s0 & Hty & H).
  apply lift_Done in Hty as [Hty ->]. cbn [fst snd] in H.
  apply Emit_bind_Done in H as ([] & s0 & H1 & H).
  apply lift_assert_Done in H1 as [Hms ->]. apply negb_true_iff in Hms.
  apply Emit_bind_Done in H as (inAlloca & s0 & Hin & H).
  apply lift_Done in Hin as [Hin ->].
  unfold hasInAllocaArgs in Hin.
  apply Outcome_bind_Done in Hin as ([] & Hsw & Hin). apply assert_Done in Hsw.
  apply andb_true_iff in Hsw as [Hsw1 Hsw2].
  apply bool_decide_eq_true in Hsw1, Hsw2.
  apply Outcome_bind_Done in Hin as ([] & Hmic & Hin). apply assert_Done in Hmic.
  apply negb_true_iff in Hmic. injection Hin as <-.
  apply Emit_bind_Done in H as ([] & s0 & H1 & H). apply lift_assert_Done in H1 as [_ ->].
  apply Emit_bind_Done in H as (Args1 & s1 & Hloop & H). simpl in H.
  injection H as <- <-.
  apply emitCallArgs_loop_inv in Hloop as (groups & -> & HF).
  pose proof (emitCallArgs_ArgTypes_inv _ _ _ _ _ _ Hty) as [Hlen _].
  exists cc, ArgTypes, groups. split; [done |]. split; [done |].
  split.
  { apply Forall2_length in HF. rewrite length_seq in HF. lia. }
  split.
  { intros I T g HT Hg.
    destruct (Forall2_lookup_r _ _ _ _ _ HF Hg) as (I' & HI' & T' & HT' & Hgrp).
    apply lookup_seq in HI' as [-> _]. simpl in *. by simplify_eq. }
  repeat (split; [done |]).
  intros ->. rewrite orb_false_r in Hskip. by apply bool_decide_eq_true in Hskip.
Qed.

(** emitCallArgs, for a prototype that has the skipped parameters and a
    call that has an argument for each remaining parameter (the source
    checks neither): it keeps the arguments it is given and appends, for
    each argument expression in order, that argument under its argument
    type, followed by an implicit object-size argument of the size type
    when the corresponding parameter of the callee has pass_object_size
    and the argument is an r-value.  There is one argument type per
    expression: those of the prototype's parameters behind the skipped
    ones, then, for each further argument, the type of the expression, or
    its variadic-argument type when the prototype is variadic; without
    prototype no parameter is skipped and every argument is passed under
    its own type.  The function returns only for targets whose arguments
    are not destroyed left to right in the callee, outside the Microsoft
    C++ ABI and the Swift conventions, and never for an Objective-C
    method. *)
Theorem emitCallArgs_spec CGF EE Args Prototype ArgRange AC ParamsToSkip Order
    s Args' s' :
  (∀ FPT, Prototype = Prototype_FunctionProtoType FPT →
          ParamsToSkip ≤ getNumParams FPT ∧
          getNumParams FPT - ParamsToSkip ≤ length ArgRange) →
  emitCallArgs CGF EE Args Prototype ArgRange AC ParamsToSkip Order s = Done (Args', s') →
  ∃ cc ArgTypes groups,
    Args' = Args ++ concat groups ∧
    length groups = length ArgRange ∧
    length ArgTypes = length ArgRange ∧
    (∀ I T g, ArgTypes !! I = Some T → groups !! I = Some g →
              argumentGroup CGF AC I T g) ∧
    match Prototype with
    | Prototype_null =>
        ParamsToSkip = 0 ∧ cc = CC_C ∧ ArgTypes = getType <$> ArgRange
    | Prototype_ObjCMethodDecl => False
    | Prototype_FunctionProtoType FPT =>
        cc = getCC (getExtInfo FPT) ∧
        ArgTypes = drop ParamsToSkip (fpt_ParamTypes FPT) ++
                   ((λ A, if isVariadic_proto FPT then getVarArgType EE A else getType A)
                      <$> drop (getNumParams FPT - ParamsToSkip) ArgRange)
    end ∧
    areArgsDestroyedLeftToRightInCallee (Target (getTypes CGF)) = false ∧
    isMicrosoft (Target (getTypes CGF)) = false ∧
    cc ≠ CC_Swift ∧ cc ≠ CC_SwiftAsync.
Proof.
  intros _ H.
  apply emitCallArgs_inv in H
    as (cc & ArgTypes & groups & Hty & HA & Hg & Hgrp & Hd & Hms & Hsw1 & Hsw2 & Hskip).
  apply emitCallArgs_ArgTypes_inv in Hty as [Hlen Hty].
  exists cc, ArgTypes, groups. repeat (split; [done |]).
  split; [| done].
  destruct Prototype; [| done..]. split; [by apply Hskip | done].
Qed.

(** emitDelegateCallArg adds exactly one argument, an r-value recorded
    under the parameter's type, and never for a parameter passed directly
    in memory.  For a parameter of reference type the argument is the
    result of one load from the parameter's local slot, the only operation
    added; otherwise it is the slot's content as convertTempToRValue gives
    it, and automatic reference counting is off. *)
Theorem emitDelegateCallArg_spec CGF EE args param s args' s' :
  emitDelegateCallArg CGF EE args param s = Done (args', s') →
  ∃ local rv,
    GetAddrOfLocalVar EE param = Done local ∧
    args' = args ++ [{| ca_value := HasRV rv; Ty := param_type param |}] ∧
    isInAllocaArgument EE (param_type param) = false ∧
    if isReferenceType EE (param_type param)
    then rv = RValue_get {| val_id := nextValue (mlir s);
                            val_type := getElementType local;
                            val_def := DefinedBy (nextOp (mlir s)) |} ∧
         (op_kind <$> ops (mlir s') !! nextOp (mlir s)) =
           Some (LoadOp (getPointer local)) ∧
         nextOp (mlir s') = S (nextOp (mlir s)) ∧
         (∀ o, o ≠ nextOp (mlir s) → ops (mlir s') !! o = ops (mlir s) !! o)
    else ObjCAutoRefCount (getLangOpts (CGM CGF)) = false ∧
         convertTempToRValue EE local (param_type param) s = Done (rv, s').
Proof.
  unfold emitDelegateCallArg. intros H.
  apply Emit_bind_Done in H as (local & s0 & Hloc & H). apply lift_Done in Hloc as [Hloc ->].
  destruct (isInAllocaArgument EE (param_type param)) eqn:Hia.
  { apply Emit_bind_Done in H as ([] & s0 & H1 & _). by apply lift_Done in H1 as [[=] _]. }
  apply Emit_bind_Done in H as ([] & s0 & [= <-] & H).
  apply Emit_bind_Done in H as (args1 & s1 & Hadd & H).
  apply Emit_bind_Done in H as ([] & s2 & Hclean & [= <- <-]).
  assert (s2 = s1) as ->.
  { destruct (match param_type param with RecordTy _ => _ | _ => _ end).
    - by apply lift_Done in Hclean as [[=] _].
    - by injection Hclean. }
  clear Hclean.
  destruct (isReferenceType EE (param_type param)) eqn:Href.
  - apply Emit_bind_Done in Hadd as (s0 & s3 & Hg & Hadd).
    apply get_state_Done in Hg as [-> ->].
    apply Emit_bind_Done in Hadd as (v & s3 & Hload & [= <- <-]).
    apply liftMLIR_Done in Hload as (m' & Hload & ->). simpl.
    destruct (createLoad_spec (builder_ip s) local (mlir s)) as (m2 & H2 & Hn & Hk & Ho).
    rewrite H2 in Hload. injection Hload as <- <-.
    eexists local, _. split; [done |]. split; [reflexivity |]. split; [done |].
    done.
  - destruct (ObjCAutoRefCount (getLangOpts (CGM CGF))) eqn:Harc.
    { by apply lift_Done in Hadd as [[=] _]. }
    apply Emit_bind_Done in Hadd as (rv & s3 & Hrv & [= <- <-]).
    eexists local, rv. split; [done |]. split; [reflexivity |]. split; [done |].
    done.
Qed.


(** ** Instances *)

Lemma aggregate_return_witness :
  ∃ DestPtr store st',
    emitCall_extractReturn (Examples.CGF0 false false) Examples.atEndOfBody
      (RecordTy "S1") Examples.noSlot 0 Scenarios.recordCallIR
    = Done (RValue_getAggregate DestPtr, st') ∧
    (alloca_name <$> allocas st') = ["agg.tmp0"] ∧
    CounterAggTmp st' = 1 ∧
    blocks st' !! 0 = Some {| blk_parent := Some 0; blk_ops := [0; store] |} ∧
    (op_kind <$> ops st' !! store)
      = Some (StoreOp Scenarios.recordCallResult (getPointer DestPtr)).
Proof.
  destruct (aggregate_return (Examples.CGF0 false false) Examples.atEndOfBody
              (RecordTy "S1") Examples.noSlot 0 Scenarios.recordCallResult
              Scenarios.recordCallIR 0 {| blk_parent := Some 0; blk_ops := [0] |} [] [])
    as (DestPtr & store & st' & H & (_ & Ha & Hc) & Hb & _ & Hk & _).
  - reflexivity.
  - reflexivity.
  - vm_compute. reflexivity.
  - reflexivity.
  - vm_compute. reflexivity.
  - vm_compute. reflexivity.
  - reflexivity.
  - apply NoDup_singleton.
  - exists DestPtr, store, st'. split; [exact H |].
    split; [rewrite Ha; reflexivity |]. split; [rewrite Hc; reflexivity |].
    split; [exact Hb | exact Hk].
Defined.

Lemma emitCall_direct_call_witness :
  ∃ ret theCall s' Vs,
    emitCall (Examples.CGF0 false false) Examples.Int_FI Examples.Int_callee
      Examples.noSlot [Examples.scalarArg 1 Examples.s32i Examples.s32] false None
      Examples.bodyState = Done ((ret, theCall), s') ∧
    (op_kind <$> ops (mlir s') !! theCall)
      = Some (CallOp (DirectCallee "_Z3Inti") Vs false cir_C SideEffect_All) ∧
    length Vs = 1.
Proof.
  assert (∃ ret theCall s',
            emitCall (Examples.CGF0 false false) Examples.Int_FI Examples.Int_callee
              Examples.noSlot [Examples.scalarArg 1 Examples.s32i Examples.s32] false None
              Examples.bodyState = Done ((ret, theCall), s')) as (ret & theCall & s' & H)
    by (do 3 eexists; vm_compute; reflexivity).
  exists ret, theCall, s'.
  destruct (emitCall_direct_call _ _ _ _ _ _ _ _ _ _ _ Examples.Int_fn H)
    as (Vs & Attrs & Hk & Hlen & _).
  - reflexivity.
  - reflexivity.
  - reflexivity.
  - exists Vs. split; [exact H |]. split; [exact Hk | exact Hlen].
Defined.

Lemma emitCallArg_adds_one_witness :
  ∃ a, emitCallArg (Examples.CGF0 false false) Scenarios.EE0 Examples.two_args
         (Scenarios.prvalue Examples.s32) Examples.s32 Examples.bodyState
       = Done (Examples.two_args ++ [a], Examples.bodyState) ∧
       Ty a = Examples.s32.
Proof.
  destruct (emitCallArg_adds_one (Examples.CGF0 false false) Scenarios.EE0
              Examples.two_args (Scenarios.prvalue Examples.s32) Examples.s32
              Examples.bodyState
              (Examples.two_args ++ [Examples.scalarArg 1 Examples.s32i Examples.s32])
              Examples.bodyState) as (a & Ha & HTy & _).
  - vm_compute. reflexivity.
  - exists a. split; [| exact HTy]. rewrite <- Ha. vm_compute. reflexivity.
Defined.

Lemma emitCallArgs_spec_witness :
  ∃ Args' s' groups,
    emitCallArgs (Examples.CGF0 false false) Scenarios.EE0 []
      (Prototype_FunctionProtoType Examples.pos_proto) Scenarios.pos_call_args
      Scenarios.pos_callee 0 Order_Default Examples.bodyState = Done (Args', s') ∧
    Args' = concat groups ∧ length groups = 2.
Proof.
  assert (∃ Args' s',
            emitCallArgs (Examples.CGF0 false false) Scenarios.EE0 []
              (Prototype_FunctionProtoType Examples.pos_proto) Scenarios.pos_call_args
              Scenarios.pos_callee 0 Order_Default Examples.bodyState = Done (Args', s'))
    as (Args' & s' & H) by (do 2 eexists; vm_compute; reflexivity).
  assert (∀ FPT, Prototype_FunctionProtoType Examples.pos_proto
                 = Prototype_FunctionProtoType FPT →
                 0 ≤ getNumParams FPT ∧
                 getNumParams FPT - 0 ≤ length Scenarios.pos_call_args) as Hin
    by (intros FPT [= <-]; unfold getNumParams; simpl; lia).
  destruct (emitCallArgs_spec _ _ _ _ _ _ _ _ _ _ _ Hin H)
    as (cc & ArgTypes & groups & HA & Hg & _).
  exists Args', s', groups. split; [exact H |]. split; [exact HA | exact Hg].
Defined.

Lemma emitDelegateCallArg_spec_witness :
  ∃ args' s' rv,
    emitDelegateCallArg (Examples.CGF0 false false) Scenarios.EE0 []
      Scenarios.S1_param Examples.bodyState = Done (args', s') ∧
    args' = [{| ca_value := HasRV rv; Ty := RecordTy "S1" |}].
Proof.
  assert (∃ args' s',
            emitDelegateCallArg (Examples.CGF0 false false) Scenarios.EE0 []
              Scenarios.S1_param Examples.bodyState = Done (args', s'))
    as (args' & s' & H) by (do 2 eexists; vm_compute; reflexivity).
  destruct (emitDelegateCallArg_spec _ _ _ _ _ _ _ H) as (local & rv & _ & Ha & _).
  exists args', s', rv. split; [exact H | exact Ha].
Defined.

